(** * YouTube downloader backend: a shallow embedding of [server.js]

    The server is a thin HTTP layer over the [yt-dlp] command line tool.
    This development embeds the parts of [server.js] that carry logic of
    their own: the file name sanitizer, the metadata cache in front of
    [getVideoInfo], the quality to format-selector mapping, the request
    handlers with their validation guards, the callbacks that supervise a
    spawned download (completion callback and timeout timer), and the
    cleanup passes over the downloads directory.

    Conventions.
    - A JavaScript string is a list of UTF-16 code units ([list N]); this is
      the granularity at which [String.prototype.includes], [startsWith],
      [endsWith], [trim] and non-unicode regular expressions operate.
    - JavaScript values that flow through the handlers (parsed yt-dlp
      output, response bodies) are the inductive [jsval]; a request body is
      a record of optional strings, as the HTTP interface has it.
    - Code that awaits, throws and mutates module state runs in the monad
      [M]: explicit passing of a [world] (cache, clock, spawned commands,
      directory listings) with a [Throw] alternative for exceptions.
    - A directory is the list of its entries in the order [readdirSync]
      gives them, regular files and sub-directories; paths are POSIX paths,
      joined and normalised as [path.join] does.
    - The runtime outside the repository (what a spawned command does, what
      [JSON.parse] answers) is a [runtime] record the definitions take as a
      parameter. *)

From Stdlib Require Import ZArith NArith Bool List Ascii String DecimalString Lia.
From Stdlib Require Import Sorted Permutation.
From stdpp Require Import base decidable option list gmap.
Import ListNotations.

Local Open Scope N_scope.
Set Warnings "-register-all".

(** ** JavaScript strings *)

Module JsString.

Abbreviation jsstring := (list N).

(** An ASCII literal as a sequence of code units. *)
Definition js (s : string) : jsstring :=
  List.map N_of_ascii (list_ascii_of_string s).

(** The double quote character (code unit 34). *)
Definition dquote : jsstring := [34].

Definition quoted (s : jsstring) : jsstring := dquote ++ s ++ dquote.

(** [s.startsWith(p)] *)
Fixpoint startsWith (s p : jsstring) : bool :=
  match p, s with
  | [], _ => true
  | _ :: _, [] => false
  | c :: p', d :: s' => (c =? d) && startsWith s' p'
  end.

(** [s.endsWith(p)] *)
Definition endsWith (s p : jsstring) : bool :=
  startsWith (rev s) (rev p).

(** [s.includes(p)] *)
Fixpoint includes (s p : jsstring) : bool :=
  startsWith s p ||
  match s with
  | [] => false
  | _ :: s' => includes s' p
  end.

(** White space and line terminators: the characters matched by [\s] and
    removed by [trim].  TAB, LF, VT, FF, CR, SP, NBSP, U+1680,
    U+2000..U+200A, U+2028, U+2029, U+202F, U+205F, U+3000, U+FEFF. *)
Definition is_space (c : N) : bool :=
  ((9 <=? c) && (c <=? 13)) || (c =? 32) || (c =? 160) || (c =? 5760)
  || ((8192 <=? c) && (c <=? 8202)) || (c =? 8232) || (c =? 8233)
  || (c =? 8239) || (c =? 8287) || (c =? 12288) || (c =? 65279).

(** The characters matched by [\w]: [A-Za-z0-9_].  Without the unicode
    flag, the [i] flag adds no character to this class. *)
Definition is_word (c : N) : bool :=
  ((48 <=? c) && (c <=? 57)) || ((65 <=? c) && (c <=? 90)) || (c =? 95)
  || ((97 <=? c) && (c <=? 122)).

Definition dot : N := 46.
Definition hyphen : N := 45.
Definition underscore : N := 95.
Definition newline : N := 10.

Fixpoint dropWhile (f : N -> bool) (s : jsstring) : jsstring :=
  match s with
  | [] => []
  | c :: s' => if f c then dropWhile f s' else s
  end.

(** [s.trim()] *)
Definition trim (s : jsstring) : jsstring :=
  rev (dropWhile is_space (rev (dropWhile is_space s))).

(** [s.split('\n')]: the pieces between line feeds; never empty. *)
Fixpoint split_lines (s : jsstring) : list jsstring :=
  match s with
  | [] => [[]]
  | c :: s' =>
      match split_lines s' with
      | [] => [[c]]
      | l :: ls => if c =? newline then [] :: l :: ls else (c :: l) :: ls
      end
  end.

(** Truthiness of a string: only the empty string is falsy. *)
Definition nonempty (s : jsstring) : bool :=
  match s with [] => false | _ :: _ => true end.

Definition jsstring_eqb (a b : jsstring) : bool := bool_decide (a = b).

End JsString.
Export JsString.

(** ** The file name sanitizer *)

Module Sanitizer.

(** A character survives [replace(/[^\w\s.-]/gi, '')] when it is a word
    character, white space, a dot or a hyphen. *)
Definition keep_char (c : N) : bool :=
  is_word c || is_space c || (c =? dot) || (c =? hyphen).

Definition strip_unsafe (s : jsstring) : jsstring := List.filter keep_char s.

(** [replace(/\s+/g, '_')]: every maximal run of white space becomes one
    underscore.  [in_run] tells that the previous character was white
    space, whose underscore has been emitted already. *)
Fixpoint collapse_spaces (in_run : bool) (s : jsstring) : jsstring :=
  match s with
  | [] => []
  | c :: s' =>
      if is_space c
      then (if in_run then collapse_spaces true s'
            else underscore :: collapse_spaces true s')
      else c :: collapse_spaces false s'
  end.

(** [sanitizeFilename], server.js lines 45-47. *)
Definition sanitizeFilename (filename : jsstring) : jsstring :=
  collapse_spaces false (strip_unsafe filename).

(** The alphabet of sanitized names. *)
Definition safe_char (c : N) : bool :=
  is_word c || (c =? dot) || (c =? hyphen).

End Sanitizer.
Export Sanitizer.

(** ** JavaScript values *)

Module JsValue.

(** The values that reach the handlers from [JSON.parse] and that the
    handlers send back with [res.json].  Numbers are carried as integers:
    no handler computes with them. *)
Inductive jsval :=
| JUndefined
| JNull
| JBool (b : bool)
| JNum (n : Z)
| JStr (s : jsstring)
| JArr (items : list jsval)
| JObj (props : list (jsstring * jsval)).

(** [!!v] *)
Definition truthy (v : jsval) : bool :=
  match v with
  | JUndefined | JNull => false
  | JBool b => b
  | JNum n => negb (n =? 0)%Z
  | JStr s => nonempty s
  | JArr _ | JObj _ => true
  end.

Fixpoint assoc (k : jsstring) (props : list (jsstring * jsval)) : option jsval :=
  match props with
  | [] => None
  | (k', v) :: props' => if jsstring_eqb k k' then Some v else assoc k props'
  end.

(** The outcome of an evaluation that may throw; an exception is its
    [message]. *)
Inductive result (A : Type) :=
| Return (a : A)
| Throw (message : jsstring).
Arguments Return {A} a.
Arguments Throw {A} message.

(** V8's message for a property read on [null] or [undefined]. *)
Definition typeError_read (what k : jsstring) : jsstring :=
  js "Cannot read properties of " ++ what ++ js " (reading '" ++ k ++ js "')".

(** [v.k] for a property name that no prototype defines. *)
Definition get_prop (v : jsval) (k : jsstring) : result jsval :=
  match v with
  | JUndefined => Throw (typeError_read (js "undefined") k)
  | JNull => Throw (typeError_read (js "null") k)
  | JObj props => Return (default JUndefined (assoc k props))
  | JBool _ | JNum _ | JStr _ | JArr _ => Return JUndefined
  end.

(** [a || b] on values. *)
Definition js_or (a b : jsval) : jsval := if truthy a then a else b.

End JsValue.
Export JsValue.

(** ** Quality selector to format selector *)

Module Quality.

Definition fmt_combined_360 : jsstring := js "18".
Definition fmt_2160 : jsstring :=
  js "313+140/401+140/bestvideo[height<=2160]+bestaudio".
Definition fmt_1440 : jsstring :=
  js "271+140/400+140/bestvideo[height<=1440]+bestaudio".
Definition fmt_1080 : jsstring :=
  js "137+140/248+140/399+140/bestvideo[height<=1080]+bestaudio".
Definition fmt_720 : jsstring :=
  js "136+140/247+140/398+140/bestvideo[height<=720]+bestaudio".
Definition fmt_480 : jsstring :=
  js "135+140/244+140/397+140/bestvideo[height<=480]+bestaudio".

(** [const { quality = 'highest' } = req.body]: the default applies when the
    field is absent. *)
Definition quality_or_default (q : option jsstring) (dflt : string) : jsstring :=
  default (js dflt) q.

(** [quality === lit] *)
Definition quality_is (quality : jsstring) (lit : string) : bool :=
  jsstring_eqb quality (js lit).

(** The if-chain of the [/api/download/video] handler, server.js lines
    264-287. *)
Definition formatSelector_videoRoute (quality : jsstring) : jsstring :=
  if quality_is quality "360p" || quality_is quality "240p" || quality_is quality "144p"
  then fmt_combined_360
  else if quality_is quality "4k" then fmt_2160
  else if quality_is quality "1440p" then fmt_1440
  else if quality_is quality "1080p" then fmt_1080
  else if quality_is quality "720p" then fmt_720
  else if quality_is quality "480p" then fmt_480
  else if quality_is quality "highest" then fmt_720
  else fmt_720.

(** The copy in [handleVideoDownload], server.js lines 470-493. *)
Definition formatSelector_handleVideoDownload (quality : jsstring) : jsstring :=
  if quality_is quality "360p" || quality_is quality "240p" || quality_is quality "144p"
  then fmt_combined_360
  else if quality_is quality "4k" then fmt_2160
  else if quality_is quality "1440p" then fmt_1440
  else if quality_is quality "1080p" then fmt_1080
  else if quality_is quality "720p" then fmt_720
  else if quality_is quality "480p" then fmt_480
  else if quality_is quality "highest" then fmt_720
  else fmt_720.

(** The copy in [handlePlaylistDownload], server.js lines 702-725. *)
Definition formatSelector_handlePlaylistDownload (quality : jsstring) : jsstring :=
  if quality_is quality "360p" || quality_is quality "240p" || quality_is quality "144p"
  then fmt_combined_360
  else if quality_is quality "4k" then fmt_2160
  else if quality_is quality "1440p" then fmt_1440
  else if quality_is quality "1080p" then fmt_1080
  else if quality_is quality "720p" then fmt_720
  else if quality_is quality "480p" then fmt_480
  else if quality_is quality "highest" then fmt_720
  else fmt_720.

Definition height_chain (h : string) : jsstring :=
  js "bestvideo[height<=" ++ js h ++ js "][ext=mp4]+bestaudio[ext=m4a]/bestvideo[height<="
  ++ js h ++ js "]+bestaudio/best[height<=" ++ js h ++ js "]".

(** The mapping of the [/api/download/playlist] route, server.js lines
    818-825: a different table with a different default. *)
Definition formatSelector_playlistRoute (quality : jsstring) : jsstring :=
  if quality_is quality "4k" then height_chain "2160"
  else if quality_is quality "1440p" then height_chain "1440"
  else if quality_is quality "1080p" then height_chain "1080"
  else if quality_is quality "720p" then height_chain "720"
  else if quality_is quality "480p" then height_chain "480"
  else if quality_is quality "360p" then height_chain "360"
  else if quality_is quality "highest"
       then js "bestvideo[ext=mp4]+bestaudio[ext=m4a]/bestvideo+bestaudio/best"
  else js "best[ext=mp4]/best".

(** The selectors the single-item handlers recognise. *)
Definition recognized : list jsstring :=
  List.map js ["144p"; "240p"; "360p"; "480p"; "720p"; "1080p"; "1440p"; "4k";
               "highest"]%string.

(** The selectors the [/api/download/playlist] route recognises. *)
Definition recognized_playlistRoute : list jsstring :=
  List.map js ["4k"; "1440p"; "1080p"; "720p"; "480p"; "360p"; "highest"]%string.

End Quality.
Export Quality.

(** ** Directory listings and the cleanup passes *)

Module Fs.

(** An entry of a directory listing, a regular file or a sub-directory:
    its name, the size in bytes [fs.statSync(...).size] reports for it and
    what [isDirectory()] says of it. *)
Record file := { fname : jsstring; fsize : Z; isDirectory : bool }.

Abbreviation directory := (list file).

Definition has_name (n : jsstring) (f : file) : bool := jsstring_eqb (fname f) n.

(** [fs.readdirSync(dir)] on an existing directory. *)
Definition readdir (d : directory) : list jsstring := List.map fname d.

Definition enoent (syscall n : jsstring) : jsstring :=
  js "ENOENT: no such file or directory, " ++ syscall ++ js " '" ++ n ++ js "'".

Definition eisdir (n : jsstring) : jsstring :=
  js "EISDIR: illegal operation on a directory, unlink '" ++ n ++ js "'".

(** The regular file of the listing that bears the name [n]. *)
Definition regular_named (n : jsstring) (f : file) : bool :=
  has_name n f && negb (isDirectory f).

(** [fs.unlinkSync(path.join(dir, n))]: removes the regular file [n]; on
    the name of a sub-directory it fails with EISDIR and on a name that
    nothing bears with ENOENT, and the directory stays as it is. *)
Definition unlinkSync (n : jsstring) (d : directory) : result directory :=
  if existsb (regular_named n) d
  then Return (List.filter (fun f => negb (regular_named n f)) d)
  else if existsb (has_name n) d then Throw (eisdir n)
  else Throw (enoent (js "unlink") n).

(** [fs.statSync(path.join(dir, n)).size] *)
Definition statSync_size (n : jsstring) (d : directory) : result Z :=
  match List.find (has_name n) d with
  | Some f => Return (fsize f)
  | None => Throw (enoent (js "stat") n)
  end.

(** [try { fs.unlinkSync(...) } catch (e) { console.log(...) }] *)
Definition try_unlink (d : directory) (n : jsstring) : directory :=
  match unlinkSync n d with
  | Return d' => d'
  | Throw _ => d
  end.

(** [names.forEach(n => { try { unlink n } catch ... })] *)
Definition unlink_each (names : list jsstring) (d : directory) : directory :=
  fold_left try_unlink names d.

(** The substring markers of [cleanupTempFiles], in source order. *)
Definition temp_markers : list jsstring :=
  List.map js [".temp"; ".part"; ".webm"; ".m4a"; ".f140"; ".f313"; ".f401";
               ".f137"; ".f136"; ".f135"; ".f244"; ".f247"; ".f248"; ".f271";
               ".f398"; ".f399"; ".f400"]%string.

Definition mp4 : jsstring := js ".mp4".

(** The filter predicate of [cleanupTempFiles], server.js lines 309-330. *)
Definition is_temp (sanitizedTitle f : jsstring) : bool :=
  includes f sanitizedTitle &&
  (existsb (includes f) temp_markers || (includes f mp4 && negb (endsWith f mp4))).

(** [cleanupTempFiles], server.js lines 306-343, on the listing of the
    downloads directory. *)
Definition cleanupTempFiles (sanitizedTitle : jsstring) (d : directory) : directory :=
  let allFiles := readdir d in
  let tempFiles := List.filter (is_temp sanitizedTitle) allFiles in
  unlink_each tempFiles d.

(** [Array.prototype.sort(cmp)]: a stable sort; [cmp a b <= 0] keeps [a]
    before [b]. *)
Fixpoint insert_by {A} (cmp : A -> A -> Z) (x : A) (l : list A) : list A :=
  match l with
  | [] => [x]
  | y :: l' => if (cmp x y <=? 0)%Z then x :: y :: l' else y :: insert_by cmp x l'
  end.

Fixpoint sort_by {A} (cmp : A -> A -> Z) (l : list A) : list A :=
  match l with
  | [] => []
  | x :: l' => insert_by cmp x (sort_by cmp l')
  end.

(** [(a, b) => b.size - a.size] on [{name, size}] pairs. *)
Definition by_size_desc (a b : jsstring * Z) : Z := (snd b - snd a)%Z.

(** [finalMP4Files.map(file => ({name: file, size: fs.statSync(...).size}))] *)
Fixpoint stat_all (names : list jsstring) (d : directory) : result (list (jsstring * Z)) :=
  match names with
  | [] => Return []
  | n :: names' =>
      match statSync_size n d with
      | Throw m => Throw m
      | Return sz =>
          match stat_all names' d with
          | Throw m => Throw m
          | Return rest => Return ((n, sz) :: rest)
          end
      end
  end.

Definition is_final_mp4 (sanitizedTitle f : jsstring) : bool :=
  startsWith f sanitizedTitle && endsWith f mp4.

Definition is_leftover (sanitizedTitle f : jsstring) : bool :=
  includes f sanitizedTitle && negb (endsWith f mp4).

(** The first half of the final pass: with more than one final MP4, all but
    the first of the size-sorted candidates are unlinked. *)
Definition keep_largest_mp4 (finalMP4Files : list jsstring) (d : directory)
  : result directory :=
  if (1 <? length finalMP4Files)%nat
  then match stat_all finalMP4Files d with
       | Throw m => Throw m
       | Return fileStats =>
           Return (unlink_each (List.map fst (tl (sort_by by_size_desc fileStats))) d)
       end
  else Return d.

(** The final cleanup timer, server.js lines 351-395.  An exception of
    [statSync] leaves through the outer [catch], which only logs. *)
Definition finalCleanup (sanitizedTitle : jsstring) (d : directory) : directory :=
  let allFiles := readdir d in
  let finalMP4Files := List.filter (is_final_mp4 sanitizedTitle) allFiles in
  match keep_largest_mp4 finalMP4Files d with
  | Throw _ => d
  | Return d1 =>
      let remainingFiles := List.filter (is_leftover sanitizedTitle) allFiles in
      unlink_each remainingFiles d1
  end.

(** The cleanup timer of [handlePlaylistDownload], server.js lines 746-766,
    on the listing of the playlist directory. *)
Definition is_playlist_temp (f : jsstring) : bool :=
  includes f (js ".temp") || includes f (js ".part")
  || (includes f (js ".webm") && negb (endsWith f mp4))
  || (includes f (js ".m4a") && negb (endsWith f mp4)).

Definition cleanupPlaylistTemp (d : directory) : directory :=
  unlink_each (List.filter is_playlist_temp (readdir d)) d.

End Fs.
Export Fs.

(** ** The world the server runs in *)

Module World.

(** The options object passed to [exec]; [None] is an option left out. *)
Record exec_options := { maxBuffer : option Z; timeout : option Z }.

Record invocation := { command : jsstring; options : exec_options }.

Inductive stdio := Stdout | Stderr.

(** How a spawned command ends, as Node's [exec] reports it: exit code 0
    with the captured output; output beyond [maxBuffer] (the child is
    killed); any other failure (non-zero exit, signal, [timeout] option). *)
Inductive exec_outcome :=
| Exited (stdout stderr : jsstring)
| MaxBufferExceeded (which : stdio)
| CommandFailed (stderr : jsstring).

Definition stdio_name (s : stdio) : jsstring :=
  match s with Stdout => js "stdout" | Stderr => js "stderr" end.

(** The [message] of the [error] that [exec] hands to its callback: Node's
    texts for [ERR_CHILD_PROCESS_STDIO_MAXBUFFER] and for a failed
    command; [None] when [error] is [null]. *)
Definition exec_error (cmd : jsstring) (o : exec_outcome) : option jsstring :=
  match o with
  | Exited _ _ => None
  | MaxBufferExceeded s => Some (stdio_name s ++ js " maxBuffer length exceeded")
  | CommandFailed stderr => Some (js "Command failed: " ++ cmd ++ [newline] ++ stderr)
  end.

(** A MetadataEntry: the value stored in [videoInfoCache]. *)
Record cache_entry := { data : jsval; timestamp : Z }.

Record world := {
  videoInfoCache : gmap jsstring cache_entry;  (* the module-level Map *)
  clock : Z;                                   (* what Date.now() reads, in ms *)
  spawned : list invocation;                   (* every command started, newest first *)
  files : gmap jsstring directory              (* directory path to listing *)
}.

(** What the environment answers to an awaited command: its outcome, the
    time it took and what it did to the file system. *)
Record exec_reply := {
  outcome : exec_outcome;
  elapsed : Z;
  writes : gmap jsstring directory -> gmap jsstring directory
}.

(** The runtime outside the repository.  [run_command n inv] is the
    behaviour of the command [inv] when [n] commands were started before
    it. *)
Record runtime := {
  run_command : nat -> invocation -> exec_reply;
  JSON_parse : jsstring -> result jsval;
  downloadsDir : jsstring;
  directory_size : Z          (* the size [statSync] reports for a new directory *)
}.

(** Computations that read and change the world and may throw. *)
Definition M (A : Type) : Type := world -> result A * world.

Definition ret {A} (a : A) : M A := fun w => (Return a, w).

Definition throw {A} (message : jsstring) : M A := fun w => (Throw message, w).

Definition bind {A B} (m : M A) (k : A -> M B) : M B :=
  fun w => match m w with
           | (Return a, w') => k a w'
           | (Throw e, w') => (Throw e, w')
           end.

Definition try_catch {A} (m : M A) (handler : jsstring -> M A) : M A :=
  fun w => match m w with
           | (Return a, w') => (Return a, w')
           | (Throw e, w') => handler e w'
           end.

Definition lift {A} (r : result A) : M A := fun w => (r, w).

Declare Scope js_scope.
Delimit Scope js_scope with js_m.
Notation "x <- m ;; k" := (bind m (fun x => k))
  (at level 100, m at next level, right associativity) : js_scope.
Notation "m ;;; k" := (bind m (fun _ => k))
  (at level 100, right associativity) : js_scope.
Local Open Scope js_scope.

Definition set_cache (c : gmap jsstring cache_entry) (w : world) : world :=
  {| videoInfoCache := c; clock := clock w; spawned := spawned w; files := files w |}.

Definition set_files (f : gmap jsstring directory) (w : world) : world :=
  {| videoInfoCache := videoInfoCache w; clock := clock w; spawned := spawned w;
     files := f |}.

(** [Date.now()] *)
Definition date_now : M Z := fun w => (Return (clock w), w).

(** [videoInfoCache.get(key)] *)
Definition cache_get (key : jsstring) : M (option cache_entry) :=
  fun w => (Return (videoInfoCache w !! key), w).

(** [videoInfoCache.set(key, entry)] *)
Definition cache_set (key : jsstring) (e : cache_entry) : M unit :=
  fun w => (Return tt, set_cache (<[key := e]> (videoInfoCache w)) w).

(** Starting a command: it is recorded, the clock moves by the time it
    runs and its writes reach the file system. *)
Definition start (rt : runtime) (inv : invocation) : M exec_reply :=
  fun w =>
    let r := run_command rt (length (spawned w)) inv in
    (Return r,
     {| videoInfoCache := videoInfoCache w;
        clock := (clock w + elapsed r)%Z;
        spawned := inv :: spawned w;
        files := writes r (files w) |}).

(** [await execPromise(command, options)]: resolves to [{stdout, stderr}]
    or rejects with the error of [exec]. *)
Definition execPromise (rt : runtime) (cmd : jsstring) (o : exec_options)
  : M (jsstring * jsstring) :=
  r <- start rt {| command := cmd; options := o |} ;;
  match outcome r with
  | Exited stdout stderr => ret (stdout, stderr)
  | failure => throw (default [] (exec_error cmd failure))
  end.

(** The number of commands started between two worlds. *)
Definition started_between (w w' : world) : nat :=
  (length (spawned w') - length (spawned w))%nat.

End World.
Export World.

(** ** Metadata lookups *)

Module Metadata.

Local Open Scope js_scope.

(** [CACHE_DURATION = 5 * 60 * 1000] milliseconds. *)
Definition CACHE_DURATION : Z := (5 * 60 * 1000)%Z.

(** [url.includes('playlist') || url.includes('list=')] *)
Definition is_playlist_url (url : jsstring) : bool :=
  includes url (js "playlist") || includes url (js "list=").

(** The cache check of [getVideoInfo], server.js lines 54-60:
    [cachedInfo && (Date.now() - cachedInfo.timestamp) < CACHE_DURATION]. *)
Definition cache_hit (cacheKey : jsstring) : M (option jsval) :=
  cachedInfo <- cache_get cacheKey ;;
  match cachedInfo with
  | None => ret None
  | Some e =>
      now <- date_now ;;
      if (now - timestamp e <? CACHE_DURATION)%Z then ret (Some (data e)) else ret None
  end.

(** [stdout.trim().split('\n').filter(line => line.trim())] *)
Definition nonblank_lines (stdout : jsstring) : list jsstring :=
  List.filter (fun line => nonempty (trim line)) (split_lines (trim stdout)).

(** [!stdout || stdout.trim() === ''] *)
Definition no_output (stdout : jsstring) : bool :=
  negb (nonempty stdout) || jsstring_eqb (trim stdout) [].

Definition playlist_url_error : jsstring :=
  js "This is a playlist URL. Please use the playlist download option instead.".

(** The messages the [catch] block of [getVideoInfo] rethrows. *)
Definition msg_select_playlist : jsstring :=
  js "This is a playlist URL. Please select " ++ quoted (js "Entire Playlist")
  ++ js " as download type.".
Definition msg_video_too_large : jsstring :=
  js "Video info too large. Try a different video or check if it's a very long video.".
Definition msg_video_no_output : jsstring :=
  js "yt-dlp failed to get video information. Please check if the URL is valid.".
Definition msg_video_invalid : jsstring :=
  js "Could not parse video information. The video might be private or unavailable.".
Definition msg_video_json : jsstring :=
  js "Failed to parse video information. The video might be restricted or unavailable.".

(** The [catch] block of [getVideoInfo], server.js lines 126-139. *)
Definition videoInfo_error (message : jsstring) : jsstring :=
  if includes message (js "playlist URL") then msg_select_playlist
  else if includes message (js "maxBuffer") then msg_video_too_large
  else if includes message (js "No output from yt-dlp") then msg_video_no_output
  else if includes message (js "Invalid video info") then msg_video_invalid
  else if includes message (js "JSON") then msg_video_json
  else js "Failed to get video info: " ++ message.

Definition videoInfo_command (url : jsstring) : jsstring :=
  js "yt-dlp --dump-json --no-warnings --no-playlist " ++ quoted url.

Definition videoInfo_options : exec_options :=
  {| maxBuffer := Some (1024 * 1024 * 10)%Z; timeout := Some 30000%Z |}.

(** The [try] block of [getVideoInfo] after a cache miss, server.js lines
    62-117. *)
Definition fetchVideoInfo (rt : runtime) (url : jsstring) : M jsval :=
  if is_playlist_url url then throw playlist_url_error
  else
    out <- execPromise rt (videoInfo_command url) videoInfo_options ;;
    let stdout := fst out in
    if no_output stdout then throw (js "No output from yt-dlp")
    else
      let lines := nonblank_lines stdout in
      info <- (if (1 <? length lines)%nat
               then lift (JSON_parse rt (nth 0 lines []))
               else lift (JSON_parse rt (trim stdout))) ;;
      title <- lift (get_prop info (js "title")) ;;
      if negb (truthy title) then throw (js "Invalid video info - no title found")
      else
        duration <- lift (get_prop info (js "duration")) ;;
        thumbnail <- lift (get_prop info (js "thumbnail")) ;;
        uploader <- lift (get_prop info (js "uploader")) ;;
        view_count <- lift (get_prop info (js "view_count")) ;;
        let videoInfo := JObj [(js "title", title); (js "duration", duration);
                               (js "thumbnail", thumbnail); (js "uploader", uploader);
                               (js "view_count", view_count)] in
        now <- date_now ;;
        cache_set url {| data := videoInfo; timestamp := now |} ;;;
        ret videoInfo.

(** [getVideoInfo], server.js lines 50-141. *)
Definition getVideoInfo (rt : runtime) (url : jsstring) : M jsval :=
  try_catch
    (cached <- cache_hit url ;;
     match cached with
     | Some payload => ret payload
     | None => fetchVideoInfo rt url
     end)
    (fun message => throw (videoInfo_error message)).

(** What [getPlaylistInfo] returns: [{title, entries}]. *)
Record playlistInfo := { title : jsstring; entries : list jsval }.

Definition msg_playlist_too_large : jsstring :=
  js "Playlist too large. Try a smaller playlist or individual videos.".
Definition msg_playlist_no_output : jsstring :=
  js "yt-dlp failed to get playlist information. Please check if the URL is valid.".
Definition msg_playlist_empty : jsstring :=
  js "No videos found in playlist. The playlist might be private or empty.".
Definition msg_playlist_invalid : jsstring :=
  js "Could not parse playlist information. The playlist might be restricted or unavailable.".

(** The [catch] block of [getPlaylistInfo], server.js lines 204-215. *)
Definition playlistInfo_error (message : jsstring) : jsstring :=
  if includes message (js "maxBuffer") then msg_playlist_too_large
  else if includes message (js "No output from yt-dlp") then msg_playlist_no_output
  else if includes message (js "No playlist entries") then msg_playlist_empty
  else if includes message (js "No valid playlist entries") then msg_playlist_invalid
  else js "Failed to get playlist info: " ++ message.

Definition playlistInfo_command (url : jsstring) : jsstring :=
  js "yt-dlp --dump-json --flat-playlist --no-warnings " ++ quoted url.

Definition playlistTitle_command (url : jsstring) : jsstring :=
  js "yt-dlp --get-filename -o " ++ quoted (js "%(playlist_title)s")
  ++ js " --no-warnings " ++ quoted url.

Definition playlistInfo_options : exec_options :=
  {| maxBuffer := Some (1024 * 1024 * 20)%Z; timeout := Some 30000%Z |}.

Definition playlistTitle_options : exec_options :=
  {| maxBuffer := Some (1024 * 1024 * 2)%Z; timeout := Some 15000%Z |}.

(** [lines.map(line => { try { JSON.parse } catch { null } }).filter(e => e !== null)] *)
Definition parse_entries (rt : runtime) (lines : list jsstring) : list jsval :=
  List.filter (fun entry => match entry with JNull => false | _ => true end)
    (List.map (fun line => match JSON_parse rt line with
                           | Return v => v
                           | Throw _ => JNull
                           end) lines).

(** [getPlaylistInfo], server.js lines 144-217. *)
Definition getPlaylistInfo (rt : runtime) (url : jsstring) : M playlistInfo :=
  try_catch
    (out <- execPromise rt (playlistInfo_command url) playlistInfo_options ;;
     let stdout := fst out in
     if no_output stdout then throw (js "No output from yt-dlp for playlist")
     else
       let lines := nonblank_lines stdout in
       if (length lines =? 0)%nat then throw (js "No playlist entries found")
       else
         let entries := parse_entries rt lines in
         if (length entries =? 0)%nat then throw (js "No valid playlist entries found")
         else
           tout <- execPromise rt (playlistTitle_command url) playlistTitle_options ;;
           let playlistTitle := nth 0 (split_lines (trim (fst tout))) [] in
           ret {| title := if nonempty playlistTitle then playlistTitle
                           else js "YouTube Playlist";
                  entries := entries |})
    (fun message => throw (playlistInfo_error message)).

End Metadata.
Export Metadata.

(** ** Request handlers, up to the response or the spawned download *)

Module Handlers.

Local Open Scope js_scope.

(** The JSON body of a request, per the HTTP interface: each field is a
    string or absent ([None], read as [undefined]). *)
Record request_body := {
  url : option jsstring;
  quality : option jsstring;
  type : option jsstring
}.

(** What [res.status(s).json(b)] sends; [res.json(b)] sends status 200. *)
Record response := { status : Z; body : jsval }.

Definition json (b : list (jsstring * jsval)) : response :=
  {| status := 200; body := JObj b |}.

Definition error_json (s : Z) (message : jsstring) : response :=
  {| status := s; body := JObj [(js "error", JStr message)] |}.

(** [res.status(400).json({ error: 'URL is required' })] *)
Definition url_required : response := error_json 400 (js "URL is required").

(** [!url] *)
Definition missing (u : option jsstring) : bool :=
  match u with
  | None => true
  | Some s => negb (nonempty s)
  end.

(** The completion callback a handler hands to [exec]. *)
Inductive on_exit :=
| VideoDone (sanitizedTitle : jsstring)
| AudioDone (sanitizedTitle : jsstring)
| PlaylistDone (sanitizedTitle playlistDir : jsstring) (totalVideos : nat)
| PlaylistRouteDone (sanitizedTitle : jsstring).

(** A download under supervision: the child started with [exec], the
    callback for its completion, and the [setTimeout] that watches it
    (delay in ms and the message it answers), if the handler sets one. *)
Record job := {
  child : invocation;
  callback : on_exit;
  watchdog : option (Z * jsstring)
}.

(** A handler either has answered or has started a download and returned. *)
Inductive handled :=
| Responded (r : response)
| Started (j : job).

(** [exec(command, options, callback)]: the child is started and the
    handler goes on. *)
Definition spawn (inv : invocation) : M unit :=
  fun w => (Return tt,
            {| videoInfoCache := videoInfoCache w; clock := clock w;
               spawned := inv :: spawned w; files := files w |}).

Definition slash : N := 47.

(** [s.split('/')] *)
Fixpoint split_slash (s : jsstring) : list jsstring :=
  match s with
  | [] => [[]]
  | c :: s' =>
      match split_slash s' with
      | [] => [[c]]
      | l :: ls => if c =? slash then [] :: l :: ls else (c :: l) :: ls
      end
  end.

(** [segments.join('/')] *)
Fixpoint join_slash (segments : list jsstring) : jsstring :=
  match segments with
  | [] => []
  | [x] => x
  | x :: rest => x ++ [slash] ++ join_slash rest
  end.

(** Node's [normalizeString] on the segments of a POSIX path: empty
    segments and [.] are dropped, [..] takes back the segment before it,
    or stays when there is none to take back and the path is relative.
    [kept] holds the segments kept so far, the last one first. *)
Fixpoint normalizeString (allowAboveRoot : bool) (segments kept : list jsstring)
  : list jsstring :=
  match segments with
  | [] => rev kept
  | seg :: rest =>
      if jsstring_eqb seg [] || jsstring_eqb seg [dot]
      then normalizeString allowAboveRoot rest kept
      else if jsstring_eqb seg [dot; dot]
      then match kept with
           | last :: before =>
               if jsstring_eqb last [dot; dot]
               then normalizeString allowAboveRoot rest
                      (if allowAboveRoot then seg :: kept else kept)
               else normalizeString allowAboveRoot rest before
           | [] => normalizeString allowAboveRoot rest
                     (if allowAboveRoot then [seg] else [])
           end
      else normalizeString allowAboveRoot rest (seg :: kept)
  end.

(** [path.posix.normalize(p)] *)
Definition path_normalize (p : jsstring) : jsstring :=
  match p with
  | [] => js "."
  | c :: _ =>
      let isAbsolute := c =? slash in
      let trailingSeparator := endsWith p [slash] in
      match join_slash (normalizeString (negb isAbsolute) (split_slash p) []) with
      | [] => if isAbsolute then js "/" else if trailingSeparator then js "./" else js "."
      | path => (if isAbsolute then [slash] else [])
                ++ path ++ (if trailingSeparator then [slash] else [])
      end
  end.

(** [path.join(dir, name)] on POSIX: the arguments that are not empty,
    joined by a slash and normalised. *)
Definition path_join (dir n : jsstring) : jsstring :=
  path_normalize (match dir, n with
                  | [], _ => n
                  | _, [] => dir
                  | _, _ => dir ++ [slash] ++ n
                  end).

(** A name that [path.join] appends to a directory as one segment. *)
Definition plain_segment (n : jsstring) : bool :=
  nonempty n && negb (jsstring_eqb n [dot]) && negb (jsstring_eqb n [dot; dot])
  && negb (existsb (N.eqb slash) n).

(** [fs.existsSync(path.join(parent, name))]: a directory of that path, or
    an entry of that name in the listing of [parent]. *)
Definition existsSync (parent name : jsstring) : M bool :=
  fun w => (Return
              (match files w !! path_join parent name with
               | Some _ => true
               | None =>
                   match files w !! parent with
                   | Some d => plain_segment name && existsb (has_name name) d
                   | None => false
                   end
               end), w).

(** [fs.mkdirSync(path.join(parent, name), { recursive: true })] on a path
    that does not exist: the new directory is empty and its parent lists
    it. *)
Definition mkdirSync (rt : runtime) (parent name : jsstring) : M unit :=
  fun w =>
    let created := <[path_join parent name := []]> (files w) in
    let entry := {| fname := name; fsize := directory_size rt; isDirectory := true |} in
    (Return tt,
     set_files (if plain_segment name
                then <[parent := default [] (files w !! parent) ++ [entry]]> created
                else created) w).

(** [if (!fs.existsSync(dir)) fs.mkdirSync(dir, { recursive: true })] for
    [dir = path.join(parent, name)]. *)
Definition ensure_dir (rt : runtime) (parent name : jsstring) : M unit :=
  bind (existsSync parent name)
       (fun there => if there then ret tt else mkdirSync rt parent name).

(** [sanitizeFilename(info.title)]: [replace] exists on strings only. *)
Definition sanitized_title_of (info : jsval) : M jsstring :=
  t <- lift (get_prop info (js "title")) ;;
  match t with
  | JStr s => ret (sanitizeFilename s)
  | _ => throw (js "filename.replace is not a function")
  end.

Definition videoInfo_json (info : jsval) : response :=
  json [(js "type", JStr (js "video")); (js "data", info)].

Definition playlistInfo_json (p : playlistInfo) : response :=
  json [(js "type", JStr (js "playlist"));
        (js "data", JObj [(js "title", JStr (title p)); (js "entries", JArr (entries p))])].

(** [POST /api/info], server.js lines 220-246. *)
Definition api_info (rt : runtime) (b : request_body) : M handled :=
  try_catch
    (if missing (url b) then ret (Responded url_required)
     else
       let url := default [] (url b) in
       if is_playlist_url url
       then playlistInfo <- getPlaylistInfo rt url ;;
            ret (Responded (playlistInfo_json playlistInfo))
       else videoInfo <- getVideoInfo rt url ;;
            ret (Responded (videoInfo_json videoInfo)))
    (fun message => ret (Responded (error_json 500 message))).

Definition video_command (formatSelector outputPath url : jsstring) : jsstring :=
  js "yt-dlp -f " ++ quoted formatSelector
  ++ js " --merge-output-format mp4 --audio-multistreams --no-keep-video --embed-metadata --add-metadata -o "
  ++ quoted outputPath ++ js " --no-warnings " ++ quoted url.

Definition audio_command (outputPath url : jsstring) : jsstring :=
  js "yt-dlp -f " ++ quoted (js "bestaudio")
  ++ js " --extract-audio --audio-format mp3 --audio-quality 0 -o "
  ++ quoted outputPath ++ js " --no-warnings " ++ quoted url.

Definition playlist_command (formatSelector outputPath url : jsstring) : jsstring :=
  js "yt-dlp -f " ++ quoted formatSelector
  ++ js " --merge-output-format mp4 --audio-multistreams --no-keep-video --embed-metadata --add-metadata --newline --progress-template "
  ++ quoted (js "download:%(progress.downloaded_bytes)s/%(progress.total_bytes)s")
  ++ js " -o " ++ quoted outputPath ++ js " --no-warnings " ++ quoted url.

Definition playlistRoute_command (formatSelector outputPath url : jsstring) : jsstring :=
  js "yt-dlp -f " ++ quoted formatSelector ++ js " --merge-output-format mp4 -o "
  ++ quoted outputPath ++ js " --no-warnings " ++ quoted url.

Definition video_timeout : Z * jsstring :=
  (600000%Z, js "Download timeout after 10 minutes").

Definition playlist_timeout : Z * jsstring :=
  (1800000%Z, js "Playlist download timeout after 30 minutes").

(** [POST /api/download/video], server.js lines 249-432. *)
Definition api_download_video (rt : runtime) (b : request_body) : M handled :=
  try_catch
    (let quality := quality_or_default (quality b) "highest" in
     if missing (url b) then ret (Responded url_required)
     else
       let url := default [] (url b) in
       info <- getVideoInfo rt url ;;
       sanitizedTitle <- sanitized_title_of info ;;
       let filename := sanitizedTitle ++ js ".%(ext)s" in
       let outputPath := path_join (downloadsDir rt) filename in
       let formatSelector := formatSelector_videoRoute quality in
       let command := video_command formatSelector outputPath url in
       let inv := {| command := command;
                     options := {| maxBuffer := Some (1024 * 1024 * 100)%Z;
                                   timeout := None |} |} in
       spawn inv ;;;
       ret (Started {| child := inv; callback := VideoDone sanitizedTitle;
                       watchdog := Some video_timeout |}))
    (fun message => ret (Responded (error_json 500 message))).

(** [handleVideoDownload], server.js lines 459-636. *)
Definition handleVideoDownload (rt : runtime) (b : request_body) : M handled :=
  try_catch
    (let url := default [] (url b) in
     let quality := quality_or_default (quality b) "highest" in
     info <- getVideoInfo rt url ;;
     sanitizedTitle <- sanitized_title_of info ;;
     let filename := sanitizedTitle ++ js ".%(ext)s" in
     let outputPath := path_join (downloadsDir rt) filename in
     let formatSelector := formatSelector_handleVideoDownload quality in
     let command := video_command formatSelector outputPath url in
     let inv := {| command := command;
                   options := {| maxBuffer := Some (1024 * 1024 * 10)%Z;
                                 timeout := None |} |} in
     spawn inv ;;;
     ret (Started {| child := inv; callback := VideoDone sanitizedTitle;
                     watchdog := Some video_timeout |}))
    (fun message => ret (Responded (error_json 500 message))).

Definition no_options : exec_options := {| maxBuffer := None; timeout := None |}.

(** [handleAudioDownload], server.js lines 639-685. *)
Definition handleAudioDownload (rt : runtime) (b : request_body) : M handled :=
  try_catch
    (let url := default [] (url b) in
     info <- getVideoInfo rt url ;;
     sanitizedTitle <- sanitized_title_of info ;;
     let filename := sanitizedTitle ++ js ".%(ext)s" in
     let outputPath := path_join (downloadsDir rt) filename in
     let inv := {| command := audio_command outputPath url; options := no_options |} in
     spawn inv ;;;
     ret (Started {| child := inv; callback := AudioDone sanitizedTitle;
                     watchdog := None |}))
    (fun message => ret (Responded (error_json 500 message))).

(** [handlePlaylistDownload], server.js lines 688-797. *)
Definition handlePlaylistDownload (rt : runtime) (b : request_body) : M handled :=
  try_catch
    (let url := default [] (url b) in
     let quality := quality_or_default (quality b) "highest" in
     playlistInfo <- getPlaylistInfo rt url ;;
     let sanitizedTitle := sanitizeFilename (title playlistInfo) in
     let playlistDir := path_join (downloadsDir rt) sanitizedTitle in
     ensure_dir rt (downloadsDir rt) sanitizedTitle ;;;
     let formatSelector := formatSelector_handlePlaylistDownload quality in
     let outputPath := path_join playlistDir (js "%(title)s.%(ext)s") in
     let inv := {| command := playlist_command formatSelector outputPath url;
                   options := {| maxBuffer := Some (1024 * 1024 * 200)%Z;
                                 timeout := None |} |} in
     spawn inv ;;;
     ret (Started {| child := inv;
                     callback := PlaylistDone sanitizedTitle playlistDir
                                   (length (entries playlistInfo));
                     watchdog := Some playlist_timeout |}))
    (fun message => ret (Responded (error_json 500 message))).

(** [POST /api/download], server.js lines 435-456. *)
Definition api_download (rt : runtime) (b : request_body) : M handled :=
  try_catch
    (let type := quality_or_default (type b) "video" in
     if missing (url b) then ret (Responded url_required)
     else if quality_is type "playlist" then handlePlaylistDownload rt b
     else if quality_is type "audio" then handleAudioDownload rt b
     else handleVideoDownload rt b)
    (fun message => ret (Responded (error_json 500 message))).

(** [POST /api/download/playlist], server.js lines 800-855. *)
Definition api_download_playlist (rt : runtime) (b : request_body) : M handled :=
  try_catch
    (let quality := quality_or_default (quality b) "best" in
     if missing (url b) then ret (Responded url_required)
     else
       let url := default [] (url b) in
       playlistInfo <- getPlaylistInfo rt url ;;
       let sanitizedTitle := sanitizeFilename (title playlistInfo) in
       let playlistDir := path_join (downloadsDir rt) sanitizedTitle in
       ensure_dir rt (downloadsDir rt) sanitizedTitle ;;;
       let formatSelector := formatSelector_playlistRoute quality in
       let outputPath := path_join playlistDir (js "%(title)s.%(ext)s") in
       let inv := {| command := playlistRoute_command formatSelector outputPath url;
                     options := no_options |} in
       spawn inv ;;;
       ret (Started {| child := inv; callback := PlaylistRouteDone sanitizedTitle;
                       watchdog := None |}))
    (fun message => ret (Responded (error_json 500 message))).

(** [POST /api/download/audio], server.js lines 858-908. *)
Definition api_download_audio (rt : runtime) (b : request_body) : M handled :=
  try_catch
    (if missing (url b) then ret (Responded url_required)
     else
       let url := default [] (url b) in
       info <- getVideoInfo rt url ;;
       sanitizedTitle <- sanitized_title_of info ;;
       let filename := sanitizedTitle ++ js ".%(ext)s" in
       let outputPath := path_join (downloadsDir rt) filename in
       let inv := {| command := audio_command outputPath url; options := no_options |} in
       spawn inv ;;;
       ret (Started {| child := inv; callback := AudioDone sanitizedTitle;
                       watchdog := None |}))
    (fun message => ret (Responded (error_json 500 message))).

(** [line.trim().split(/\s+/)] on a line that has a non-blank character:
    the maximal runs of non-blank characters. *)
Fixpoint split_ws (s : jsstring) : list jsstring :=
  match s with
  | [] => [[]]
  | c :: s' =>
      let r := split_ws s' in
      if is_space c
      then match r with
           | [] :: _ => r
           | _ => [] :: r
           end
      else match r with
           | t :: ts => (c :: t) :: ts
           | [] => [[c]]
           end
  end.

Definition is_digit (c : N) : bool := (48 <=? c) && (c <=? 57).

(** [line.match(/^\d+/) && (line.includes('mp4') || ...)], server.js
    lines 937-939. *)
Definition is_format_line (line : jsstring) : bool :=
  match line with
  | c :: _ => is_digit c
  | [] => false
  end
  && (includes line (js "mp4") || includes line (js "webm") || includes line (js "m4a")).

Definition opt_str (o : option jsstring) : jsval :=
  match o with Some s => JStr s | None => JUndefined end.

(** One element of [parsedFormats], server.js lines 941-955. *)
Definition parse_format (line : jsstring) : jsval :=
  let parts := split_ws (trim line) in
  JObj [(js "formatId", opt_str (parts !! 0%nat));
        (js "ext", opt_str (parts !! 1%nat));
        (js "resolution", js_or (opt_str (parts !! 2%nat)) (JStr (js "audio only")));
        (js "hasAudio", JBool (includes line (js "audio only")
                               || negb (includes line (js "video only"))));
        (js "fullLine", JStr (trim line))].

Definition format_row (q c k : string) : jsval :=
  JObj [(js "quality", JStr (js q)); (js "container", JStr (js c));
        (js "codecs", JStr (js k))].

(** The fixed [formats] table, server.js lines 958-966. *)
Definition standard_formats : jsval :=
  JArr [format_row "Highest Quality" "best" "best available with audio";
        format_row "4K (2160p)" "mp4" "video+audio merged";
        format_row "1440p (2K)" "mp4" "video+audio merged";
        format_row "1080p (Full HD)" "mp4" "video+audio merged";
        format_row "720p (HD)" "mp4" "video+audio merged";
        format_row "480p" "mp4" "video+audio merged";
        format_row "360p" "mp4" "video+audio (guaranteed)"].

(** [POST /api/formats], server.js lines 920-977. *)
Definition api_formats (rt : runtime) (b : request_body) : M handled :=
  try_catch
    (if missing (url b) then ret (Responded url_required)
     else
       let url := default [] (url b) in
       let command := js "yt-dlp -F --no-warnings " ++ quoted url in
       out <- execPromise rt command no_options ;;
       let stdout := fst out in
       let formatLines := List.filter is_format_line (split_lines stdout) in
       ret (Responded (json [(js "formats", standard_formats);
                             (js "availableFormats", JArr (List.map parse_format formatLines));
                             (js "rawOutput", JStr stdout)])))
    (fun message => ret (Responded (error_json 500 message))).

(** The endpoints that take a target URL. *)
Inductive endpoint :=
| ApiInfo
| ApiDownloadVideo
| ApiDownload
| ApiDownloadPlaylist
| ApiDownloadAudio
| ApiFormats.

Definition handle (rt : runtime) (ep : endpoint) (b : request_body) : M handled :=
  match ep with
  | ApiInfo => api_info rt b
  | ApiDownloadVideo => api_download_video rt b
  | ApiDownload => api_download rt b
  | ApiDownloadPlaylist => api_download_playlist rt b
  | ApiDownloadAudio => api_download_audio rt b
  | ApiFormats => api_formats rt b
  end.

End Handlers.
Export Handlers.

(** ** Supervision of a spawned download *)

Module Supervisor.

Local Open Scope js_scope.

(** The child process: running, sent SIGTERM by [childProcess.kill()], or
    gone (its exit has been delivered to the [exec] callback). *)
Inductive child_status := Running | Signalled | Gone.

(** The timers a completion callback sets. *)
Inductive task :=
| CleanupTempFiles (sanitizedTitle : jsstring)
| FinalCleanup (sanitizedTitle : jsstring)
| CleanupPlaylistDir (playlistDir : jsstring).

(** A request whose download is under way: the child, the flag
    [childProcess.killed], the response written so far ([res.headersSent]
    holds once there is one), the cleanup timers with their due time, and
    the message of an exception that left a callback uncaught (Node then
    prints it and the server process exits). *)
Record supervised := {
  child_state : child_status;
  killed : bool;
  sent : option response;
  timers : list (Z * task);
  uncaught : option jsstring
}.

Definition headersSent (s : supervised) : bool :=
  match sent s with Some _ => true | None => false end.

Definition fresh : supervised :=
  {| child_state := Running; killed := false; sent := None; timers := [];
     uncaught := None |}.

(** [if (!res.headersSent) { res.status(..).json(..) }] *)
Definition respond_unless_sent (r : response) (s : supervised) : supervised :=
  if headersSent s then s
  else {| child_state := child_state s; killed := killed s; sent := Some r;
          timers := timers s; uncaught := uncaught s |}.

(** [setTimeout(task, delay)] *)
Definition set_timer (due : Z) (t : task) (s : supervised) : supervised :=
  {| child_state := child_state s; killed := killed s; sent := sent s;
     timers := timers s ++ [(due, t)]; uncaught := uncaught s |}.

(** [childProcess.kill()]: SIGTERM is sent to a running child, the process
    [exec] spawned, and [killed] is set; whether and when that process
    ends is not the caller's to see.  On a child that is gone nothing
    happens. *)
Definition kill (s : supervised) : supervised :=
  match child_state s with
  | Running => {| child_state := Signalled; killed := true; sent := sent s;
                  timers := timers s; uncaught := uncaught s |}
  | Signalled | Gone => s
  end.

(** [exec] kills the child itself when its output exceeds [maxBuffer]. *)
Definition overflowed (o : exec_outcome) : bool :=
  match o with MaxBufferExceeded _ => true | _ => false end.

(** The child has ended with the outcome [o]. *)
Definition exited (o : exec_outcome) (s : supervised) : supervised :=
  {| child_state := Gone; killed := killed s || overflowed o; sent := sent s;
     timers := timers s; uncaught := uncaught s |}.

Definition crashed (message : jsstring) (s : supervised) : supervised :=
  {| child_state := child_state s; killed := killed s; sent := sent s;
     timers := timers s; uncaught := Some message |}.

(** [fs.readdirSync(dir)] *)
Definition readdirSync (dir : jsstring) : M (list jsstring) :=
  fun w => match files w !! dir with
           | Some d => (Return (readdir d), w)
           | None => (Throw (enoent (js "scandir") dir), w)
           end.

Definition decimal (n : nat) : jsstring := js (NilEmpty.string_of_uint (Nat.to_uint n)).

Definition download_json (f : jsstring) (with_message : bool) : response :=
  json ([(js "success", JBool true); (js "filename", JStr f);
         (js "downloadUrl", JStr (js "/downloads/" ++ f))]
        ++ if with_message
           then [(js "message", JStr (js "Successfully downloaded: " ++ f))]
           else []).

(** The [exec] callback of the video handlers, server.js lines 296-416 and
    500-620; [error] is the message of the callback's [error] argument. *)
Definition on_video_exit (rt : runtime) (sanitizedTitle : jsstring)
    (error : option jsstring) (s : supervised) : M supervised :=
  match error with
  | Some message =>
      ret (respond_unless_sent (error_json 500 (js "Download failed: " ++ message)) s)
  | None =>
      now <- date_now ;;
      let s := set_timer (now + 3000) (CleanupTempFiles sanitizedTitle) s in
      let s := set_timer (now + 5000) (CleanupTempFiles sanitizedTitle) s in
      let s := set_timer (now + 8000) (CleanupTempFiles sanitizedTitle) s in
      let s := set_timer (now + 10000) (FinalCleanup sanitizedTitle) s in
      allFiles <- readdirSync (downloadsDir rt) ;;
      match List.filter (is_final_mp4 sanitizedTitle) allFiles with
      | f :: _ => ret (respond_unless_sent (download_json f true) s)
      | [] => ret (respond_unless_sent
                     (error_json 500 (js "Download completed but MP4 file not found")) s)
      end
  end.

(** The [exec] callback of the audio handlers, server.js lines 652-679 and
    875-902. *)
Definition on_audio_exit (rt : runtime) (sanitizedTitle : jsstring)
    (error : option jsstring) (s : supervised) : M supervised :=
  match error with
  | Some _ => ret (respond_unless_sent (error_json 500 (js "Audio download failed")) s)
  | None =>
      allFiles <- readdirSync (downloadsDir rt) ;;
      match List.filter (fun f => startsWith f sanitizedTitle && endsWith f (js ".mp3"))
                        allFiles with
      | f :: _ => ret (respond_unless_sent (download_json f false) s)
      | [] => ret (respond_unless_sent
                     (error_json 500 (js "Audio download completed but file not found")) s)
      end
  end.

(** The [exec] callback of [handlePlaylistDownload], server.js lines
    736-781. *)
Definition on_playlist_exit (sanitizedTitle playlistDir : jsstring) (totalVideos : nat)
    (error : option jsstring) (s : supervised) : M supervised :=
  match error with
  | Some message =>
      ret (respond_unless_sent
             (error_json 500 (js "Playlist download failed: " ++ message)) s)
  | None =>
      now <- date_now ;;
      let s := set_timer (now + 5000) (CleanupPlaylistDir playlistDir) s in
      allFiles <- readdirSync playlistDir ;;
      let downloadedFiles := List.filter (fun f => endsWith f mp4) allFiles in
      ret (respond_unless_sent
             (json [(js "success", JBool true);
                    (js "message", JStr (js "Playlist download completed! Downloaded "
                                         ++ decimal (length downloadedFiles)
                                         ++ js " videos."));
                    (js "folder", JStr sanitizedTitle);
                    (js "totalVideos", JNum (Z.of_nat totalVideos));
                    (js "downloadedVideos", JNum (Z.of_nat (length downloadedFiles)));
                    (js "folderPath", JStr playlistDir)]) s)
  end.

(** The [exec] callback of [POST /api/download/playlist], server.js lines
    833-849. *)
Definition on_playlistRoute_exit (sanitizedTitle : jsstring)
    (error : option jsstring) (s : supervised) : M supervised :=
  match error with
  | Some _ => ret (respond_unless_sent (error_json 500 (js "Playlist download failed")) s)
  | None =>
      ret (respond_unless_sent
             (json [(js "success", JBool true);
                    (js "message", JStr (js "Playlist download completed"));
                    (js "folder", JStr sanitizedTitle)]) s)
  end.

(** The child's exit reaches the callback the handler registered.  The
    callback runs outside every [try] of the handler: an exception that
    leaves it is uncaught. *)
Definition on_child_exit (rt : runtime) (j : job) (o : exec_outcome) (s : supervised)
  : M supervised :=
  let error := exec_error (command (child j)) o in
  let s := exited o s in
  try_catch
    match callback j with
    | VideoDone t => on_video_exit rt t error s
    | AudioDone t => on_audio_exit rt t error s
    | PlaylistDone t dir n => on_playlist_exit t dir n error s
    | PlaylistRouteDone t => on_playlistRoute_exit t error s
    end
    (fun message => ret (crashed message s)).

(** The timeout timer, server.js lines 419-426, 623-630 and 784-791. *)
Definition on_timeout (message : jsstring) (s : supervised) : supervised :=
  if negb (killed s)
  then respond_unless_sent (error_json 500 message) (kill s)
  else s.

(** How the child behaves: after how long it exits when left alone
    ([None]: it runs until signalled) and with what outcome and files;
    what it has written when the timer fires; and what the [exec] callback
    is handed after [kill()], if it is called at all ([None]: it is not,
    as when SIGTERM ends the shell [exec] spawned and the command goes on
    and keeps the output streams open). *)
Record child_behaviour := {
  exits_after : option Z;
  exit_outcome : exec_outcome;
  exit_writes : gmap jsstring directory -> gmap jsstring directory;
  killed_exit : option exec_outcome;
  killed_writes : gmap jsstring directory -> gmap jsstring directory
}.

(** Time passes while the handler is suspended; the child writes. *)
Definition pass (dt : Z) (f : gmap jsstring directory -> gmap jsstring directory) : M unit :=
  fun w => (Return tt,
            {| videoInfoCache := videoInfoCache w; clock := (clock w + dt)%Z;
               spawned := spawned w; files := f (files w) |}).

(** The timer fires while the child runs: [kill()], then the [exec]
    callback, when the child's end reaches it. *)
Definition timeout_then_exit (rt : runtime) (j : job) (cb : child_behaviour)
    (after : Z) (message : jsstring) : M supervised :=
  pass after (killed_writes cb) ;;;
  let s := on_timeout message fresh in
  match killed_exit cb with
  | Some o => on_child_exit rt j o s
  | None => ret s
  end.

(** The child exits first; the timer, if any, fires later, unless an
    uncaught exception has ended the server. *)
Definition exit_then_timeout (rt : runtime) (j : job) (cb : child_behaviour)
    (lifetime : Z) : M supervised :=
  pass lifetime (exit_writes cb) ;;;
  s <- on_child_exit rt j (exit_outcome cb) fresh ;;
  match watchdog j, uncaught s with
  | Some (after, message), None =>
      pass (after - lifetime) (fun f => f) ;;;
      ret (on_timeout message s)
  | _, _ => ret s
  end.

(** The events of a started download in the order the event loop
    delivers them. *)
Definition supervise (rt : runtime) (j : job) (cb : child_behaviour) : M supervised :=
  match watchdog j, exits_after cb with
  | Some (after, message), Some lifetime =>
      if (after <? lifetime)%Z
      then timeout_then_exit rt j cb after message
      else exit_then_timeout rt j cb lifetime
  | Some (after, message), None => timeout_then_exit rt j cb after message
  | None, Some lifetime => exit_then_timeout rt j cb lifetime
  | None, None => ret fresh
  end.

(** A cleanup timer fires.  A missing directory makes [readdirSync] throw
    into the pass's own [catch]. *)
Definition in_directory (dir : jsstring) (f : directory -> directory) : M unit :=
  fun w => match files w !! dir with
           | Some d => (Return tt, set_files (<[dir := f d]> (files w)) w)
           | None => (Return tt, w)
           end.

Definition run_task (rt : runtime) (t : task) : M unit :=
  match t with
  | CleanupTempFiles title => in_directory (downloadsDir rt) (cleanupTempFiles title)
  | FinalCleanup title => in_directory (downloadsDir rt) (finalCleanup title)
  | CleanupPlaylistDir dir => in_directory dir cleanupPlaylistTemp
  end.

(** A request from its arrival to the last event of its download. *)
Definition serve (rt : runtime) (ep : endpoint) (b : request_body) (cb : child_behaviour)
  : M (option response * option supervised) :=
  h <- handle rt ep b ;;
  match h with
  | Responded r => ret (Some r, None)
  | Started j => s <- supervise rt j cb ;; ret (sent s, Some s)
  end.

End Supervisor.
Export Supervisor.

(** ** Notions used in the statements *)

Module Scenarios.

(** The file [f] bears one of [names]. *)
Definition named_in (names : list jsstring) (f : file) : bool :=
  existsb (fun n => has_name n f) names.

(** The size [statSync] reports for the entry named [n]. *)
Definition size_of (n : jsstring) (d : directory) : Z :=
  match List.find (has_name n) d with
  | Some f => fsize f
  | None => 0%Z
  end.

(** The candidate the final pass keeps when there are several: the first
    of the names that start with the title and end in [.mp4], sorted by
    size. *)
Definition largest_mp4 (t : jsstring) (d : directory) : option jsstring :=
  match sort_by by_size_desc
          (List.map (fun n => (n, size_of n d))
                    (List.filter (is_final_mp4 t) (readdir d))) with
  | [] => None
  | (n, _) :: _ => Some n
  end.

(** What the final pass leaves of a listing with distinct names: the
    sub-directories, the candidate it keeps, and every other entry whose
    name does not contain the title. *)
Definition final_keeps (t : jsstring) (d : directory) (f : file) : bool :=
  isDirectory f
  || (if is_final_mp4 t (fname f)
      then bool_decide (largest_mp4 t d = Some (fname f))
      else negb (is_leftover t (fname f))).

(** A downloads directory after a merge: two intermediate streams, the
    merged file and an unrelated file. *)
Definition sample_dir : directory :=
  [ {| fname := js "title.webm"; fsize := 700; isDirectory := false |};
    {| fname := js "title.f140.m4a"; fsize := 300; isDirectory := false |};
    {| fname := js "title.mp4"; fsize := 1000; isDirectory := false |};
    {| fname := js "notes.txt"; fsize := 5; isDirectory := false |} ].

(** The same title with a stale MP4 beside the merged one. *)
Definition stale_dir : directory :=
  [ {| fname := js "title.f137.mp4"; fsize := 700; isDirectory := false |};
    {| fname := js "title.mp4"; fsize := 1000; isDirectory := false |};
    {| fname := js "title.webm"; fsize := 300; isDirectory := false |};
    {| fname := js "notes.txt"; fsize := 5; isDirectory := false |} ].

(** The directory of the example among entries that bear the title
    elsewhere in their name: a text file and a folder. *)
Definition titled_dir : directory :=
  [ {| fname := js "my title.txt"; fsize := 12; isDirectory := false |};
    {| fname := js "old title"; fsize := 4096; isDirectory := true |};
    {| fname := js "title.f140.m4a"; fsize := 300; isDirectory := false |};
    {| fname := js "title.mp4"; fsize := 1000; isDirectory := false |};
    {| fname := js "title.webm"; fsize := 700; isDirectory := false |};
    {| fname := js "notes.txt"; fsize := 5; isDirectory := false |} ].

(** A downloads directory that holds the folder of a playlist named like
    the video, a folder with a marker in its name, a stale MP4 and the
    merged file. *)
Definition mix_dir : directory :=
  [ {| fname := js "My_mix"; fsize := 4096; isDirectory := true |};
    {| fname := js "My_mix.part"; fsize := 4096; isDirectory := true |};
    {| fname := js "My_mix.f137.mp4"; fsize := 700; isDirectory := false |};
    {| fname := js "My_mix.mp4"; fsize := 1000; isDirectory := false |} ].

(** What the cache check of [getVideoInfo] finds for [url] in [w]. *)
Definition cached (w : world) (url : jsstring) : option jsval :=
  match videoInfoCache w !! url with
  | Some e => if (clock w - timestamp e <? CACHE_DURATION)%Z then Some (data e) else None
  | None => None
  end.

(** [info.k] once [info.title] has been read without a [TypeError]. *)
Definition prop_or_undefined (info : jsval) (k : jsstring) : jsval :=
  match get_prop info k with
  | Return v => v
  | Throw _ => JUndefined
  end.

(** The payload [getVideoInfo] builds from the output of yt-dlp, or the
    exception it throws on the way. *)
Definition videoInfo_of (rt : runtime) (stdout : jsstring) : result jsval :=
  if no_output stdout then Throw (js "No output from yt-dlp")
  else
    let lines := nonblank_lines stdout in
    match (if (1 <? length lines)%nat then JSON_parse rt (nth 0 lines [])
           else JSON_parse rt (trim stdout)) with
    | Throw m => Throw m
    | Return info =>
        match get_prop info (js "title") with
        | Throw m => Throw m
        | Return title =>
            if negb (truthy title) then Throw (js "Invalid video info - no title found")
            else Return (JObj [(js "title", title);
                               (js "duration", prop_or_undefined info (js "duration"));
                               (js "thumbnail", prop_or_undefined info (js "thumbnail"));
                               (js "uploader", prop_or_undefined info (js "uploader"));
                               (js "view_count", prop_or_undefined info (js "view_count"))])
        end
    end.

(** The world once the command [inv] has run. *)
Definition after_command (rt : runtime) (inv : invocation) (w : world) : world :=
  let r := run_command rt (length (spawned w)) inv in
  {| videoInfoCache := videoInfoCache w;
     clock := (clock w + elapsed r)%Z;
     spawned := inv :: spawned w;
     files := writes r (files w) |}.

Definition videoInfo_invocation (url : jsstring) : invocation :=
  {| command := videoInfo_command url; options := videoInfo_options |}.

(** No key of the cache is a playlist URL. *)
Definition playlist_free (w : world) : Prop :=
  forall k e, videoInfoCache w !! k = Some e -> is_playlist_url k = false.

(** The entries the cache holds for [key]. *)
Definition entries_for (key : jsstring) (w : world) : list (jsstring * cache_entry) :=
  List.filter (fun p => jsstring_eqb (fst p) key) (map_to_list (videoInfoCache w)).

(** A run of metadata lookups, each at its own time. *)
Fixpoint lookups (rt : runtime) (calls : list (jsstring * Z)) (w : world) : world :=
  match calls with
  | [] => w
  | (url, at_time) :: calls' =>
      let w := {| videoInfoCache := videoInfoCache w; clock := at_time;
                  spawned := spawned w; files := files w |} in
      lookups rt calls' (snd (getVideoInfo rt url w))
  end.

(** A server that has just started, at time [t]. *)
Definition boot (t : Z) : world :=
  {| videoInfoCache := ∅; clock := t; spawned := []; files := ∅ |}.

(** The line yt-dlp prints for the sample video, and the object it
    denotes. *)
Definition sample_json : jsstring :=
  js "{" ++ quoted (js "title") ++ js ": " ++ quoted (js "My video") ++ js ", "
  ++ quoted (js "duration") ++ js ": 212}".

Definition sample_info : jsval :=
  JObj [(js "title", JStr (js "My video")); (js "duration", JNum 212)].

(** A runtime in which yt-dlp answers that line and [JSON.parse] reads
    it. *)
Definition rt_ok : runtime :=
  {| run_command := fun _ _ =>
       {| outcome := Exited (sample_json ++ [newline]) [];
          elapsed := 1200; writes := fun f => f |};
     JSON_parse := fun s =>
       if jsstring_eqb s sample_json then Return sample_info
       else Throw (js "Unexpected token in JSON at position 0");
     downloadsDir := js "/home/user/Downloads"; directory_size := 4096 |}.

(** A runtime in which every command fails. *)
Definition rt_fail : runtime :=
  {| run_command := fun _ _ =>
       {| outcome := CommandFailed (js "ERROR: Video unavailable");
          elapsed := 900; writes := fun f => f |};
     JSON_parse := fun _ => Throw (js "Unexpected end of JSON input");
     downloadsDir := js "/home/user/Downloads"; directory_size := 4096 |}.

(** A runtime in which every command overflows its output buffer. *)
Definition rt_overflow : runtime :=
  {| run_command := fun _ _ =>
       {| outcome := MaxBufferExceeded Stdout; elapsed := 2000; writes := fun f => f |};
     JSON_parse := fun _ => Throw (js "Unexpected end of JSON input");
     downloadsDir := js "/home/user/Downloads"; directory_size := 4096 |}.

Definition video_url : jsstring := js "https://www.youtube.com/watch?v=abc123".

Definition collection_url : jsstring :=
  js "https://www.youtube.com/watch?v=abc123&list=PL42".

Definition at_time (t : Z) (w : world) : world :=
  {| videoInfoCache := videoInfoCache w; clock := t; spawned := spawned w;
     files := files w |}.

(** A world whose only cache entry, for [video_url], was stored at time 0;
    the clock reads [t]. *)
Definition with_old_entry (t : Z) : world :=
  {| videoInfoCache := {[ video_url := {| data := JObj [(js "title", JStr (js "Old title"))];
                                          timestamp := 0 |} ]};
     clock := t; spawned := []; files := ∅ |}.

(** A computation keeps the cache free of playlist keys. *)
Definition keeps_playlist_free {A} (m : M A) : Prop :=
  forall w r w', playlist_free w -> m w = (r, w') -> playlist_free w'.

(** A computation does not write to the cache. *)
Definition cache_untouched {A} (m : M A) : Prop :=
  forall w r w', m w = (r, w') -> videoInfoCache w' = videoInfoCache w.

(** A request body without the [url] field. *)
Definition body_without_url : request_body :=
  {| url := None; quality := Some (js "720p"); type := None |}.

Definition all_endpoints : list endpoint :=
  [ApiInfo; ApiDownloadVideo; ApiDownload; ApiDownloadPlaylist; ApiDownloadAudio;
   ApiFormats].

(** The error text a completion callback answers for a failed child whose
    [error.message] is [m]. *)
Definition failure_message (cb : on_exit) (m : jsstring) : jsstring :=
  match cb with
  | VideoDone _ => js "Download failed: " ++ m
  | AudioDone _ => js "Audio download failed"
  | PlaylistDone _ _ _ => js "Playlist download failed: " ++ m
  | PlaylistRouteDone _ => js "Playlist download failed"
  end.

Definition playlistInfo_invocation (url : jsstring) : invocation :=
  {| command := playlistInfo_command url; options := playlistInfo_options |}.

Definition body_with (u : jsstring) : request_body :=
  {| url := Some u; quality := None; type := None |}.

(** A download that overflows its buffer after five seconds, and one that
    exits with an error after five seconds. *)
Definition child_overflows : child_behaviour :=
  {| exits_after := Some 5000%Z; exit_outcome := MaxBufferExceeded Stdout;
     exit_writes := fun f => f; killed_exit := None; killed_writes := fun f => f |}.

Definition child_fails : child_behaviour :=
  {| exits_after := Some 5000%Z;
     exit_outcome := CommandFailed (js "ERROR: unable to download video data");
     exit_writes := fun f => f; killed_exit := None; killed_writes := fun f => f |}.

(** A download that never exits by itself and ends when signalled. *)
Definition child_hangs : child_behaviour :=
  {| exits_after := None; exit_outcome := CommandFailed [];
     exit_writes := fun f => f; killed_exit := Some (CommandFailed (js "interrupted"));
     killed_writes := fun f => f |}.

(** A download that exits without error after 42 seconds and writes
    nothing. *)
Definition child_exits_quietly : child_behaviour :=
  {| exits_after := Some 42000%Z; exit_outcome := Exited [] [];
     exit_writes := fun f => f; killed_exit := None; killed_writes := fun f => f |}.

(** A download that never exits by itself and whose end after [kill()]
    never reaches the callback. *)
Definition child_outlives_kill : child_behaviour :=
  {| exits_after := None; exit_outcome := CommandFailed [];
     exit_writes := fun f => f; killed_exit := None; killed_writes := fun f => f |}.

(** The response a served request ended with. *)
Definition answer (r : result (option response * option supervised) * world)
  : option response :=
  match fst r with
  | Return (a, _) => a
  | Throw _ => None
  end.

(** The timeout timer each endpoint sets for the download it starts:
    read off the handlers, to state what [handle] returns. *)
Definition configured_watchdog (ep : endpoint) (b : request_body) : option (Z * jsstring) :=
  match ep with
  | ApiDownloadVideo => Some video_timeout
  | ApiDownload =>
      let type := quality_or_default (type b) "video" in
      if quality_is type "playlist" then Some playlist_timeout
      else if quality_is type "audio" then None
      else Some video_timeout
  | ApiInfo | ApiDownloadPlaylist | ApiDownloadAudio | ApiFormats => None
  end.

(** Every value a computation returns satisfies [P]. *)
Definition returns {A} (P : A -> Prop) (m : M A) : Prop :=
  forall w a w', m w = (Return a, w') -> P a.

Definition watched_by (t : option (Z * jsstring)) (h : handled) : Prop :=
  match h with
  | Responded _ => True
  | Started j => watchdog j = t
  end.

(** The timer that goes with each completion callback. *)
Definition timer_fits_callback (h : handled) : Prop :=
  match h with
  | Responded _ => True
  | Started j =>
      match callback j with
      | VideoDone _ =>
          watchdog j = Some (600000%Z, js "Download timeout after 10 minutes")
      | PlaylistDone _ _ _ =>
          watchdog j = Some (1800000%Z, js "Playlist download timeout after 30 minutes")
      | AudioDone _ | PlaylistRouteDone _ => watchdog j = None
      end
  end.

(** The download outlives the delay [after] of its timer. *)
Definition exceeds (cb : child_behaviour) (after : Z) : Prop :=
  match exits_after cb with
  | None => True
  | Some lifetime => (after < lifetime)%Z
  end.

(** A server whose downloads directory exists and is empty. *)
Definition server_started (t : Z) : world :=
  {| videoInfoCache := ∅; clock := t; spawned := [];
     files := {[ downloadsDir rt_ok := [] ]} |}.

(** A download that exits after 42 seconds, leaving the merged file and
    one intermediate stream behind. *)
Definition child_downloads : child_behaviour :=
  {| exits_after := Some 42000%Z;
     exit_outcome := Exited (js "[download] 100%") [];
     exit_writes := fun f =>
       <[ downloadsDir rt_ok :=
            [ {| fname := js "My_video.mp4"; fsize := 1000; isDirectory := false |};
              {| fname := js "My_video.f140.m4a"; fsize := 200; isDirectory := false |} ] ]> f;
     killed_exit := None; killed_writes := fun f => f |}.

(** The cleanup timers a served request has set, in the order set, each
    with the time it is due. *)
Definition tasks_of (r : result (option response * option supervised) * world)
  : list (Z * task) :=
  match fst r with
  | Return (_, Some s) => timers s
  | _ => []
  end.

(** The timers of a request fire one after the other, none before it is
    due, and nothing else touches the world in between. *)
Fixpoint run_tasks (rt : runtime) (ts : list (Z * task)) (w : world) : world :=
  match ts with
  | [] => w
  | (due, t) :: ts' =>
      run_tasks rt ts' (snd (run_task rt t (at_time (Z.max (clock w) due) w)))
  end.

(** The worlds the server can be in: it boots with an empty cache; it
    serves requests and runs cleanup timers; between its own steps time
    passes and other programs change the files. *)
Inductive reachable (rt : runtime) : world -> Prop :=
| reach_boot (t : Z) (fs : gmap jsstring directory) :
    reachable rt {| videoInfoCache := ∅; clock := t; spawned := []; files := fs |}
| reach_lookup (w w' : world) (url : jsstring) (r : result jsval) :
    reachable rt w -> getVideoInfo rt url w = (r, w') -> reachable rt w'
| reach_serve (w w' : world) (ep : endpoint) (b : request_body) (cb : child_behaviour)
    (r : result (option response * option supervised)) :
    reachable rt w -> serve rt ep b cb w = (r, w') -> reachable rt w'
| reach_task (w w' : world) (t : task) (r : result unit) :
    reachable rt w -> run_task rt t w = (r, w') -> reachable rt w'
| reach_outside (w : world) (t : Z) (fs : gmap jsstring directory) :
    reachable rt w ->
    reachable rt {| videoInfoCache := videoInfoCache w; clock := t;
                    spawned := spawned w; files := fs |}.

End Scenarios.
Export Scenarios.

(** ** Further sample data *)

Module Cases.

(** Two videos whose sanitized titles share a prefix, the first one just
    downloaded. *)
Definition songs_dir : directory :=
  [ {| fname := js "Song.mp4"; fsize := 700; isDirectory := false |};
    {| fname := js "Song_Remix.mp4"; fsize := 1000; isDirectory := false |} ].

Definition with_downloads (d : directory) : world :=
  {| videoInfoCache := ∅; clock := 0; spawned := [];
     files := {[ downloadsDir rt_ok := d ]} |}.

(** The job of a video download of the title [t]. *)
Definition video_job (t : jsstring) : job :=
  {| child := {| command := js "yt-dlp"; options := no_options |};
     callback := VideoDone t; watchdog := Some video_timeout |}.

(** A title in a script without Latin letters (U+65E5 U+672C U+8A9E),
    and a title with a dot-marker inside. *)
Definition kanji_title : jsstring := [26085; 26412; 35486].

Definition part_title : jsstring := js "Lesson.part 1".

(** A response a handler may send: status 200, 400 or 500, and every
    non-200 response is [{ error: message }]. *)
Definition well_formed_response (r : response) : Prop :=
  (status r = 200 \/ status r = 400 \/ status r = 500)%Z
  /\ (status r <> 200%Z -> exists m, body r = JObj [(js "error", JStr m)]).

Definition well_answered (h : handled) : Prop :=
  match h with
  | Responded r => well_formed_response r
  | Started _ => True
  end.

Definition is_response (h : handled) : Prop :=
  match h with
  | Responded _ => True
  | Started _ => False
  end.

(** The directory a completion callback reads once the child has ended
    without error. *)
Definition listed_by (rt : runtime) (cb : on_exit) : option jsstring :=
  match cb with
  | VideoDone _ | AudioDone _ => Some (downloadsDir rt)
  | PlaylistDone _ playlistDir _ => Some playlistDir
  | PlaylistRouteDone _ => None
  end.

(** The callback of [j], handed the outcome [o] in the world [w], calls
    [readdirSync] on a directory that is not there. *)
Definition callback_throws (rt : runtime) (j : job) (o : exec_outcome) (w : world) : Prop :=
  exec_error (command (child j)) o = None
  /\ exists dir, listed_by rt (callback j) = Some dir /\ files w !! dir = None.

(** A computation that always returns, with a value satisfying [P]. *)
Definition never_throws {A} (P : A -> Prop) (m : M A) : Prop :=
  forall w, exists a w', m w = (Return a, w') /\ P a.

Definition playlistTitle_invocation (url : jsstring) : invocation :=
  {| command := playlistTitle_command url; options := playlistTitle_options |}.

(** The title [getPlaylistInfo] returns for the output of its title
    command. *)
Definition playlist_title_of (tout : jsstring) : jsstring :=
  let playlistTitle := nth 0 (split_lines (trim tout)) [] in
  if nonempty playlistTitle then playlistTitle else js "YouTube Playlist".

(** A runtime whose first command lists two playlist entries and whose
    second prints the playlist title. *)
Definition rt_playlist : runtime :=
  {| run_command := fun n _ =>
       match n with
       | O => {| outcome := Exited (sample_json ++ [newline] ++ sample_json ++ [newline]) [];
                 elapsed := 2500; writes := fun f => f |}
       | _ => {| outcome := Exited (js "My mix" ++ [newline]) [];
                 elapsed := 800; writes := fun f => f |}
       end;
     JSON_parse := JSON_parse rt_ok;
     downloadsDir := downloadsDir rt_ok; directory_size := 4096 |}.

(** Two handler runs that agree except for the [maxBuffer] given to the
    download they start. *)
Definition same_up_to_maxBuffer (a b : result handled * world) : Prop :=
  videoInfoCache (snd a) = videoInfoCache (snd b)
  /\ clock (snd a) = clock (snd b)
  /\ files (snd a) = files (snd b)
  /\ List.map command (spawned (snd a)) = List.map command (spawned (snd b))
  /\ match fst a, fst b with
     | Return (Responded r1), Return (Responded r2) => r1 = r2
     | Return (Started j1), Return (Started j2) =>
         command (child j1) = command (child j2)
         /\ callback j1 = callback j2 /\ watchdog j1 = watchdog j2
         /\ maxBuffer (options (child j1)) = Some (1024 * 1024 * 10)%Z
         /\ maxBuffer (options (child j2)) = Some (1024 * 1024 * 100)%Z
     | _, _ => False
     end.

(** The shape of a payload of [getVideoInfo]: the five fields in the order
    the source writes them, with a truthy title. *)
Definition payload_ok (v : jsval) : Prop :=
  exists title duration thumbnail uploader view_count,
    v = JObj [(js "title", title); (js "duration", duration);
              (js "thumbnail", thumbnail); (js "uploader", uploader);
              (js "view_count", view_count)]
    /\ truthy title = true.

(** Every cache entry holds such a payload. *)
Definition payloads_ok (w : world) : Prop :=
  forall k e, videoInfoCache w !! k = Some e -> payload_ok (data e).

(** A computation keeps the property [Inv] of the world. *)
Definition keeps (Inv : world -> Prop) {A} (m : M A) : Prop :=
  forall w r w', Inv w -> m w = (r, w') -> Inv w'.

(** The line holds a character that is not white space. *)
Definition has_ink (l : jsstring) : Prop := exists c, In c l /\ is_space c = false.

(** What an element [v] of [availableFormats] built from [line] looks like:
    its [formatId] is the first column of the line, the run of characters
    up to the first white space, and begins with a digit; its [resolution]
    is a non-empty string. *)
Definition format_entry_ok (line : jsstring) (v : jsval) : Prop :=
  exists formatId rest ext resolution hasAudio,
    v = JObj [(js "formatId", JStr formatId); (js "ext", ext);
              (js "resolution", JStr resolution); (js "hasAudio", JBool hasAudio);
              (js "fullLine", JStr (trim line))]
    /\ line = formatId ++ rest
    /\ match formatId with d :: _ => is_digit d = true | [] => False end
    /\ List.Forall (fun c => is_space c = false) formatId
    /\ match rest with [] => True | c :: _ => is_space c = true end
    /\ (ext = JUndefined -> resolution = js "audio only")
    /\ resolution <> [].

(** A line of the table [yt-dlp -F] prints. *)
Definition format_line_137 : jsstring :=
  js "137     mp4   1920x1080   25 | ~ 95.12MiB  video only".

(** The directory [dir] as the world [w] has it is [d]; the other
    directories, the cache and the started commands are those of [w0]. *)
Definition only_directory_differs (dir : jsstring) (d : directory) (w0 w : world) : Prop :=
  files w !! dir = Some d
  /\ (forall dir', dir' <> dir -> files w !! dir' = files w0 !! dir')
  /\ videoInfoCache w = videoInfoCache w0
  /\ spawned w = spawned w0.

End Cases.
Export Cases.

(** * Properties *)

(** ** Strings *)

Module JsStringFacts.

Lemma startsWith_nil (s : jsstring) : startsWith s [] = true.
Proof. destruct s; reflexivity. Qed.

Lemma startsWith_app (p s : jsstring) : startsWith (p ++ s) p = true.
Proof.
  induction p as [|c p IH]; simpl.
  - apply startsWith_nil.
  - rewrite N.eqb_refl. exact IH.
Qed.

Lemma endsWith_app (s p : jsstring) : endsWith (s ++ p) p = true.
Proof. unfold endsWith. rewrite rev_app_distr. apply startsWith_app. Qed.

Lemma includes_startsWith (s p : jsstring) : startsWith s p = true -> includes s p = true.
Proof. destruct s; simpl; intros ->; reflexivity. Qed.

Lemma is_word_range (c : N) :
  is_word c = true ->
  48 <= c <= 57 \/ 65 <= c <= 90 \/ c = 95 \/ 97 <= c <= 122.
Proof.
  unfold is_word.
  rewrite !orb_true_iff, !andb_true_iff, !N.leb_le, N.eqb_eq. tauto.
Qed.

Lemma is_space_range (c : N) :
  is_space c = true ->
  9 <= c <= 13 \/ c = 32 \/ 160 <= c.
Proof.
  unfold is_space.
  rewrite !orb_true_iff, !andb_true_iff, !N.leb_le, !N.eqb_eq. lia.
Qed.

End JsStringFacts.

(** ** The sanitizer *)

Module SanitizerFacts.
Import JsStringFacts.

Lemma safe_char_range (c : N) :
  safe_char c = true ->
  48 <= c <= 57 \/ 65 <= c <= 90 \/ c = 95 \/ 97 <= c <= 122 \/ c = 46 \/ c = 45.
Proof.
  unfold safe_char, dot, hyphen. rewrite !orb_true_iff, !N.eqb_eq.
  intros [[Hw | ->] | ->]; [apply is_word_range in Hw|..]; lia.
Qed.

Lemma safe_not_space (c : N) : safe_char c = true -> is_space c = false.
Proof.
  intros Hs. apply safe_char_range in Hs.
  destruct (is_space c) eqn:Hsp; [|reflexivity].
  apply is_space_range in Hsp. lia.
Qed.

Lemma safe_keep (c : N) : safe_char c = true -> keep_char c = true.
Proof.
  unfold safe_char, keep_char. rewrite !orb_true_iff. tauto.
Qed.

Lemma keep_not_space_safe (c : N) :
  keep_char c = true -> is_space c = false -> safe_char c = true.
Proof.
  unfold safe_char, keep_char. intros Hk Hs. rewrite Hs, orb_false_r in Hk. exact Hk.
Qed.

Lemma underscore_safe : safe_char underscore = true.
Proof. reflexivity. Qed.

Lemma collapse_spaces_safe (s : jsstring) :
  forall in_run, Forall (fun c => keep_char c = true) s ->
                 Forall (fun c => safe_char c = true) (collapse_spaces in_run s).
Proof.
  induction s as [|c s IH]; intros in_run Hk; simpl.
  - constructor.
  - inversion Hk as [|? ? Hc Hrest]; subst.
    destruct (is_space c) eqn:Hsp.
    + destruct in_run.
      * apply IH, Hrest.
      * constructor; [apply underscore_safe | apply IH, Hrest].
    + constructor; [apply keep_not_space_safe; assumption | apply IH, Hrest].
Qed.

Lemma strip_unsafe_keeps (s : jsstring) :
  Forall (fun c => keep_char c = true) (strip_unsafe s).
Proof.
  unfold strip_unsafe. apply List.Forall_forall. intros c Hc.
  apply List.filter_In in Hc. tauto.
Qed.

Lemma strip_unsafe_fixed (s : jsstring) :
  Forall (fun c => safe_char c = true) s -> strip_unsafe s = s.
Proof.
  unfold strip_unsafe. induction 1 as [|c s Hc _ IH]; simpl.
  - reflexivity.
  - rewrite (safe_keep c Hc), IH. reflexivity.
Qed.

Lemma collapse_spaces_fixed (s : jsstring) :
  forall in_run, Forall (fun c => safe_char c = true) s -> collapse_spaces in_run s = s.
Proof.
  induction s as [|c s IH]; intros in_run Hs; simpl.
  - reflexivity.
  - inversion Hs as [|? ? Hc Hrest]; subst.
    rewrite (safe_not_space c Hc), (IH false Hrest). reflexivity.
Qed.

Lemma sanitizeFilename_safe (s : jsstring) :
  Forall (fun c => safe_char c = true) (sanitizeFilename s).
Proof. apply collapse_spaces_safe, strip_unsafe_keeps. Qed.

(** C10.  For every input string, the sanitized name consists of word
    characters (letters, digits, underscore), dots and hyphens only, holds
    no white space, and sanitizing it again changes nothing. *)
Theorem sanitizeFilename_alphabet_idempotent (s : jsstring) :
  Forall (fun c => is_word c = true \/ c = dot \/ c = hyphen) (sanitizeFilename s)
  /\ Forall (fun c => is_space c = false) (sanitizeFilename s)
  /\ sanitizeFilename (sanitizeFilename s) = sanitizeFilename s.
Proof.
  pose proof (sanitizeFilename_safe s) as Hsafe.
  split; [|split].
  - eapply List.Forall_impl; [|exact Hsafe]. intros c Hc. unfold safe_char in Hc.
    rewrite !orb_true_iff, !N.eqb_eq in Hc. tauto.
  - eapply List.Forall_impl; [|exact Hsafe]. intros c. apply safe_not_space.
  - unfold sanitizeFilename at 1.
    rewrite (strip_unsafe_fixed _ Hsafe). apply collapse_spaces_fixed, Hsafe.
Qed.

(** A title with punctuation, a tab, a no-break space and a run of blanks. *)
Example sanitizeFilename_sample :
  sanitizeFilename (js "My  video: part #1 (HD).final" ++ [9; 160] ++ js "x")
  = js "My_video_part_1_HD.final_x".
Proof. reflexivity. Qed.

End SanitizerFacts.

(** ** The quality mapping *)

Module QualityFacts.

Lemma quality_is_true (q : jsstring) (lit : string) : quality_is q lit = true -> q = js lit.
Proof. unfold quality_is, jsstring_eqb. apply bool_decide_eq_true_1. Qed.

Lemma unrecognized_is_false (known : list jsstring) (q : jsstring) (lit : string) :
  ~ In q known -> In (js lit) known -> quality_is q lit = false.
Proof.
  intros Hq Hlit. destruct (quality_is q lit) eqn:E; [|reflexivity].
  apply quality_is_true in E. subst q. contradiction.
Qed.

Ltac in_recognized := unfold recognized, recognized_playlistRoute; simpl; tauto.

Lemma formatSelector_videoRoute_default (q : jsstring) :
  ~ In q recognized -> formatSelector_videoRoute q = fmt_720.
Proof.
  intros Hq. unfold formatSelector_videoRoute.
  rewrite (unrecognized_is_false recognized q "360p" Hq) by in_recognized.
  rewrite (unrecognized_is_false recognized q "240p" Hq) by in_recognized.
  rewrite (unrecognized_is_false recognized q "144p" Hq) by in_recognized.
  rewrite (unrecognized_is_false recognized q "4k" Hq) by in_recognized.
  rewrite (unrecognized_is_false recognized q "1440p" Hq) by in_recognized.
  rewrite (unrecognized_is_false recognized q "1080p" Hq) by in_recognized.
  rewrite (unrecognized_is_false recognized q "720p" Hq) by in_recognized.
  rewrite (unrecognized_is_false recognized q "480p" Hq) by in_recognized.
  rewrite (unrecognized_is_false recognized q "highest" Hq) by in_recognized.
  reflexivity.
Qed.

Lemma formatSelector_playlistRoute_default (q : jsstring) :
  ~ In q recognized_playlistRoute ->
  formatSelector_playlistRoute q = js "best[ext=mp4]/best".
Proof.
  intros Hq. unfold formatSelector_playlistRoute.
  rewrite (unrecognized_is_false recognized_playlistRoute q "4k" Hq) by in_recognized.
  rewrite (unrecognized_is_false recognized_playlistRoute q "1440p" Hq) by in_recognized.
  rewrite (unrecognized_is_false recognized_playlistRoute q "1080p" Hq) by in_recognized.
  rewrite (unrecognized_is_false recognized_playlistRoute q "720p" Hq) by in_recognized.
  rewrite (unrecognized_is_false recognized_playlistRoute q "480p" Hq) by in_recognized.
  rewrite (unrecognized_is_false recognized_playlistRoute q "360p" Hq) by in_recognized.
  rewrite (unrecognized_is_false recognized_playlistRoute q "highest" Hq) by in_recognized.
  reflexivity.
Qed.

(** The three single-item and unified handlers carry the same if-chain. *)
Lemma formatSelector_copies_agree (q : jsstring) :
  formatSelector_handleVideoDownload q = formatSelector_videoRoute q
  /\ formatSelector_handlePlaylistDownload q = formatSelector_videoRoute q.
Proof. split; reflexivity. Qed.

(** C3.  The quality mapping of the download handlers is a function of the
    selector alone: each of the nine recognised selectors has its fixed
    format string, every other selector gets the format string of the
    default tier (720p), an absent selector is read as 'highest', and the
    copies in [handleVideoDownload] and [handlePlaylistDownload] are the
    same function as the one in the [/api/download/video] handler.  The
    [/api/download/playlist] route has a table of its own, with its own
    fixed default for every selector outside it. *)
Theorem formatSelector_table_and_default :
  formatSelector_videoRoute (js "144p") = fmt_combined_360
  /\ formatSelector_videoRoute (js "240p") = fmt_combined_360
  /\ formatSelector_videoRoute (js "360p") = fmt_combined_360
  /\ formatSelector_videoRoute (js "480p") = fmt_480
  /\ formatSelector_videoRoute (js "720p") = fmt_720
  /\ formatSelector_videoRoute (js "1080p") = fmt_1080
  /\ formatSelector_videoRoute (js "1440p") = fmt_1440
  /\ formatSelector_videoRoute (js "4k") = fmt_2160
  /\ formatSelector_videoRoute (js "highest") = fmt_720
  /\ formatSelector_videoRoute (quality_or_default None "highest") = fmt_720
  /\ (forall q, ~ In q recognized -> formatSelector_videoRoute q = fmt_720)
  /\ (forall q, formatSelector_handleVideoDownload q = formatSelector_videoRoute q)
  /\ (forall q, formatSelector_handlePlaylistDownload q = formatSelector_videoRoute q)
  /\ (forall q, ~ In q recognized_playlistRoute ->
                formatSelector_playlistRoute q = js "best[ext=mp4]/best").
Proof.
  repeat split; try reflexivity.
  - intros q. apply formatSelector_videoRoute_default.
  - intros q. apply formatSelector_playlistRoute_default.
Qed.

(** An unrecognised selector, through the general statement. *)
Example formatSelector_8k : formatSelector_videoRoute (js "8k") = fmt_720.
Proof.
  apply formatSelector_videoRoute_default.
  unfold recognized. simpl. intros H.
  repeat (destruct H as [H | H]; [discriminate H|]). exact H.
Qed.

End QualityFacts.

(** ** The cleanup passes *)

Module FsFacts.
Import JsStringFacts.

Lemma has_name_true (n : jsstring) (f : file) : has_name n f = true <-> fname f = n.
Proof. unfold has_name, jsstring_eqb. apply bool_decide_eq_true. Qed.

Lemma has_name_false (n : jsstring) (f : file) : has_name n f = false <-> fname f <> n.
Proof. unfold has_name, jsstring_eqb. apply bool_decide_eq_false. Qed.

Lemma named_in_true (names : list jsstring) (f : file) :
  named_in names f = true <-> In (fname f) names.
Proof.
  unfold named_in. rewrite existsb_exists. split.
  - intros [n [Hin Hn]]. apply has_name_true in Hn. congruence.
  - intros Hin. exists (fname f). split; [exact Hin | apply has_name_true; reflexivity].
Qed.

Lemma filter_all (A : Type) (p : A -> bool) (l : list A) :
  (forall x, In x l -> p x = true) -> List.filter p l = l.
Proof.
  induction l as [|x l IH]; intros H; simpl; [reflexivity|].
  rewrite (H x (or_introl eq_refl)), IH; [reflexivity|].
  intros y Hy. apply H. right. exact Hy.
Qed.

Lemma filter_filter (A : Type) (p q : A -> bool) (l : list A) :
  List.filter q (List.filter p l) = List.filter (fun x => p x && q x) l.
Proof.
  induction l as [|x l IH]; simpl; [reflexivity|].
  destruct (p x); simpl; [destruct (q x)|]; rewrite IH; reflexivity.
Qed.

(** An unlink whose exception is caught removes the regular file of that
    name and leaves a sub-directory of that name where it is. *)
Lemma try_unlink_filter (d : directory) (n : jsstring) :
  try_unlink d n = List.filter (fun f => negb (has_name n f) || isDirectory f) d.
Proof.
  assert (forall f, negb (regular_named n f) = negb (has_name n f) || isDirectory f) as Hp.
  { intros f. unfold regular_named. destruct (has_name n f), (isDirectory f); reflexivity. }
  unfold try_unlink, unlinkSync.
  destruct (existsb (regular_named n) d) eqn:E.
  - apply filter_ext. exact Hp.
  - assert (List.filter (fun f => negb (has_name n f) || isDirectory f) d = d) as ->.
    { apply filter_all. intros f Hf. rewrite <- Hp.
      destruct (regular_named n f) eqn:Hn; [|reflexivity].
      assert (existsb (regular_named n) d = true) by (apply existsb_exists; eauto).
      congruence. }
    destruct (existsb (has_name n) d); reflexivity.
Qed.

(** Unlinking a list of names removes exactly the regular files bearing
    them. *)
Lemma unlink_each_filter (names : list jsstring) :
  forall d, unlink_each names d
            = List.filter (fun f => negb (named_in names f) || isDirectory f) d.
Proof.
  unfold unlink_each.
  induction names as [|n names IH]; intros d; simpl.
  - symmetry. apply filter_all. reflexivity.
  - rewrite IH, try_unlink_filter, filter_filter.
    apply filter_ext. intros f. destruct (has_name n f), (isDirectory f); simpl;
      try reflexivity; destruct (named_in names f); reflexivity.
Qed.

Lemma named_in_selected (p : jsstring -> bool) (d : directory) (f : file) :
  In f d -> named_in (List.filter p (readdir d)) f = p (fname f).
Proof.
  intros Hf. destruct (p (fname f)) eqn:Hp.
  - apply named_in_true, List.filter_In. split; [|exact Hp].
    unfold readdir. apply in_map. exact Hf.
  - destruct (named_in _ f) eqn:E; [|reflexivity].
    apply named_in_true, List.filter_In in E. destruct E as [_ E]. congruence.
Qed.

(** A pass that unlinks the listed names selected by [p] keeps exactly the
    sub-directories and the files whose name [p] rejects. *)
Lemma unlink_selected (p : jsstring -> bool) (d : directory) :
  unlink_each (List.filter p (readdir d)) d
  = List.filter (fun f => negb (p (fname f)) || isDirectory f) d.
Proof.
  rewrite unlink_each_filter. apply filter_ext_in. intros f Hf.
  rewrite (named_in_selected p d f Hf). reflexivity.
Qed.

Lemma cleanupTempFiles_filter (t : jsstring) (d : directory) :
  cleanupTempFiles t d
  = List.filter (fun f => negb (is_temp t (fname f)) || isDirectory f) d.
Proof. unfold cleanupTempFiles. apply unlink_selected. Qed.

Lemma cleanupPlaylistTemp_filter (d : directory) :
  cleanupPlaylistTemp d
  = List.filter (fun f => negb (is_playlist_temp (fname f)) || isDirectory f) d.
Proof. unfold cleanupPlaylistTemp. apply unlink_selected. Qed.

Lemma filter_idempotent (A : Type) (p : A -> bool) (l : list A) :
  List.filter p (List.filter p l) = List.filter p l.
Proof.
  apply filter_all. intros x Hx. apply List.filter_In in Hx. tauto.
Qed.

Example cleanupTempFiles_sample :
  cleanupTempFiles (js "title") sample_dir
  = [ {| fname := js "title.mp4"; fsize := 1000; isDirectory := false |};
      {| fname := js "notes.txt"; fsize := 5; isDirectory := false |} ]
  /\ cleanupTempFiles (js "title") (cleanupTempFiles (js "title") sample_dir)
     = cleanupTempFiles (js "title") sample_dir.
Proof. split; reflexivity. Qed.

(** A sub-directory whose name meets the criteria of the pass stays: the
    unlink fails on it and the pass goes on. *)
Example cleanupTempFiles_keeps_subdirectory :
  cleanupTempFiles (js "My_mix") mix_dir
  = [ {| fname := js "My_mix"; fsize := 4096; isDirectory := true |};
      {| fname := js "My_mix.part"; fsize := 4096; isDirectory := true |};
      {| fname := js "My_mix.mp4"; fsize := 1000; isDirectory := false |} ].
Proof. reflexivity. Qed.

End FsFacts.

(** ** The final cleanup pass *)

Module FinalCleanupFacts.
Import JsStringFacts FsFacts.

Lemma insert_by_perm (A : Type) (cmp : A -> A -> Z) (x : A) (l : list A) :
  Permutation (insert_by cmp x l) (x :: l).
Proof.
  induction l as [|y l IH]; simpl; [reflexivity|].
  destruct (cmp x y <=? 0)%Z; [reflexivity|].
  rewrite IH. apply perm_swap.
Qed.

Lemma sort_by_perm (A : Type) (cmp : A -> A -> Z) (l : list A) :
  Permutation (sort_by cmp l) l.
Proof.
  induction l as [|x l IH]; simpl; [reflexivity|].
  rewrite insert_by_perm. constructor. exact IH.
Qed.

(** Larger sizes first. *)
Definition size_ge (a b : jsstring * Z) : Prop := (snd b <= snd a)%Z.

Lemma insert_by_sorted (x : jsstring * Z) (l : list (jsstring * Z)) :
  StronglySorted size_ge l -> StronglySorted size_ge (insert_by by_size_desc x l).
Proof.
  induction 1 as [|y l Hl IH Hy]; simpl.
  - repeat constructor.
  - unfold by_size_desc at 1. destruct (Z.leb_spec (snd y - snd x) 0) as [Hle | Hgt].
    + constructor; [constructor; assumption|].
      constructor; [unfold size_ge; lia|].
      eapply List.Forall_impl; [|exact Hy]. unfold size_ge. intros z Hz. lia.
    + constructor; [exact IH|].
      rewrite (insert_by_perm _ by_size_desc x l).
      constructor; [unfold size_ge; lia | exact Hy].
Qed.

Lemma sort_by_sorted (l : list (jsstring * Z)) :
  StronglySorted size_ge (sort_by by_size_desc l).
Proof.
  induction l as [|x l IH]; simpl; [constructor|].
  apply insert_by_sorted, IH.
Qed.

(** The first element after sorting has the largest size. *)
Lemma sort_head_largest (l : list (jsstring * Z)) (w : jsstring * Z) rest :
  sort_by by_size_desc l = w :: rest ->
  forall x, In x l -> (snd x <= snd w)%Z.
Proof.
  intros Hs x Hx.
  pose proof (sort_by_sorted l) as Hsorted. rewrite Hs in Hsorted.
  assert (In x (w :: rest)) as Hin.
  { rewrite <- Hs. eapply Permutation_in; [symmetry; apply sort_by_perm | exact Hx]. }
  destruct Hin as [-> | Hin]; [lia|].
  inversion Hsorted as [|? ? _ Hall]; subst.
  rewrite List.Forall_forall in Hall. apply Hall. exact Hin.
Qed.

Lemma find_listed (n : jsstring) (d : directory) :
  In n (readdir d) -> exists f, List.find (has_name n) d = Some f /\ fname f = n.
Proof.
  unfold readdir. intros Hin. apply in_map_iff in Hin. destruct Hin as [g [Hg Hgd]].
  destruct (List.find (has_name n) d) as [f|] eqn:E.
  - exists f. split; [reflexivity|]. apply find_some in E. apply has_name_true, E.
  - exfalso. pose proof (find_none _ _ E g Hgd) as Hnone.
    apply has_name_false in Hnone. congruence.
Qed.

Lemma stat_all_listed (names : list jsstring) (d : directory) :
  (forall n, In n names -> In n (readdir d)) ->
  stat_all names d = Return (List.map (fun n => (n, size_of n d)) names).
Proof.
  induction names as [|n names IH]; intros Hall; simpl; [reflexivity|].
  unfold statSync_size, size_of at 1.
  destruct (find_listed n d (Hall n (or_introl eq_refl))) as [f [-> _]].
  rewrite IH; [reflexivity|]. intros m Hm. apply Hall. right. exact Hm.
Qed.

Lemma size_of_listed (d : directory) :
  List.NoDup (readdir d) -> forall f, In f d -> size_of (fname f) d = fsize f.
Proof.
  unfold size_of.
  induction d as [|g d IH]; intros Hnd f Hf; [destruct Hf|].
  simpl in Hnd. inversion Hnd as [|? ? Hg Hnd']; subst. simpl.
  destruct (has_name (fname f) g) eqn:E.
  - apply has_name_true in E. destruct Hf as [-> | Hf]; [reflexivity|].
    exfalso. apply Hg. rewrite E. unfold readdir. apply in_map. exact Hf.
  - apply has_name_false in E. destruct Hf as [-> | Hf]; [congruence|].
    apply IH; assumption.
Qed.

Lemma final_not_leftover (t n : jsstring) :
  is_final_mp4 t n = true -> is_leftover t n = false.
Proof.
  unfold is_final_mp4, is_leftover. rewrite andb_true_iff. intros [_ ->].
  apply andb_false_r.
Qed.

(** With at most one final MP4, the pass only removes the leftovers that
    are regular files. *)
Lemma finalCleanup_single (t : jsstring) (d : directory) :
  (length (List.filter (is_final_mp4 t) (readdir d)) <= 1)%nat ->
  finalCleanup t d
  = List.filter (fun f => negb (is_leftover t (fname f)) || isDirectory f) d.
Proof.
  intros Hlen. unfold finalCleanup, keep_largest_mp4.
  destruct (Nat.ltb_spec 1 (length (List.filter (is_final_mp4 t) (readdir d)))); [lia|].
  apply unlink_selected.
Qed.

Lemma filter_listed (p : jsstring -> bool) (d : directory) (n : jsstring) :
  In n (List.filter p (readdir d)) -> exists f, In f d /\ fname f = n /\ p n = true.
Proof.
  intros Hin. apply List.filter_In in Hin. destruct Hin as [Hin Hp].
  unfold readdir in Hin. apply in_map_iff in Hin. destruct Hin as [f [Hf Hfd]].
  exists f. auto.
Qed.

(** With several final MP4s, the first of the size-sorted candidates
    stays, of largest size; the other candidates and the leftovers go,
    unless they are sub-directories; every other entry stays. *)
Lemma finalCleanup_multi (t : jsstring) (d : directory) :
  List.NoDup (readdir d) ->
  (1 < length (List.filter (is_final_mp4 t) (readdir d)))%nat ->
  exists w, In w d /\ is_final_mp4 t (fname w) = true
    /\ largest_mp4 t d = Some (fname w)
    /\ (forall f, In f d -> is_final_mp4 t (fname f) = true -> (fsize f <= fsize w)%Z)
    /\ finalCleanup t d
       = List.filter (fun f => isDirectory f
                               || (if is_final_mp4 t (fname f) then has_name (fname w) f
                                   else negb (is_leftover t (fname f)))) d.
Proof.
  intros Hnd Hlen. unfold largest_mp4.
  set (mp4s := List.filter (is_final_mp4 t) (readdir d)) in *.
  set (stats := List.map (fun n => (n, size_of n d)) mp4s).
  assert (stat_all mp4s d = Return stats) as Hstat.
  { apply stat_all_listed. intros n Hn. apply List.filter_In in Hn. tauto. }
  assert (List.map fst stats = mp4s) as Hfst.
  { unfold stats. rewrite List.map_map. simpl. apply List.map_id. }
  pose proof (sort_by_perm _ by_size_desc stats) as Hperm.
  destruct (sort_by by_size_desc stats) as [|[wn wsz] rest] eqn:Hsort.
  { apply Permutation_length in Hperm. unfold stats in Hperm.
    rewrite List.length_map in Hperm. simpl in Hperm. lia. }
  assert (Permutation (wn :: List.map fst rest) mp4s) as Hnames.
  { rewrite <- Hfst. change (wn :: List.map fst rest) with (List.map fst ((wn, wsz) :: rest)).
    apply Permutation_map. exact Hperm. }
  assert (List.NoDup (wn :: List.map fst rest)) as Hnd'.
  { eapply Permutation_NoDup; [symmetry; exact Hnames|]. apply List.NoDup_filter. exact Hnd. }
  assert (In wn mp4s) as Hwn.
  { eapply Permutation_in; [exact Hnames | left; reflexivity]. }
  destruct (filter_listed _ _ _ Hwn) as [w [Hw [Hwname Hwfinal]]].
  assert (In (wn, wsz) stats) as Hwstat.
  { eapply Permutation_in; [exact Hperm | left; reflexivity]. }
  assert (wsz = fsize w) as Hwsz.
  { unfold stats in Hwstat. apply in_map_iff in Hwstat.
    destruct Hwstat as [n [Heq _]]. inversion Heq; subst n.
    rewrite <- Hwname. apply size_of_listed; assumption. }
  exists w. split; [exact Hw|]. split; [rewrite Hwname; exact Hwfinal|].
  split; [rewrite Hwname; reflexivity|]. split.
  - intros f Hf Hfinal.
    assert (In (fname f, fsize f) stats) as Hfstat.
    { unfold stats. apply in_map_iff. exists (fname f). split.
      - rewrite size_of_listed by assumption. reflexivity.
      - apply List.filter_In. split; [unfold readdir; apply in_map; exact Hf | exact Hfinal]. }
    pose proof (sort_head_largest stats (wn, wsz) rest Hsort _ Hfstat) as Hle.
    simpl in Hle. lia.
  - unfold finalCleanup, keep_largest_mp4. fold mp4s.
    destruct (Nat.ltb_spec 1 (length mp4s)); [|lia].
    rewrite Hstat, Hsort. simpl tl.
    rewrite !unlink_each_filter, filter_filter.
    apply filter_ext_in. intros f Hf.
    rewrite (named_in_selected (is_leftover t) d f Hf), Hwname.
    destruct (isDirectory f); [rewrite !orb_true_r; reflexivity|].
    rewrite !orb_false_r. simpl.
    apply List.NoDup_cons_iff in Hnd'. destruct Hnd' as [Hwn_rest _].
    destruct (is_final_mp4 t (fname f)) eqn:Hfinal.
    + rewrite (final_not_leftover _ _ Hfinal), andb_true_r.
      assert (In (fname f) (wn :: List.map fst rest)) as Hin.
      { eapply Permutation_in; [symmetry; exact Hnames|].
        apply List.filter_In. split; [unfold readdir; apply in_map; exact Hf | exact Hfinal]. }
      destruct (has_name wn f) eqn:E.
      * apply has_name_true in E.
        destruct (named_in (List.map fst rest) f) eqn:E'; [|reflexivity].
        apply named_in_true in E'. rewrite E in E'. contradiction.
      * apply has_name_false in E. destruct Hin as [Hin | Hin]; [congruence|].
        apply named_in_true in Hin. rewrite Hin. reflexivity.
    + destruct (named_in (List.map fst rest) f) eqn:E'; [|reflexivity].
      apply named_in_true in E'.
      assert (In (fname f) mp4s) as Hin.
      { eapply Permutation_in; [exact Hnames | right; exact E']. }
      apply List.filter_In in Hin. destruct Hin as [_ Hin]. congruence.
Qed.

Lemma endsWith_webm (t : jsstring) : endsWith (t ++ js ".webm") mp4 = false.
Proof. unfold endsWith. rewrite rev_app_distr. reflexivity. Qed.

Lemma endsWith_m4a (t : jsstring) : endsWith (t ++ js ".f140.m4a") mp4 = false.
Proof. unfold endsWith. rewrite rev_app_distr. reflexivity. Qed.

Lemma includes_prefix (t x : jsstring) : includes (t ++ x) t = true.
Proof. apply includes_startsWith, startsWith_app. Qed.

(** All elements of a duplicate-free list are [x]: at most one element. *)
Lemma NoDup_constant (A : Type) (x : A) (l : list A) :
  List.NoDup l -> (forall y, In y l -> y = x) -> (length l <= 1)%nat.
Proof.
  intros Hnd Hall. destruct l as [|a [|b l]]; simpl; [lia | lia |].
  exfalso. inversion Hnd as [|? ? Ha _]; subst. apply Ha.
  rewrite (Hall a), (Hall b); simpl; auto.
Qed.

(** C4.  In a downloads directory with distinct names: (1) when the
    entries whose name starts with the sanitized title are among the files
    [title.webm], [title.f140.m4a] and [title.mp4], one run of the final
    pass deletes [title.webm] and [title.f140.m4a] and leaves [title.mp4]
    as it is; all it deletes are regular files whose name contains the
    title and does not end in [.mp4]; (2) when several files start with the
    title and end in [.mp4], the pass keeps exactly one of them, of largest
    size, deletes the others and every other regular file whose name
    contains the title, and touches nothing else: a sub-directory stays,
    whatever its name. *)
Theorem finalCleanup_keeps_final_mp4 (t : jsstring) (d : directory) :
  List.NoDup (readdir d) ->
  ((forall f, In f d -> startsWith (fname f) t = true ->
              In (fname f) [t ++ js ".webm"; t ++ js ".f140.m4a"; t ++ js ".mp4"]) ->
   (forall f, In f d -> In (fname f) [t ++ js ".webm"; t ++ js ".f140.m4a"] ->
              isDirectory f = false) ->
   (forall f, In f (finalCleanup t d) ->
              fname f <> t ++ js ".webm" /\ fname f <> t ++ js ".f140.m4a")
   /\ (forall f, In f d -> fname f = t ++ js ".mp4" -> In f (finalCleanup t d))
   /\ finalCleanup t d
      = List.filter (fun f => isDirectory f || negb (is_leftover t (fname f))) d)
  /\ ((1 < length (List.filter (is_final_mp4 t) (readdir d)))%nat ->
      (forall f, In f d -> is_final_mp4 t (fname f) = true -> isDirectory f = false) ->
      exists w, In w d /\ is_final_mp4 t (fname w) = true
        /\ (forall f, In f d -> is_final_mp4 t (fname f) = true -> (fsize f <= fsize w)%Z)
        /\ finalCleanup t d
           = List.filter (fun f => if is_final_mp4 t (fname f) then has_name (fname w) f
                                   else isDirectory f || negb (is_leftover t (fname f))) d).
Proof.
  intros Hnd. split.
  - intros Hthree Hfiles.
    assert (finalCleanup t d
            = List.filter (fun f => isDirectory f || negb (is_leftover t (fname f))) d) as Heq.
    { rewrite finalCleanup_single; [apply filter_ext; intros f; apply orb_comm|].
      apply (NoDup_constant _ (t ++ js ".mp4")); [apply List.NoDup_filter; exact Hnd|].
      intros n Hn. destruct (filter_listed _ _ _ Hn) as [f [Hf [Hname Hfinal]]].
      unfold is_final_mp4 in Hfinal. apply andb_true_iff in Hfinal.
      destruct Hfinal as [Hstart Hend]. rewrite <- Hname in Hstart.
      destruct (Hthree f Hf Hstart) as [E | [E | [E | []]]]; rewrite <- Hname, <- E in *.
      - rewrite endsWith_webm in Hend. discriminate Hend.
      - rewrite endsWith_m4a in Hend. discriminate Hend.
      - reflexivity. }
    split; [|split; [|exact Heq]].
    + intros f Hf. rewrite Heq in Hf. apply List.filter_In in Hf. destruct Hf as [Hf Hkeep].
      split; intros E.
      * rewrite (Hfiles f Hf) in Hkeep by (rewrite E; simpl; auto).
        unfold is_leftover in Hkeep.
        rewrite E, includes_prefix, endsWith_webm in Hkeep. discriminate Hkeep.
      * rewrite (Hfiles f Hf) in Hkeep by (rewrite E; simpl; auto).
        unfold is_leftover in Hkeep.
        rewrite E, includes_prefix, endsWith_m4a in Hkeep. discriminate Hkeep.
    + intros f Hf Hname. rewrite Heq. apply List.filter_In. split; [exact Hf|].
      unfold is_leftover. rewrite Hname, endsWith_app, andb_false_r. apply orb_true_r.
  - intros Hmany Hregular.
    destruct (finalCleanup_multi t d Hnd Hmany) as [w (Hw & Hwfinal & _ & Hmax & Heq)].
    exists w. split; [exact Hw|]. split; [exact Hwfinal|]. split; [exact Hmax|].
    rewrite Heq. apply filter_ext_in. intros f Hf.
    destruct (is_final_mp4 t (fname f)) eqn:Hfinal; [|reflexivity].
    rewrite (Hregular f Hf Hfinal). reflexivity.
Qed.

Ltac distinct_names :=
  repeat (apply List.NoDup_cons; [simpl; intuition discriminate|]); apply List.NoDup_nil.

Ltac each_entry H :=
  simpl in H; repeat (destruct H as [<- | H]); try destruct H.

(** The directory of the spec's example with other entries that bear the
    title inside their name, and one with a stale MP4 and sub-directories
    beside the merged file. *)
Lemma finalCleanup_keeps_final_mp4_witness :
  ((forall f, In f (finalCleanup (js "title") titled_dir) ->
              fname f <> js "title" ++ js ".webm" /\ fname f <> js "title" ++ js ".f140.m4a")
   /\ (forall f, In f titled_dir -> fname f = js "title" ++ js ".mp4" ->
                 In f (finalCleanup (js "title") titled_dir))
   /\ finalCleanup (js "title") titled_dir
      = List.filter (fun f => isDirectory f || negb (is_leftover (js "title") (fname f)))
                    titled_dir)
  /\ (exists w, In w mix_dir /\ is_final_mp4 (js "My_mix") (fname w) = true
        /\ (forall f, In f mix_dir -> is_final_mp4 (js "My_mix") (fname f) = true
                       -> (fsize f <= fsize w)%Z)
        /\ finalCleanup (js "My_mix") mix_dir
           = List.filter (fun f => if is_final_mp4 (js "My_mix") (fname f)
                                   then has_name (fname w) f
                                   else isDirectory f
                                        || negb (is_leftover (js "My_mix") (fname f)))
                         mix_dir).
Proof.
  split.
  - apply (proj1 (finalCleanup_keeps_final_mp4 (js "title") titled_dir
                    ltac:(distinct_names))).
    + intros f Hf Hstart. each_entry Hf; vm_compute in Hstart; try discriminate Hstart;
        simpl; auto.
    + intros f Hf Hname. each_entry Hf; try reflexivity;
        vm_compute in Hname; decompose [or] Hname; try discriminate; contradiction.
  - apply (proj2 (finalCleanup_keeps_final_mp4 (js "My_mix") mix_dir
                    ltac:(distinct_names))).
    + vm_compute. lia.
    + intros f Hf Hfinal. each_entry Hf; try reflexivity;
        vm_compute in Hfinal; discriminate Hfinal.
Defined.

(** What the pass leaves of these two directories. *)
Example finalCleanup_samples :
  finalCleanup (js "title") titled_dir
  = [ {| fname := js "old title"; fsize := 4096; isDirectory := true |};
      {| fname := js "title.mp4"; fsize := 1000; isDirectory := false |};
      {| fname := js "notes.txt"; fsize := 5; isDirectory := false |} ]
  /\ finalCleanup (js "My_mix") mix_dir
     = [ {| fname := js "My_mix"; fsize := 4096; isDirectory := true |};
         {| fname := js "My_mix.part"; fsize := 4096; isDirectory := true |};
         {| fname := js "My_mix.mp4"; fsize := 1000; isDirectory := false |} ]
  /\ finalCleanup (js "title") sample_dir
     = [ {| fname := js "title.mp4"; fsize := 1000; isDirectory := false |};
         {| fname := js "notes.txt"; fsize := 5; isDirectory := false |} ]
  /\ finalCleanup (js "title") stale_dir
     = [ {| fname := js "title.mp4"; fsize := 1000; isDirectory := false |};
         {| fname := js "notes.txt"; fsize := 5; isDirectory := false |} ].
Proof. repeat split. Qed.

End FinalCleanupFacts.

(** ** Idempotence of the cleanup passes *)

Module SweepFacts.
Import JsStringFacts FsFacts FinalCleanupFacts.

Lemma readdir_filter_NoDup (p : file -> bool) (d : directory) :
  List.NoDup (readdir d) -> List.NoDup (readdir (List.filter p d)).
Proof.
  unfold readdir. induction d as [|f d IH]; simpl; intros Hnd; [constructor|].
  apply List.NoDup_cons_iff in Hnd. destruct Hnd as [Hf Hnd].
  destruct (p f); simpl; [|apply IH, Hnd].
  constructor; [|apply IH, Hnd].
  intros Hin. apply Hf. apply in_map_iff in Hin. destruct Hin as [g [Hg Hgd]].
  apply List.filter_In in Hgd. apply in_map_iff. exists g. tauto.
Qed.

(** In a listing with distinct names an entry is known by its name. *)
Lemma same_name_same_entry (d : directory) (f g : file) :
  List.NoDup (readdir d) -> In f d -> In g d -> fname f = fname g -> f = g.
Proof.
  unfold readdir. induction d as [|y d IH]; simpl; [tauto|]. intros Hnd.
  apply List.NoDup_cons_iff in Hnd. destruct Hnd as [Hy Hnd].
  intros [-> | Hf] [-> | Hg] E; auto.
  - exfalso. apply Hy. apply in_map_iff. exists g. split; [congruence | exact Hg].
  - exfalso. apply Hy. apply in_map_iff. exists f. split; [congruence | exact Hf].
Qed.

(** The first of the size-sorted pairs stays the first when other pairs are
    taken away: the sort is stable. *)
Lemma sort_head_filter (q : jsstring * Z -> bool) (l : list (jsstring * Z)) :
  forall w rest, sort_by by_size_desc l = w :: rest -> q w = true ->
  exists rest', sort_by by_size_desc (List.filter q l) = w :: rest'.
Proof.
  induction l as [|x l IH]; intros w rest Hs Hq; [discriminate Hs|].
  simpl in Hs. destruct (sort_by by_size_desc l) as [|w' r'] eqn:Hl.
  - simpl in Hs. injection Hs as <- <-.
    assert (l = []) as ->.
    { pose proof (sort_by_perm _ by_size_desc l) as Hp. rewrite Hl in Hp.
      apply Permutation_nil in Hp. exact Hp. }
    simpl. rewrite Hq. simpl. eauto.
  - simpl in Hs. unfold by_size_desc at 1 in Hs.
    destruct (Z.leb_spec (snd w' - snd x) 0) as [Hle | Hgt].
    + injection Hs as <- <-. simpl. rewrite Hq. simpl.
      destruct (sort_by by_size_desc (List.filter q l)) as [|h r] eqn:Hf; simpl; [eauto|].
      assert (In h l) as Hh.
      { assert (In h (List.filter q l)) as Hin.
        { eapply Permutation_in; [apply sort_by_perm|]. rewrite Hf. left. reflexivity. }
        apply List.filter_In in Hin. tauto. }
      pose proof (sort_head_largest l w' r' Hl h Hh) as Hhw.
      unfold by_size_desc at 1.
      destruct (Z.leb_spec (snd h - snd x) 0); [eauto | lia].
    + injection Hs as <- <-.
      destruct (IH w' r' eq_refl Hq) as [rest' Hrest]. simpl.
      destruct (q x); [|eauto]. simpl. rewrite Hrest. simpl.
      unfold by_size_desc at 1.
      destruct (Z.leb_spec (snd w' - snd x) 0); [lia | eauto].
Qed.

(** In a listing with distinct names, the sizes [statSync] reports for the
    selected names are those of the selected entries. *)
Lemma stats_of_entries (p : jsstring -> bool) (d : directory) :
  List.NoDup (readdir d) ->
  List.map (fun n => (n, size_of n d)) (List.filter p (readdir d))
  = List.map (fun f => (fname f, fsize f)) (List.filter (fun f => p (fname f)) d).
Proof.
  intros Hnd.
  assert (List.filter p (readdir d) = List.map fname (List.filter (fun f => p (fname f)) d))
    as ->.
  { unfold readdir. clear. induction d as [|f d IH]; simpl; [reflexivity|].
    destruct (p (fname f)); simpl; congruence. }
  rewrite List.map_map. apply List.map_ext_in. intros f Hf.
  apply List.filter_In in Hf. rewrite (size_of_listed d Hnd f) by tauto. reflexivity.
Qed.

Lemma stats_filter (r q : file -> bool) (q' : jsstring * Z -> bool) (l : directory) :
  (forall g, In g l -> q' (fname g, fsize g) = q g) ->
  List.map (fun g => (fname g, fsize g)) (List.filter r (List.filter q l))
  = List.filter q' (List.map (fun g => (fname g, fsize g)) (List.filter r l)).
Proof.
  induction l as [|g l IH]; intros Hq'; simpl; [reflexivity|].
  pose proof (Hq' g (or_introl eq_refl)) as Hg.
  assert (forall h, In h l -> q' (fname h, fsize h) = q h) as Hl
    by (intros h Hh; apply Hq'; right; exact Hh).
  destruct (q g) eqn:Eq, (r g) eqn:Er; simpl;
    rewrite ?Er, ?Hg; simpl; rewrite (IH Hl); reflexivity.
Qed.

(** The candidate the final pass keeps is still the one it would keep once
    other entries are gone. *)
Lemma largest_mp4_filter (t : jsstring) (d : directory) (q : file -> bool) (f : file) :
  List.NoDup (readdir d) -> In f d -> q f = true ->
  largest_mp4 t d = Some (fname f) ->
  largest_mp4 t (List.filter q d) = Some (fname f).
Proof.
  intros Hnd Hf Hq. unfold largest_mp4.
  rewrite (stats_of_entries _ d Hnd),
    (stats_of_entries _ _ (readdir_filter_NoDup q d Hnd)).
  set (q' := fun p : jsstring * Z => existsb (fun g => has_name (fst p) g && q g) d).
  assert (forall g, In g d -> q' (fname g, fsize g) = q g) as Hq'.
  { intros g Hg. unfold q'. simpl. destruct (q g) eqn:E.
    - apply existsb_exists. exists g. split; [exact Hg|]. rewrite E, andb_true_r.
      apply has_name_true. reflexivity.
    - destruct (existsb _ d) eqn:Ex; [|reflexivity].
      apply existsb_exists in Ex. destruct Ex as [h [Hh Hand]].
      apply andb_true_iff in Hand. destruct Hand as [Hn Hqh]. apply has_name_true in Hn.
      rewrite (same_name_same_entry d h g Hnd Hh Hg Hn) in Hqh. congruence. }
  assert (List.map (fun g => (fname g, fsize g))
            (List.filter (fun g => is_final_mp4 t (fname g)) (List.filter q d))
          = List.filter q' (List.map (fun g => (fname g, fsize g))
                              (List.filter (fun g => is_final_mp4 t (fname g)) d))) as ->.
  { apply stats_filter. exact Hq'. }
  destruct (sort_by by_size_desc _) as [|[wn wsz] rest] eqn:Hs; [discriminate|].
  intros [= ->].
  destruct (sort_head_filter q' _ _ _ Hs) as [rest' ->]; [|reflexivity].
  assert (In (fname f, wsz) (List.map (fun g => (fname g, fsize g))
                               (List.filter (fun g => is_final_mp4 t (fname g)) d))) as Hin.
  { eapply Permutation_in; [apply sort_by_perm|]. rewrite Hs. left. reflexivity. }
  apply in_map_iff in Hin. destruct Hin as [g [Hg Hgd]]. apply List.filter_In in Hgd.
  injection Hg as Hname <-. rewrite <- Hname. rewrite (Hq' g) by tauto.
  rewrite (same_name_same_entry d g f Hnd) by tauto. exact Hq.
Qed.

(** The final pass over a listing with distinct names, in one filter. *)
Lemma finalCleanup_filter (t : jsstring) (d : directory) :
  List.NoDup (readdir d) -> finalCleanup t d = List.filter (final_keeps t d) d.
Proof.
  intros Hnd.
  destruct (Nat.le_gt_cases (length (List.filter (is_final_mp4 t) (readdir d))) 1)
    as [Hone | Hmany].
  - rewrite (finalCleanup_single t d Hone). apply filter_ext_in. intros f Hf.
    unfold final_keeps. destruct (isDirectory f); [apply orb_true_r|].
    rewrite orb_false_r. simpl.
    destruct (is_final_mp4 t (fname f)) eqn:Hfinal; [|reflexivity].
    rewrite (final_not_leftover _ _ Hfinal). simpl. symmetry. apply bool_decide_eq_true.
    unfold largest_mp4.
    assert (In (fname f) (List.filter (is_final_mp4 t) (readdir d))) as Hin
      by (apply List.filter_In; split; [unfold readdir; apply in_map; exact Hf | exact Hfinal]).
    destruct (List.filter (is_final_mp4 t) (readdir d)) as [|n [|n' l]];
      [destruct Hin | | simpl in Hone; lia].
    destruct Hin as [-> | []]. reflexivity.
  - destruct (finalCleanup_multi t d Hnd Hmany) as [w (_ & _ & Hlargest & _ & Heq)].
    rewrite Heq. apply filter_ext. intros f. unfold final_keeps. rewrite Hlargest.
    destruct (isDirectory f); [reflexivity|]. simpl.
    destruct (is_final_mp4 t (fname f)); [|reflexivity].
    unfold has_name, jsstring_eqb. apply bool_decide_ext. split; congruence.
Qed.

(** What the final pass leaves holds no leftover file and at most one final
    MP4 file. *)
Lemma finalCleanup_settled (t : jsstring) (d : directory) :
  List.NoDup (readdir d) ->
  List.NoDup (readdir (finalCleanup t d))
  /\ (forall f, In f (finalCleanup t d) -> isDirectory f = false ->
                is_leftover t (fname f) = false)
  /\ (length (List.filter (fun f => is_final_mp4 t (fname f) && negb (isDirectory f))
                          (finalCleanup t d)) <= 1)%nat.
Proof.
  intros Hnd. rewrite (finalCleanup_filter t d Hnd).
  split; [apply readdir_filter_NoDup, Hnd|]. split.
  - intros f Hf Hreg. apply List.filter_In in Hf. destruct Hf as [_ Hkeep].
    unfold final_keeps in Hkeep. rewrite Hreg in Hkeep. simpl in Hkeep.
    destruct (is_final_mp4 t (fname f)) eqn:Hfinal.
    + apply final_not_leftover, Hfinal.
    + apply negb_true_iff, Hkeep.
  - rewrite <- (List.length_map fname).
    apply (NoDup_constant _ (default [] (largest_mp4 t d))).
    + apply (readdir_filter_NoDup _ (List.filter (final_keeps t d) d)).
      apply readdir_filter_NoDup, Hnd.
    + intros n Hn. apply in_map_iff in Hn. destruct Hn as [f [<- Hf]].
      apply List.filter_In in Hf. destruct Hf as [Hf Hsel].
      apply List.filter_In in Hf. destruct Hf as [_ Hkeep].
      apply andb_true_iff in Hsel. destruct Hsel as [Hfinal Hreg].
      apply negb_true_iff in Hreg. unfold final_keeps in Hkeep.
      rewrite Hreg, Hfinal in Hkeep. simpl in Hkeep.
      apply bool_decide_eq_true in Hkeep. rewrite Hkeep. reflexivity.
Qed.

Lemma finalCleanup_idempotent (t : jsstring) (d : directory) :
  List.NoDup (readdir d) -> finalCleanup t (finalCleanup t d) = finalCleanup t d.
Proof.
  intros Hnd. rewrite (finalCleanup_filter t d Hnd).
  rewrite (finalCleanup_filter t _ (readdir_filter_NoDup _ d Hnd)).
  apply filter_all. intros f Hf. apply List.filter_In in Hf. destruct Hf as [Hf Hkeep].
  pose proof Hkeep as Hkeep'. unfold final_keeps in Hkeep |- *.
  destruct (isDirectory f); [reflexivity|]. simpl in Hkeep |- *.
  destruct (is_final_mp4 t (fname f)); [|exact Hkeep].
  apply bool_decide_eq_true in Hkeep. apply bool_decide_eq_true.
  apply largest_mp4_filter; assumption.
Qed.

(** C8.  A temp-file cleanup pass over a directory in which no entry meets
    its temporary-file criteria deletes nothing, and running the pass twice
    in a row leaves the directory as one run leaves it.  The same holds for
    the temp-file pass of the playlist handler, and a second run of the
    final pass (over a listing with distinct names) changes nothing
    either. *)
Theorem cleanupTempFiles_idempotent (sanitizedTitle : jsstring) (d : directory) :
  (forallb (fun f => negb (is_temp sanitizedTitle (fname f))) d = true
   -> cleanupTempFiles sanitizedTitle d = d)
  /\ cleanupTempFiles sanitizedTitle (cleanupTempFiles sanitizedTitle d)
     = cleanupTempFiles sanitizedTitle d
  /\ (forallb (fun f => negb (is_playlist_temp (fname f))) d = true
      -> cleanupPlaylistTemp d = d)
  /\ cleanupPlaylistTemp (cleanupPlaylistTemp d) = cleanupPlaylistTemp d
  /\ (List.NoDup (readdir d)
      -> finalCleanup sanitizedTitle (finalCleanup sanitizedTitle d)
         = finalCleanup sanitizedTitle d).
Proof.
  rewrite !cleanupTempFiles_filter, !cleanupPlaylistTemp_filter.
  repeat split.
  - intros H. apply filter_all. intros f Hf.
    rewrite (proj1 (forallb_forall _ d) H f Hf). reflexivity.
  - apply filter_idempotent.
  - intros H. apply filter_all. intros f Hf.
    rewrite (proj1 (forallb_forall _ d) H f Hf). reflexivity.
  - apply filter_idempotent.
  - apply finalCleanup_idempotent.
Qed.

End SweepFacts.

(** ** The metadata cache *)

Module CacheFacts.

Lemma cache_hit_eq (url : jsstring) (w : world) :
  cache_hit url w = (Return (cached w url), w).
Proof.
  unfold cache_hit, cached, bind, cache_get, date_now, ret.
  destruct (videoInfoCache w !! url) as [e|]; [|reflexivity].
  destruct (clock w - timestamp e <? CACHE_DURATION)%Z; reflexivity.
Qed.

(** [getVideoInfo] answers from the cache or goes through the fetch and
    the [catch] block. *)
Lemma getVideoInfo_eq (rt : runtime) (url : jsstring) (w : world) :
  getVideoInfo rt url w
  = match cached w url with
    | Some payload => (Return payload, w)
    | None => match fetchVideoInfo rt url w with
              | (Return v, w') => (Return v, w')
              | (Throw m, w') => (Throw (videoInfo_error m), w')
              end
    end.
Proof.
  unfold getVideoInfo, try_catch, bind. rewrite cache_hit_eq.
  destruct (cached w url); reflexivity.
Qed.

Lemma get_prop_after_title (info : jsval) (k : jsstring) (t : jsval) :
  get_prop info (js "title") = Return t ->
  get_prop info k = Return (prop_or_undefined info k).
Proof. unfold prop_or_undefined. destruct info; simpl; intros H; congruence. Qed.

(** The fetch in one piece: the guard, the command, the payload, the
    store. *)
Lemma fetchVideoInfo_eq (rt : runtime) (url : jsstring) (w : world) :
  fetchVideoInfo rt url w
  = if is_playlist_url url then (Throw playlist_url_error, w)
    else
      let inv := videoInfo_invocation url in
      let w1 := after_command rt inv w in
      match outcome (run_command rt (length (spawned w)) inv) with
      | Exited stdout _ =>
          match videoInfo_of rt stdout with
          | Return v =>
              (Return v, set_cache (<[url := {| data := v; timestamp := clock w1 |}]>
                                      (videoInfoCache w1)) w1)
          | Throw m => (Throw m, w1)
          end
      | failure => (Throw (default [] (exec_error (videoInfo_command url) failure)), w1)
      end.
Proof.
  unfold fetchVideoInfo. destruct (is_playlist_url url); [reflexivity|].
  unfold bind at 1. unfold execPromise, bind at 1, start.
  fold (videoInfo_invocation url). cbv zeta.
  fold (after_command rt (videoInfo_invocation url) w).
  destruct (outcome (run_command rt (length (spawned w)) (videoInfo_invocation url)))
    as [stdout stderr | which | stderr]; try reflexivity.
  unfold ret at 1. cbn [fst]. unfold videoInfo_of.
  destruct (no_output stdout); [reflexivity|].
  destruct (1 <? length (nonblank_lines stdout))%nat;
    (unfold bind at 1, lift at 1;
     match goal with |- context [JSON_parse rt ?x] =>
       destruct (JSON_parse rt x) as [info|m]; [|reflexivity] end;
     unfold bind at 1, lift at 1;
     destruct (get_prop info (js "title")) as [title|m] eqn:Htitle; [|reflexivity];
     destruct (negb (truthy title)); [reflexivity|];
     unfold bind, lift;
     rewrite !(get_prop_after_title info _ title Htitle);
     reflexivity).
Qed.

Lemma cached_some (w : world) (url : jsstring) (v : jsval) :
  cached w url = Some v ->
  exists e, videoInfoCache w !! url = Some e /\ data e = v
            /\ (clock w - timestamp e < CACHE_DURATION)%Z.
Proof.
  unfold cached. destruct (videoInfoCache w !! url) as [e|]; [|discriminate].
  destruct (Z.ltb_spec (clock w - timestamp e) CACHE_DURATION); [|discriminate].
  intros [= <-]. eauto.
Qed.

Lemma cached_fresh (w : world) (url : jsstring) (e : cache_entry) :
  videoInfoCache w !! url = Some e ->
  (clock w - timestamp e < CACHE_DURATION)%Z ->
  cached w url = Some (data e).
Proof.
  intros Hl Hlt. unfold cached. rewrite Hl.
  destruct (Z.ltb_spec (clock w - timestamp e) CACHE_DURATION); [reflexivity | lia].
Qed.

(** A successful lookup is a hit that leaves the world alone, or a miss
    that ran one command and stored what it returns. *)
Lemma getVideoInfo_return (rt : runtime) (url : jsstring) (w w1 : world) (v : jsval) :
  getVideoInfo rt url w = (Return v, w1) ->
  (cached w url = Some v /\ w1 = w)
  \/ (cached w url = None /\ is_playlist_url url = false
      /\ spawned w1 = videoInfo_invocation url :: spawned w
      /\ videoInfoCache w1 = <[url := {| data := v; timestamp := clock w1 |}]> (videoInfoCache w)).
Proof.
  rewrite getVideoInfo_eq. destruct (cached w url) as [p|] eqn:Hc.
  - intros [= <- <-]. left. auto.
  - rewrite fetchVideoInfo_eq. intros H. right.
    destruct (is_playlist_url url); [discriminate H|]. cbv zeta in H.
    destruct (outcome _) as [stdout stderr | which | stderr]; try discriminate H.
    destruct (videoInfo_of rt stdout) as [v'|m]; [|discriminate H].
    injection H as <- <-. repeat split.
Qed.

(** A failed lookup was a miss, ran at most one command and stored
    nothing. *)
Lemma getVideoInfo_throw (rt : runtime) (url : jsstring) (w w1 : world) (m : jsstring) :
  getVideoInfo rt url w = (Throw m, w1) ->
  cached w url = None
  /\ videoInfoCache w1 = videoInfoCache w
  /\ ((is_playlist_url url = true /\ w1 = w)
      \/ (is_playlist_url url = false
          /\ spawned w1 = videoInfo_invocation url :: spawned w)).
Proof.
  rewrite getVideoInfo_eq. destruct (cached w url) as [p|] eqn:Hc; [discriminate|].
  rewrite fetchVideoInfo_eq.
  destruct (is_playlist_url url).
  - intros [= _ <-]. auto.
  - cbv zeta. intros H. split; [reflexivity|].
    destruct (outcome _) as [stdout stderr | which | stderr];
      [destruct (videoInfo_of rt stdout) as [v'|m']; [discriminate|] | |];
      injection H as _ <-; split; auto.
Qed.

(** C1, amended.  When a lookup of [url] returns a payload, a later lookup
    of the same key made while the stored entry is younger than the
    retention window returns the identical payload and starts no command;
    the first lookup started exactly one command when it was a miss and
    none when it was itself a hit. *)
Theorem getVideoInfo_cached_within_window
    (rt : runtime) (url : jsstring) (w w1 w2 : world) (v : jsval) :
  getVideoInfo rt url w = (Return v, w1) ->
  videoInfoCache w2 !! url = videoInfoCache w1 !! url ->
  (forall e, videoInfoCache w1 !! url = Some e ->
             (clock w2 - timestamp e < CACHE_DURATION)%Z) ->
  getVideoInfo rt url w2 = (Return v, w2)
  /\ started_between w w1 = match cached w url with Some _ => 0%nat | None => 1%nat end.
Proof.
  intros Hfirst Hsame Hwindow.
  assert (exists e, videoInfoCache w1 !! url = Some e /\ data e = v) as [e [He Hdata]].
  { destruct (getVideoInfo_return _ _ _ _ _ Hfirst) as [[Hc ->] | (_ & _ & _ & Hcache)].
    - destruct (cached_some _ _ _ Hc) as [e [He [Hd _]]]. eauto.
    - rewrite Hcache, lookup_insert_eq. eauto. }
  split.
  - rewrite getVideoInfo_eq, (cached_fresh w2 url e); [rewrite Hdata; reflexivity | |].
    + rewrite Hsame. exact He.
    + apply Hwindow, He.
  - unfold started_between.
    destruct (getVideoInfo_return _ _ _ _ _ Hfirst) as [[Hc ->] | (Hc & _ & Hsp & _)];
      rewrite Hc; [lia|]. rewrite Hsp. simpl. lia.
Qed.

(** A miss at boot, then a second call one second after the first
    returned. *)
Lemma getVideoInfo_cached_within_window_witness :
  let w1 := snd (getVideoInfo rt_ok video_url (boot 0)) in
  let w2 := at_time (clock w1 + 1000) w1 in
  getVideoInfo rt_ok video_url w2
  = (Return (JObj [(js "title", JStr (js "My video")); (js "duration", JNum 212);
                   (js "thumbnail", JUndefined); (js "uploader", JUndefined);
                   (js "view_count", JUndefined)]), w2)
  /\ started_between (boot 0) w1 = 1%nat.
Proof.
  cbv zeta.
  apply (getVideoInfo_cached_within_window rt_ok video_url (boot 0)).
  - vm_compute. reflexivity.
  - reflexivity.
  - intros e He. vm_compute in He. injection He as <-. vm_compute. reflexivity.
Defined.

(** C1 as stated fails: when yt-dlp fails, two calls within the window
    return no payload and each of them starts a command. *)
Lemma getVideoInfo_failure_not_cached :
  exists m w1 w2,
    getVideoInfo rt_fail video_url (boot 0) = (Throw m, w1)
    /\ getVideoInfo rt_fail video_url w1 = (Throw m, w2)
    /\ (clock w1 - clock (boot 0) < CACHE_DURATION)%Z
    /\ started_between (boot 0) w1 = 1%nat
    /\ started_between w1 w2 = 1%nat.
Proof.
  eexists. eexists. eexists.
  split; [vm_compute; reflexivity|].
  split; [vm_compute; reflexivity|].
  split; [vm_compute; reflexivity|].
  split; reflexivity.
Qed.

Lemma filter_none (A : Type) (p : A -> bool) (l : list A) :
  (forall x, In x l -> p x = false) -> List.filter p l = [].
Proof.
  induction l as [|x l IH]; intros H; simpl; [reflexivity|].
  rewrite (H x (or_introl eq_refl)). apply IH. intros y Hy. apply H. right. exact Hy.
Qed.

(** A map holds one value per key. *)
Lemma entries_for_at_most_one (key : jsstring) (w : world) :
  (length (entries_for key w) <= 1)%nat.
Proof.
  unfold entries_for.
  pose proof (NoDup_fst_map_to_list (videoInfoCache w)) as Hnd.
  induction (map_to_list (videoInfoCache w)) as [|[k e] l IH]; simpl; [lia|].
  simpl in Hnd. apply NoDup_cons in Hnd. destruct Hnd as [Hk Hnd].
  unfold jsstring_eqb at 1. simpl. destruct (bool_decide_reflect (k = key)) as [->|].
  - simpl. assert (List.filter (fun p => jsstring_eqb (fst p) key) l = []) as ->; [|simpl; lia].
    apply filter_none.
    intros [k' e'] Hin. simpl. apply bool_decide_eq_false.
    intros ->. apply Hk. apply list_elem_of_In, in_map_iff. exists (key, e'). auto.
  - apply IH, Hnd.
Qed.

Lemma entries_for_lookup (key : jsstring) (w : world) (e : cache_entry) :
  videoInfoCache w !! key = Some e -> entries_for key w = [(key, e)].
Proof.
  intros Hl. pose proof (entries_for_at_most_one key w) as Hlen.
  assert (In (key, e) (entries_for key w)) as Hin.
  { unfold entries_for. apply List.filter_In. split.
    - apply list_elem_of_In, elem_of_map_to_list. exact Hl.
    - simpl. apply bool_decide_eq_true. reflexivity. }
  destruct (entries_for key w) as [|p [|q l]]; simpl in *; [tauto | | lia].
  destruct Hin as [-> | []]. reflexivity.
Qed.

(** C2, amended.  After every sequence of lookups the cache holds at most
    one entry per key.  A lookup that finds no fresh entry (a miss or an
    expired entry) and whose fetch succeeds starts exactly one command and
    puts its entry in the place of the prior one: the key then has that
    single entry, and no other key is added or changed.  A lookup that
    fails starts at most one command and leaves the cache as it was. *)
Theorem cache_one_entry_per_key (rt : runtime) :
  (forall calls w key, (length (entries_for key (lookups rt calls w)) <= 1)%nat)
  /\ (forall url w w1 v,
        cached w url = None -> getVideoInfo rt url w = (Return v, w1) ->
        started_between w w1 = 1%nat
        /\ videoInfoCache w1
           = <[url := {| data := v; timestamp := clock w1 |}]> (videoInfoCache w)
        /\ entries_for url w1 = [(url, {| data := v; timestamp := clock w1 |})]
        /\ dom (videoInfoCache w1) = {[url]} ∪ dom (videoInfoCache w))
  /\ (forall url w w1 m,
        getVideoInfo rt url w = (Throw m, w1) ->
        videoInfoCache w1 = videoInfoCache w /\ (started_between w w1 <= 1)%nat).
Proof.
  split; [|split].
  - intros calls w key. apply entries_for_at_most_one.
  - intros url w w1 v Hmiss Hcall.
    destruct (getVideoInfo_return _ _ _ _ _ Hcall) as [[Hc _] | (_ & _ & Hsp & Hcache)];
      [congruence|].
    split; [unfold started_between; rewrite Hsp; simpl; lia|].
    split; [exact Hcache|]. split.
    + apply entries_for_lookup. rewrite Hcache. apply lookup_insert_eq.
    + rewrite Hcache. apply dom_insert_L.
  - intros url w w1 m Hcall.
    destruct (getVideoInfo_throw _ _ _ _ _ Hcall) as (_ & Hcache & [[_ ->] | [_ Hsp]]);
      (split; [exact Hcache|]); unfold started_between; [|rewrite Hsp; simpl]; lia.
Qed.

(** C2 as stated fails: a lookup after expiry whose fetch fails starts a
    command and the expired entry stays in place; a lookup of a playlist
    URL misses and starts no command. *)
Lemma expired_entry_survives_failed_fetch :
  exists m w1,
    cached (with_old_entry 400000) video_url = None
    /\ getVideoInfo rt_fail video_url (with_old_entry 400000) = (Throw m, w1)
    /\ started_between (with_old_entry 400000) w1 = 1%nat
    /\ videoInfoCache w1 !! video_url
       = Some {| data := JObj [(js "title", JStr (js "Old title"))]; timestamp := 0 |}
    /\ cached (boot 0) collection_url = None
    /\ getVideoInfo rt_ok collection_url (boot 0) = (Throw msg_select_playlist, boot 0).
Proof.
  eexists. eexists.
  split; [reflexivity|].
  split; [vm_compute; reflexivity|].
  repeat split; vm_compute; reflexivity.
Qed.

End CacheFacts.

(** ** Playlist URLs never enter the cache *)

Module PlaylistGuard.
Import CacheFacts.

Local Open Scope js_scope.

Create HintDb keeps discriminated.

Lemma untouched_keeps (A : Type) (m : M A) : cache_untouched m -> keeps_playlist_free m.
Proof.
  intros Hm w r w' Hw Hrun k e Hk. rewrite (Hm _ _ _ Hrun) in Hk. exact (Hw k e Hk).
Qed.

Lemma untouched_ret (A : Type) (a : A) : cache_untouched (ret a).
Proof. intros w r w' [= _ <-]. reflexivity. Qed.

Lemma untouched_throw (A : Type) (m : jsstring) : cache_untouched (@throw A m).
Proof. intros w r w' [= _ <-]. reflexivity. Qed.

Lemma untouched_lift (A : Type) (x : result A) : cache_untouched (lift x).
Proof. intros w r w' [= _ <-]. reflexivity. Qed.

Lemma untouched_date_now : cache_untouched date_now.
Proof. intros w r w' [= _ <-]. reflexivity. Qed.

Lemma untouched_start (rt : runtime) (inv : invocation) : cache_untouched (start rt inv).
Proof. intros w r w' [= _ <-]. reflexivity. Qed.

Lemma untouched_spawn (inv : invocation) : cache_untouched (spawn inv).
Proof. intros w r w' [= _ <-]. reflexivity. Qed.

Lemma untouched_pass (dt : Z) f : cache_untouched (pass dt f).
Proof. intros w r w' [= _ <-]. reflexivity. Qed.

Lemma untouched_ensure_dir (rt : runtime) (parent name : jsstring) :
  cache_untouched (ensure_dir rt parent name).
Proof.
  intros w r w'. unfold ensure_dir, bind, existsSync, mkdirSync, ret.
  destruct (match files w !! path_join parent name with Some _ => _ | None => _ end);
    intros [= _ <-]; reflexivity.
Qed.

Lemma untouched_readdirSync (dir : jsstring) : cache_untouched (readdirSync dir).
Proof.
  intros w r w'. unfold readdirSync. destruct (files w !! dir); intros [= _ <-]; reflexivity.
Qed.

Lemma untouched_in_directory (dir : jsstring) f : cache_untouched (in_directory dir f).
Proof.
  intros w r w'. unfold in_directory. destruct (files w !! dir); intros [= _ <-]; reflexivity.
Qed.

Lemma keeps_bind (A B : Type) (m : M A) (k : A -> M B) :
  keeps_playlist_free m -> (forall a, keeps_playlist_free (k a)) ->
  keeps_playlist_free (bind m k).
Proof.
  intros Hm Hk w r w' Hw. unfold bind.
  destruct (m w) as [[a|e] w1] eqn:E.
  - apply (Hk a). exact (Hm _ _ _ Hw E).
  - intros [= _ <-]. exact (Hm _ _ _ Hw E).
Qed.

Lemma keeps_try_catch (A : Type) (m : M A) (h : jsstring -> M A) :
  keeps_playlist_free m -> (forall e, keeps_playlist_free (h e)) ->
  keeps_playlist_free (try_catch m h).
Proof.
  intros Hm Hh w r w' Hw. unfold try_catch.
  destruct (m w) as [[a|e] w1] eqn:E.
  - intros [= _ <-]. exact (Hm _ _ _ Hw E).
  - apply (Hh e). exact (Hm _ _ _ Hw E).
Qed.

Lemma keeps_getVideoInfo (rt : runtime) (url : jsstring) :
  keeps_playlist_free (getVideoInfo rt url).
Proof.
  intros w [v|m] w' Hw Hrun.
  - destruct (getVideoInfo_return _ _ _ _ _ Hrun) as [[_ ->] | (_ & Hurl & _ & Hcache)];
      [exact Hw|].
    intros k e. rewrite Hcache, lookup_insert.
    destruct (decide (url = k)) as [<-|]; [intros _; exact Hurl | apply Hw].
  - destruct (getVideoInfo_throw _ _ _ _ _ Hrun) as (_ & Hcache & _).
    intros k e. rewrite Hcache. apply Hw.
Qed.

#[local] Hint Resolve untouched_keeps untouched_ret untouched_throw untouched_lift
  untouched_date_now untouched_start untouched_spawn untouched_pass
  untouched_ensure_dir untouched_readdirSync untouched_in_directory
  keeps_getVideoInfo : keeps.

(** Walks down a handler: binds and handlers by the lemmas above,
    conditionals and matches by cases, leaves from the hint database. *)
Ltac keeps :=
  repeat first
    [ solve [auto with keeps]
    | apply keeps_bind; [|intros ?]
    | apply keeps_try_catch; [|intros ?]
    | progress cbv zeta
    | match goal with
      | |- keeps_playlist_free (if ?b then _ else _) => destruct b
      | |- keeps_playlist_free (match ?x with _ => _ end) => destruct x
      end ].

Lemma keeps_execPromise (rt : runtime) (cmd : jsstring) (o : exec_options) :
  keeps_playlist_free (execPromise rt cmd o).
Proof. unfold execPromise. keeps. Qed.

#[local] Hint Resolve keeps_execPromise : keeps.

Lemma keeps_getPlaylistInfo (rt : runtime) (url : jsstring) :
  keeps_playlist_free (getPlaylistInfo rt url).
Proof. unfold getPlaylistInfo. keeps. Qed.

Lemma keeps_sanitized_title_of (info : jsval) : keeps_playlist_free (sanitized_title_of info).
Proof. unfold sanitized_title_of. keeps. Qed.

#[local] Hint Resolve keeps_getPlaylistInfo keeps_sanitized_title_of : keeps.

Lemma keeps_handleVideoDownload rt b : keeps_playlist_free (handleVideoDownload rt b).
Proof. unfold handleVideoDownload. keeps. Qed.

Lemma keeps_handleAudioDownload rt b : keeps_playlist_free (handleAudioDownload rt b).
Proof. unfold handleAudioDownload. keeps. Qed.

Lemma keeps_handlePlaylistDownload rt b : keeps_playlist_free (handlePlaylistDownload rt b).
Proof. unfold handlePlaylistDownload. keeps. Qed.

#[local] Hint Resolve keeps_handleVideoDownload keeps_handleAudioDownload
  keeps_handlePlaylistDownload : keeps.

(** Every handler keeps the cache free of playlist keys. *)
Lemma keeps_handle (rt : runtime) (ep : endpoint) (b : request_body) :
  keeps_playlist_free (handle rt ep b).
Proof.
  destruct ep; simpl;
    unfold api_info, api_download_video, api_download, api_download_playlist,
      api_download_audio, api_formats; keeps.
Qed.

Lemma keeps_on_child_exit rt j o s : keeps_playlist_free (on_child_exit rt j o s).
Proof.
  unfold on_child_exit, on_video_exit, on_audio_exit, on_playlist_exit,
    on_playlistRoute_exit. keeps.
Qed.

#[local] Hint Resolve keeps_handle keeps_on_child_exit : keeps.

Lemma keeps_supervise rt j cb : keeps_playlist_free (supervise rt j cb).
Proof.
  unfold supervise, timeout_then_exit, exit_then_timeout. keeps.
Qed.

#[local] Hint Resolve keeps_supervise : keeps.

(** A whole request, from its arrival to the last event of its download,
    and every cleanup timer, keep the cache free of playlist keys. *)
Lemma keeps_serve rt ep b cb : keeps_playlist_free (serve rt ep b cb).
Proof. unfold serve. keeps. Qed.

Lemma keeps_run_task rt t : keeps_playlist_free (run_task rt t).
Proof. unfold run_task. keeps. Qed.

Lemma boot_playlist_free (t : Z) : playlist_free (boot t).
Proof. intros k e. unfold boot. simpl. rewrite lookup_empty. discriminate. Qed.

Lemma lookups_playlist_free (rt : runtime) (calls : list (jsstring * Z)) :
  forall w, playlist_free w -> playlist_free (lookups rt calls w).
Proof.
  induction calls as [|[url t] calls IH]; intros w Hw; simpl; [exact Hw|].
  apply IH.
  destruct (getVideoInfo rt url _) as [r w'] eqn:E. simpl.
  eapply keeps_getVideoInfo; [|exact E]. exact Hw.
Qed.

(** Every world the server reaches has a cache free of playlist keys. *)
Lemma reachable_playlist_free (rt : runtime) (w : world) :
  reachable rt w -> playlist_free w.
Proof.
  induction 1 as [t fs | w w' url r _ IH Hrun | w w' ep b cb r _ IH Hrun
                 | w w' t r _ IH Hrun | w t fs _ IH].
  - intros k e. simpl. rewrite lookup_empty. discriminate.
  - exact (keeps_getVideoInfo rt url w r w' IH Hrun).
  - exact (keeps_serve rt ep b cb w r w' IH Hrun).
  - exact (keeps_run_task rt t w r w' IH Hrun).
  - exact IH.
Qed.

Lemma playlist_url_not_cached (w : world) (url : jsstring) :
  is_playlist_url url = true -> playlist_free w -> cached w url = None.
Proof.
  intros Hurl Hw. unfold cached.
  destruct (videoInfoCache w !! url) as [e|] eqn:E; [|reflexivity].
  rewrite (Hw url e E) in Hurl. discriminate Hurl.
Qed.

Lemma getVideoInfo_playlist (rt : runtime) (url : jsstring) (w : world) :
  is_playlist_url url = true -> playlist_free w ->
  getVideoInfo rt url w = (Throw msg_select_playlist, w).
Proof.
  intros Hurl Hw.
  rewrite getVideoInfo_eq, (playlist_url_not_cached w url Hurl Hw), fetchVideoInfo_eq, Hurl.
  reflexivity.
Qed.

Lemma missing_some (url : jsstring) : is_playlist_url url = true -> missing (Some url) = false.
Proof. destruct url; [discriminate | reflexivity]. Qed.

(** C5.  In every world the server reaches, [getVideoInfo] on a URL that
    contains 'playlist' or 'list=' throws the error that sends the caller
    to the playlist download ('... Please select "Entire Playlist" as
    download type.'), and the world is unchanged: no command was started
    and nothing was cached.  The single-video download endpoints answer
    that message with status 500. *)
Theorem getVideoInfo_rejects_playlist_url (rt : runtime) (url : jsstring) (w : world) :
  includes url (js "playlist") = true \/ includes url (js "list=") = true ->
  reachable rt w ->
  getVideoInfo rt url w = (Throw msg_select_playlist, w)
  /\ includes msg_select_playlist (js "Entire Playlist") = true
  /\ (forall b, Handlers.url b = Some url ->
        api_download_video rt b w
        = (Return (Responded (error_json 500 msg_select_playlist)), w)
        /\ api_download_audio rt b w
           = (Return (Responded (error_json 500 msg_select_playlist)), w)).
Proof.
  intros Hmarker Hreach.
  pose proof (reachable_playlist_free rt w Hreach) as Hw.
  assert (is_playlist_url url = true) as Hurl.
  { unfold is_playlist_url. apply orb_true_iff. exact Hmarker. }
  split; [apply getVideoInfo_playlist; assumption|].
  split; [reflexivity|].
  intros b Hb.
  unfold api_download_video, api_download_audio, try_catch, bind.
  rewrite Hb, (missing_some url Hurl). simpl default.
  rewrite (getVideoInfo_playlist rt url w Hurl Hw). split; reflexivity.
Qed.

(** A watch URL with a [list=] parameter, on a server that has served one
    video lookup since it started. *)
Lemma getVideoInfo_rejects_playlist_url_witness :
  let w := snd (getVideoInfo rt_ok video_url (boot 0)) in
  getVideoInfo rt_ok collection_url w = (Throw msg_select_playlist, w)
  /\ includes msg_select_playlist (js "Entire Playlist") = true
  /\ (forall b, Handlers.url b = Some collection_url ->
        api_download_video rt_ok b w
        = (Return (Responded (error_json 500 msg_select_playlist)), w)
        /\ api_download_audio rt_ok b w
           = (Return (Responded (error_json 500 msg_select_playlist)), w)).
Proof.
  cbv zeta.
  apply (getVideoInfo_rejects_playlist_url rt_ok collection_url).
  - right. vm_compute. reflexivity.
  - eapply reach_lookup; [apply (reach_boot rt_ok 0 ∅)|].
    apply surjective_pairing.
Defined.

End PlaylistGuard.

(** ** Input validation *)

Module Validation.

Lemma handle_missing_url (rt : runtime) (ep : endpoint) (b : request_body) (w : world) :
  missing (url b) = true -> handle rt ep b w = (Return (Responded url_required), w).
Proof.
  intros Hmissing.
  destruct ep; simpl;
    unfold api_info, api_download_video, api_download, api_download_playlist,
      api_download_audio, api_formats, try_catch;
    cbv zeta; rewrite Hmissing; reflexivity.
Qed.

(** C6.  On each of the endpoints that take a target URL (info, the three
    download routes, the unified download, formats), a request whose body
    has no [url] field is answered with status 400 and the error message
    'URL is required', and the world is unchanged: no command has been
    started and the cache is as before. *)
Theorem missing_url_is_rejected
    (rt : runtime) (ep : endpoint) (b : request_body) (w : world) :
  url b = None ->
  handle rt ep b w = (Return (Responded url_required), w)
  /\ status url_required = 400%Z
  /\ body url_required = JObj [(js "error", JStr (js "URL is required"))].
Proof.
  intros Hnone. split; [|split; reflexivity].
  apply handle_missing_url. rewrite Hnone. reflexivity.
Qed.

(** The six endpoints on a request without [url], with commands already
    in the list of started ones. *)
Lemma missing_url_is_rejected_witness :
  Forall (fun ep => handle rt_ok ep body_without_url (with_old_entry 5)
                    = (Return (Responded url_required), with_old_entry 5)
                    /\ status url_required = 400%Z
                    /\ body url_required = JObj [(js "error", JStr (js "URL is required"))])
         all_endpoints.
Proof.
  unfold all_endpoints.
  repeat (apply List.Forall_cons;
          [apply (missing_url_is_rejected rt_ok _ body_without_url (with_old_entry 5));
           reflexivity|]).
  apply List.Forall_nil.
Defined.

(** An empty [url] is as good as none. *)
Example empty_url_rejected (rt : runtime) (ep : endpoint) (w : world) :
  handle rt ep {| url := Some []; quality := None; type := None |} w
  = (Return (Responded url_required), w).
Proof. apply handle_missing_url. reflexivity. Qed.

End Validation.

(** ** Output beyond [maxBuffer] *)

Module Overflow.
Import CacheFacts.

Lemma videoInfo_error_overflow (s : stdio) :
  videoInfo_error (stdio_name s ++ js " maxBuffer length exceeded") = msg_video_too_large.
Proof. destruct s; reflexivity. Qed.

Lemma playlistInfo_error_overflow (s : stdio) :
  playlistInfo_error (stdio_name s ++ js " maxBuffer length exceeded")
  = msg_playlist_too_large.
Proof. destruct s; reflexivity. Qed.

Lemma getVideoInfo_overflow (rt : runtime) (url : jsstring) (w : world) (s : stdio) :
  cached w url = None -> is_playlist_url url = false ->
  outcome (run_command rt (length (spawned w)) (videoInfo_invocation url))
  = MaxBufferExceeded s ->
  getVideoInfo rt url w
  = (Throw msg_video_too_large, after_command rt (videoInfo_invocation url) w).
Proof.
  intros Hmiss Hurl Hout.
  rewrite getVideoInfo_eq, Hmiss, fetchVideoInfo_eq, Hurl. cbv zeta. rewrite Hout.
  simpl exec_error. simpl default. rewrite videoInfo_error_overflow. reflexivity.
Qed.

Lemma getPlaylistInfo_overflow (rt : runtime) (url : jsstring) (w : world) (s : stdio) :
  outcome (run_command rt (length (spawned w)) (playlistInfo_invocation url))
  = MaxBufferExceeded s ->
  getPlaylistInfo rt url w
  = (Throw msg_playlist_too_large, after_command rt (playlistInfo_invocation url) w).
Proof.
  intros Hout.
  unfold getPlaylistInfo, try_catch, bind at 1, execPromise, bind at 1, start.
  fold (playlistInfo_invocation url). rewrite Hout.
  unfold throw. simpl exec_error. simpl default.
  rewrite playlistInfo_error_overflow. reflexivity.
Qed.

(** Every completion callback answers a failed child through one
    response, whatever made it fail. *)
Lemma on_child_exit_failure (rt : runtime) (j : job) (o : exec_outcome) (m : jsstring)
    (s : supervised) (w : world) :
  exec_error (command (child j)) o = Some m ->
  on_child_exit rt j o s w
  = (Return (respond_unless_sent (error_json 500 (failure_message (callback j) m))
                                 (exited o s)), w).
Proof.
  intros Herr. unfold on_child_exit. rewrite Herr.
  destruct (callback j); reflexivity.
Qed.

(** C9, amended.  A metadata lookup whose command exceeds [maxBuffer]
    throws the dedicated message 'Video info too large ...', and a playlist
    lookup throws 'Playlist too large ...'; neither returns a payload.  A
    download whose command exceeds [maxBuffer] is answered as any other
    failed download is: status 500 with the callback's generic failure
    text, to which the video and unified playlist callbacks append the
    error message and the audio and playlist-route callbacks append
    nothing. *)
Theorem overflow_is_reported
    (rt : runtime) (url : jsstring) (w : world) (s : stdio) :
  (cached w url = None -> is_playlist_url url = false ->
   outcome (run_command rt (length (spawned w)) (videoInfo_invocation url))
   = MaxBufferExceeded s ->
   getVideoInfo rt url w
   = (Throw msg_video_too_large, after_command rt (videoInfo_invocation url) w))
  /\ (outcome (run_command rt (length (spawned w)) (playlistInfo_invocation url))
      = MaxBufferExceeded s ->
      getPlaylistInfo rt url w
      = (Throw msg_playlist_too_large, after_command rt (playlistInfo_invocation url) w))
  /\ (forall j st,
        on_child_exit rt j (MaxBufferExceeded s) st w
        = (Return (respond_unless_sent
                     (error_json 500
                        (failure_message (callback j)
                           (stdio_name s ++ js " maxBuffer length exceeded")))
                     (exited (MaxBufferExceeded s) st)), w))
  /\ (forall j stderr st,
        on_child_exit rt j (CommandFailed stderr) st w
        = (Return (respond_unless_sent
                     (error_json 500
                        (failure_message (callback j)
                           (js "Command failed: " ++ command (child j) ++ [newline]
                            ++ stderr)))
                     (exited (CommandFailed stderr) st)), w)).
Proof.
  split; [apply getVideoInfo_overflow|].
  split; [apply getPlaylistInfo_overflow|].
  split; intros; apply on_child_exit_failure; reflexivity.
Qed.

(** C9 as stated fails for downloads: an audio download that overflows its
    buffer and one that fails for another reason get the same answer, and
    the answer to a video download that overflows is the generic
    'Download failed: ' text followed by the error message. *)
Lemma download_overflow_answered_as_failure :
  answer (serve rt_ok ApiDownloadAudio (body_with video_url) child_overflows (boot 0))
  = Some (error_json 500 (js "Audio download failed"))
  /\ answer (serve rt_ok ApiDownloadAudio (body_with video_url) child_fails (boot 0))
     = Some (error_json 500 (js "Audio download failed"))
  /\ answer (serve rt_ok ApiDownloadVideo (body_with video_url) child_overflows (boot 0))
     = Some (error_json 500 (js "Download failed: stdout maxBuffer length exceeded")).
Proof. repeat split; vm_compute; reflexivity. Qed.

(** Lookups of a video and of a playlist whose output overflows. *)
Lemma overflow_is_reported_witness :
  getVideoInfo rt_overflow video_url (boot 0)
  = (Throw msg_video_too_large,
     after_command rt_overflow (videoInfo_invocation video_url) (boot 0))
  /\ getPlaylistInfo rt_overflow collection_url (boot 0)
     = (Throw msg_playlist_too_large,
        after_command rt_overflow (playlistInfo_invocation collection_url) (boot 0)).
Proof.
  destruct (overflow_is_reported rt_overflow video_url (boot 0) Stdout) as [Hvideo _].
  destruct (overflow_is_reported rt_overflow collection_url (boot 0) Stdout)
    as (_ & Hplaylist & _).
  split; [apply Hvideo | apply Hplaylist]; reflexivity.
Defined.

End Overflow.

(** ** The timeout timer *)

Module Watchdog.
Import Overflow.

Local Open Scope js_scope.

Section Returns.

Context {A : Type} (P : A -> Prop).

Lemma returns_ret (a : A) : P a -> returns P (ret a).
Proof. intros Ha w a' w' [= <- _]. exact Ha. Qed.

Lemma returns_throw (m : jsstring) : returns P (throw m).
Proof. intros w a w' [=]. Qed.

Lemma returns_bind (B : Type) (m : M B) (k : B -> M A) :
  (forall b, returns P (k b)) -> returns P (bind m k).
Proof.
  intros Hk w a w'. unfold bind. destruct (m w) as [[b|e] w1]; [apply Hk | intros [=]].
Qed.

Lemma returns_try_catch (m : M A) (h : jsstring -> M A) :
  returns P m -> (forall e, returns P (h e)) -> returns P (try_catch m h).
Proof.
  intros Hm Hh w a w'. unfold try_catch. destruct (m w) as [[a'|e] w1] eqn:E.
  - intros [= <- <-]. exact (Hm _ _ _ E).
  - apply Hh.
Qed.

End Returns.

Ltac returns :=
  repeat first
    [ apply returns_ret; simpl; solve [trivial | reflexivity]
    | apply returns_throw
    | apply returns_bind; intros ?
    | apply returns_try_catch; [|intros ?]
    | progress cbv zeta
    | match goal with
      | |- returns _ (if ?b then _ else _) => destruct b
      end ].

(** The timer every handler sets for the download it starts. *)
Lemma handle_watchdog (rt : runtime) (ep : endpoint) (b : request_body) :
  returns (watched_by (configured_watchdog ep b)) (handle rt ep b).
Proof.
  destruct ep; simpl.
  - unfold api_info. returns.
  - unfold api_download_video. returns.
  - unfold api_download.
    apply returns_try_catch; [|intros ?; returns]. cbv zeta.
    destruct (missing (url b)); [returns|].
    destruct (quality_is _ "playlist"); [unfold handlePlaylistDownload; returns|].
    destruct (quality_is _ "audio"); [unfold handleAudioDownload; returns|].
    unfold handleVideoDownload; returns.
  - unfold api_download_playlist. returns.
  - unfold api_download_audio. returns.
  - unfold api_formats. returns.
Qed.

(** The timer callback signals a running child whether or not a response
    has been sent, and answers only when none has. *)
Lemma on_timeout_running (message : jsstring) (s : supervised) :
  child_state s = Running -> killed s = false ->
  child_state (on_timeout message s) = Signalled
  /\ killed (on_timeout message s) = true
  /\ sent (on_timeout message s)
     = match sent s with
       | Some r => Some r
       | None => Some (error_json 500 message)
       end.
Proof.
  intros Hrun Hk. unfold on_timeout, kill, respond_unless_sent, headersSent.
  rewrite Hk, Hrun. simpl. destruct (sent s); simpl; auto.
Qed.

(** Each handler pairs its completion callback with its own timer. *)
Lemma handle_timer_fits (rt : runtime) (ep : endpoint) (b : request_body) :
  returns timer_fits_callback (handle rt ep b).
Proof.
  destruct ep; simpl;
    unfold api_info, api_download_video, api_download, api_download_playlist,
      api_download_audio, api_formats, handlePlaylistDownload, handleAudioDownload,
      handleVideoDownload;
    returns.
Qed.

(** The callback of a child whose request has been answered: the answer
    stands, whatever the callback is handed and whether or not it
    throws. *)
Lemma on_child_exit_after_answer (rt : runtime) (j : job) (o : exec_outcome)
    (s : supervised) (r : response) (w : world) :
  sent s = Some r ->
  exists s', on_child_exit rt j o s w = (Return s', w)
    /\ sent s' = Some r /\ child_state s' = Gone
    /\ killed s' = killed s || overflowed o.
Proof.
  intros Hsent.
  unfold on_child_exit, try_catch, on_video_exit, on_audio_exit, on_playlist_exit,
    on_playlistRoute_exit, bind, date_now, readdirSync, ret.
  destruct (callback j); destruct (exec_error _ o);
    repeat match goal with
           | |- context [files w !! ?dir] => destruct (files w !! dir) as [d|]
           | |- context [match List.filter ?p ?l with _ => _ end] =>
               destruct (List.filter p l)
           end;
    (eexists; split; [reflexivity|]);
    unfold respond_unless_sent, headersSent, set_timer, exited, crashed; simpl;
    rewrite ?Hsent; simpl; auto.
Qed.

(** A timer that fires on a running child: [kill()] is called, the caller
    is answered with the timer's message, and the answer stands when the
    child's end reaches the callback later. *)
Lemma timeout_then_exit_spec (rt : runtime) (j : job) (cb : child_behaviour)
    (after : Z) (message : jsstring) (w : world) :
  exists s,
    timeout_then_exit rt j cb after message w
    = (Return s,
       {| videoInfoCache := videoInfoCache w; clock := (clock w + after)%Z;
          spawned := spawned w; files := killed_writes cb (files w) |})
    /\ killed s = true
    /\ sent s = Some (error_json 500 message)
    /\ child_state s = match killed_exit cb with Some _ => Gone | None => Signalled end.
Proof.
  unfold timeout_then_exit, bind, pass.
  destruct (killed_exit cb) as [o|].
  - edestruct (on_child_exit_after_answer rt j o (on_timeout message fresh)
                 (error_json 500 message)) as (s & -> & Hsent & Hgone & Hk);
      [reflexivity|].
    exists s. split; [reflexivity|]. rewrite Hk. auto.
  - eexists. split; [reflexivity|]. auto.
Qed.

(** C7.  The handlers that set a timeout timer for the download they start
    are [/api/download/video] and [handleVideoDownload], 10 minutes, and
    [handlePlaylistDownload], 30 minutes.  When the download is still
    running as the timer fires, [childProcess.kill()] is called on it,
    which sends SIGTERM and sets [killed], and the caller gets status 500
    with the timer's message; this answer stands whatever reaches the
    [exec] callback later.  The child is known to be gone only once that
    callback has been called.  The timer callback signals a running child
    also when a response has already been sent, in which case that
    response stands. *)
Theorem timeout_kills_and_reports
    (rt : runtime) (ep : endpoint) (b : request_body) (cb : child_behaviour)
    (w w1 : world) (j : job) :
  handle rt ep b w = (Return (Started j), w1) ->
  watchdog j = configured_watchdog ep b
  /\ match callback j with
     | VideoDone _ =>
         watchdog j = Some (600000%Z, js "Download timeout after 10 minutes")
     | PlaylistDone _ _ _ =>
         watchdog j = Some (1800000%Z, js "Playlist download timeout after 30 minutes")
     | AudioDone _ | PlaylistRouteDone _ => watchdog j = None
     end
  /\ (forall after message,
        watchdog j = Some (after, message) -> exceeds cb after ->
        exists s w2,
          supervise rt j cb w1 = (Return s, w2)
          /\ killed s = true
          /\ sent s = Some (error_json 500 message)
          /\ clock w2 = (clock w1 + after)%Z
          /\ child_state s = match killed_exit cb with
                             | Some _ => Gone
                             | None => Signalled
                             end)
  /\ (forall message s, child_state s = Running -> killed s = false ->
        child_state (on_timeout message s) = Signalled
        /\ killed (on_timeout message s) = true
        /\ sent (on_timeout message s)
           = match sent s with
             | Some r => Some r
             | None => Some (error_json 500 message)
             end).
Proof.
  intros Hstart.
  split; [exact (handle_watchdog rt ep b w _ w1 Hstart)|].
  split; [exact (handle_timer_fits rt ep b w _ w1 Hstart)|].
  split; [|intros message s; apply on_timeout_running].
  intros after message Hwatch Hexceeds.
  destruct (timeout_then_exit_spec rt j cb after message w1) as (s & Hrun & Hk & Hsent & Hst).
  assert (supervise rt j cb w1 = timeout_then_exit rt j cb after message w1) as Hsup.
  { unfold supervise. rewrite Hwatch. unfold exceeds in Hexceeds.
    destruct (exits_after cb) as [lifetime|]; [|reflexivity].
    destruct (Z.ltb_spec after lifetime); [reflexivity | lia]. }
  rewrite Hsup, Hrun. exists s. eexists. split; [reflexivity|]. simpl. auto.
Qed.

(** A video download that never exits by itself: the timer answers after
    ten minutes and the exit of the signalled child reaches the
    callback. *)
Lemma timeout_kills_and_reports_witness :
  let started := handle rt_ok ApiDownloadVideo (body_with video_url) (boot 0) in
  exists j, fst started = Return (Started j)
    /\ watchdog j = Some (600000%Z, js "Download timeout after 10 minutes")
    /\ exists s w2,
         supervise rt_ok j child_hangs (snd started) = (Return s, w2)
         /\ killed s = true
         /\ sent s = Some (error_json 500 (js "Download timeout after 10 minutes"))
         /\ clock w2 = (clock (snd started) + 600000)%Z
         /\ child_state s = Gone.
Proof.
  cbv zeta.
  destruct (handle rt_ok ApiDownloadVideo (body_with video_url) (boot 0))
    as [[[r|j]|m] w1] eqn:Hstart; try (vm_compute in Hstart; discriminate Hstart).
  exists j. split; [reflexivity|].
  destruct (timeout_kills_and_reports rt_ok ApiDownloadVideo (body_with video_url)
              child_hangs (boot 0) w1 j Hstart) as (Hcfg & _ & Htimeout & _).
  split; [exact Hcfg|].
  exact (Htimeout _ _ Hcfg I).
Defined.

(** C7 as stated fails twice.  An audio download has no timer: a child
    that never exits is never signalled and the caller is never answered.
    And [kill()] only sends a signal: when the end of the signalled child
    does not reach the callback, the video download is answered after ten
    minutes while the child is not known to be gone. *)
Lemma unwatched_or_unterminated_download :
  (exists j s w2,
     fst (handle rt_ok ApiDownloadAudio (body_with video_url) (boot 0)) = Return (Started j)
     /\ watchdog j = None
     /\ supervise rt_ok j child_hangs
          (snd (handle rt_ok ApiDownloadAudio (body_with video_url) (boot 0)))
        = (Return s, w2)
     /\ sent s = None /\ killed s = false /\ child_state s = Running)
  /\ (exists j s w2,
        fst (handle rt_ok ApiDownloadVideo (body_with video_url) (boot 0))
        = Return (Started j)
        /\ supervise rt_ok j child_outlives_kill
             (snd (handle rt_ok ApiDownloadVideo (body_with video_url) (boot 0)))
           = (Return s, w2)
        /\ sent s = Some (error_json 500 (js "Download timeout after 10 minutes"))
        /\ killed s = true /\ child_state s = Signalled).
Proof.
  split; eexists; eexists; eexists; repeat split; vm_compute; reflexivity.
Qed.

End Watchdog.

(** ** A request from end to end *)

Module EndToEnd.

(** A video download that succeeds: the handler answers with the merged
    file, four cleanup timers are set, and after they have fired only the
    merged file is left. *)
Example video_download_served :
  let r := serve rt_ok ApiDownloadVideo (body_with video_url) child_downloads
             (server_started 0) in
  answer r = Some (download_json (js "My_video.mp4") true)
  /\ tasks_of r = [(46200%Z, CleanupTempFiles (js "My_video"));
                   (48200%Z, CleanupTempFiles (js "My_video"));
                   (51200%Z, CleanupTempFiles (js "My_video"));
                   (53200%Z, FinalCleanup (js "My_video"))]
  /\ files (run_tasks rt_ok (tasks_of r) (snd r)) !! downloadsDir rt_ok
     = Some [ {| fname := js "My_video.mp4"; fsize := 1000; isDirectory := false |} ]
  /\ List.map command (spawned (snd r))
     = [ video_command fmt_720 (js "/home/user/Downloads/My_video.%(ext)s") video_url;
         videoInfo_command video_url ].
Proof. cbv zeta. repeat split; vm_compute; reflexivity. Qed.

(** The same request for a download that exits before the timer: the
    timer later finds the child gone and the response sent. *)
Example late_timer_is_silent :
  let r := serve rt_ok ApiDownload (body_with video_url) child_fails (server_started 0) in
  answer r
  = Some (error_json 500
            (js "Download failed: Command failed: "
             ++ video_command fmt_720 (js "/home/user/Downloads/My_video.%(ext)s") video_url
             ++ [newline] ++ js "ERROR: unable to download video data"))
  /\ clock (snd r) = 601200%Z.
Proof. cbv zeta. split; vm_compute; reflexivity. Qed.

(** [path.join] drops empty and [.] segments and resolves [..]. *)
Example path_join_normalises :
  path_join (js "/home/user/Downloads") (js "My_video.%(ext)s")
  = js "/home/user/Downloads/My_video.%(ext)s"
  /\ path_join (js "/home/user/Downloads") [] = js "/home/user/Downloads"
  /\ path_join (js "/home/user/Downloads") (js ".") = js "/home/user/Downloads"
  /\ path_join (js "/home/user/Downloads") (js "..") = js "/home/user"
  /\ path_join (js "/home/user/Downloads/") (js "a") = js "/home/user/Downloads/a"
  /\ path_join (js "a/b/") (js "../c/") = js "a/c/"
  /\ path_join (js "a") (js "../..") = js ".."
  /\ path_join (js "/") (js "..") = js "/"
  /\ path_join [] [] = js ".".
Proof. repeat split. Qed.

(** A playlist download creates the folder of the playlist, which the
    downloads directory then lists; the next download of the playlist
    finds it there and creates nothing. *)
Example playlist_folder_is_listed :
  let b := {| url := Some collection_url; quality := None; type := Some (js "playlist") |} in
  let w1 := snd (handle rt_playlist ApiDownload b (server_started 0)) in
  files w1 !! downloadsDir rt_playlist
  = Some [ {| fname := js "My_mix"; fsize := 4096; isDirectory := true |} ]
  /\ files w1 !! js "/home/user/Downloads/My_mix" = Some []
  /\ ensure_dir rt_playlist (downloadsDir rt_playlist) (js "My_mix") w1 = (Return tt, w1).
Proof. cbv zeta. repeat split; vm_compute; reflexivity. Qed.

(** An audio download has no timer: a child that never exits is never
    answered. *)
Example audio_download_unwatched :
  answer (serve rt_ok ApiDownloadAudio (body_with video_url) child_hangs (server_started 0))
  = None.
Proof. vm_compute. reflexivity. Qed.

End EndToEnd.

(** * Further properties of the code *)

(** ** What the cleanup passes touch *)

Module SweepFrame.
Import JsStringFacts FsFacts FinalCleanupFacts.

Lemma unlink_each_In (names : list jsstring) (d : directory) (f : file) :
  In f (unlink_each names d)
  <-> In f d /\ (~ In (fname f) names \/ isDirectory f = true).
Proof.
  rewrite unlink_each_filter, List.filter_In, orb_true_iff, negb_true_iff.
  rewrite <- named_in_true. destruct (named_in names f); intuition congruence.
Qed.

Lemma stat_all_names (names : list jsstring) (d : directory) (stats : list (jsstring * Z)) :
  stat_all names d = Return stats -> List.map fst stats = names.
Proof.
  revert stats. induction names as [|n names IH]; simpl; intros stats H.
  - injection H as <-. reflexivity.
  - destruct (statSync_size n d) as [sz|]; [|discriminate H].
    destruct (stat_all names d) as [rest|]; [|discriminate H].
    injection H as <-. simpl. rewrite (IH rest eq_refl). reflexivity.
Qed.

Lemma In_tl (A : Type) (x : A) (l : list A) : In x (tl l) -> In x l.
Proof. destruct l; simpl; auto. Qed.

(** The first half of the final pass only unlinks names that are final
    MP4 candidates. *)
Lemma keep_largest_mp4_In (t : jsstring) (d d1 : directory) (f : file) :
  keep_largest_mp4 (List.filter (is_final_mp4 t) (readdir d)) d = Return d1 ->
  (In f d1 -> In f d)
  /\ (In f d -> is_final_mp4 t (fname f) = false -> In f d1).
Proof.
  unfold keep_largest_mp4.
  destruct (1 <? length _)%nat; [|intros [= <-]; tauto].
  destruct (stat_all _ d) as [stats|] eqn:Hstat; [|discriminate].
  intros [= <-]. rewrite unlink_each_In. split; [tauto|].
  intros Hf Hfinal. split; [exact Hf|]. left. intros Hin.
  apply in_map_iff in Hin. destruct Hin as [p [Hp Hin]].
  apply In_tl in Hin.
  apply (Permutation_in _ (sort_by_perm _ by_size_desc stats)) in Hin.
  assert (In (fname f) (List.map fst stats)) as Hname
      by (rewrite <- Hp; apply in_map; exact Hin).
  rewrite (stat_all_names _ _ _ Hstat) in Hname.
  apply List.filter_In in Hname. destruct Hname as [_ Hname]. congruence.
Qed.

Lemma not_included_not_final (t n : jsstring) :
  includes n t = false -> is_final_mp4 t n = false /\ is_leftover t n = false
                          /\ is_temp t n = false.
Proof.
  intros Hinc. unfold is_final_mp4, is_leftover, is_temp. rewrite Hinc.
  destruct (startsWith n t) eqn:E; [|auto].
  apply includes_startsWith in E. congruence.
Qed.

(** The second half of the final pass, entry by entry. *)
Lemma finalCleanup_In (t : jsstring) (d : directory) (g : file) :
  In g (finalCleanup t d) <->
  match keep_largest_mp4 (List.filter (is_final_mp4 t) (readdir d)) d with
  | Return d1 => In g d1 /\ (is_leftover t (fname g) = false \/ isDirectory g = true)
  | Throw _ => In g d
  end.
Proof.
  unfold finalCleanup.
  destruct (keep_largest_mp4 _ d) as [d1|] eqn:Hk; [|tauto].
  rewrite unlink_each_In. split.
  - intros [Hg [Hnot | Hdir]]; (split; [exact Hg|]); [|right; exact Hdir].
    destruct (is_leftover t (fname g)) eqn:E; [|left; reflexivity].
    exfalso. apply Hnot. apply List.filter_In. split; [|exact E].
    unfold readdir. apply in_map. apply (keep_largest_mp4_In t d d1 g Hk). exact Hg.
  - intros [Hg [Hleft | Hdir]]; (split; [exact Hg|]); [|right; exact Hdir].
    left. intros Hin. apply List.filter_In in Hin. destruct Hin as [_ Hin]. congruence.
Qed.

(** No pass removes a sub-directory. *)
Lemma subdirectory_stays (t : jsstring) (d : directory) (f : file) :
  In f d -> isDirectory f = true ->
  In f (cleanupTempFiles t d) /\ In f (finalCleanup t d).
Proof.
  intros Hf Hdir. split.
  - rewrite cleanupTempFiles_filter. apply List.filter_In.
    split; [exact Hf | rewrite Hdir; apply orb_true_r].
  - rewrite finalCleanup_In. unfold keep_largest_mp4.
    destruct (1 <? length _)%nat; [|auto].
    destruct (stat_all _ d) as [stats|]; [|exact Hf].
    split; [|auto]. apply unlink_each_In. auto.
Qed.

(** X1.  The temp-file pass and the final pass only delete: every entry
    they leave was there before, with its size; they never delete a file
    whose name does not contain the sanitized title, and they never remove
    a sub-directory. *)
Theorem cleanup_passes_only_delete_titled (t : jsstring) (d : directory) (f : file) :
  (In f (cleanupTempFiles t d) -> In f d)
  /\ (In f (finalCleanup t d) -> In f d)
  /\ (In f d -> includes (fname f) t = false ->
      In f (cleanupTempFiles t d) /\ In f (finalCleanup t d))
  /\ (In f d -> isDirectory f = true ->
      In f (cleanupTempFiles t d) /\ In f (finalCleanup t d)).
Proof.
  rewrite cleanupTempFiles_filter, List.filter_In.
  split; [tauto|]. split; [|split].
  - rewrite finalCleanup_In. destruct (keep_largest_mp4 _ d) as [d1|] eqn:Hk; [|tauto].
    intros [Hg _]. apply (keep_largest_mp4_In t d d1 f Hk). exact Hg.
  - intros Hf Hinc. destruct (not_included_not_final t (fname f) Hinc) as (Hnf & Hnl & Hnt).
    split; [rewrite Hnt; auto|].
    rewrite finalCleanup_In. destruct (keep_largest_mp4 _ d) as [d1|] eqn:Hk; [|exact Hf].
    split; [|left; exact Hnl]. apply (keep_largest_mp4_In t d d1 f Hk); assumption.
  - intros Hf Hdir. split; [split; [exact Hf | rewrite Hdir; apply orb_true_r]|].
    apply (subdirectory_stays t d f Hf Hdir).
Qed.

End SweepFrame.

(** ** The file a download reports and the file the final pass keeps *)

Module ReportedFile.
Import JsStringFacts FsFacts FinalCleanupFacts SweepFacts.

Lemma on_video_exit_success (rt : runtime) (t : jsstring) (d : directory) (w : world)
    (s : supervised) :
  files w !! downloadsDir rt = Some d -> sent s = None ->
  exists s', on_video_exit rt t None s w = (Return s', w)
    /\ sent s' = Some (match List.filter (is_final_mp4 t) (readdir d) with
                       | f :: _ => download_json f true
                       | [] => error_json 500 (js "Download completed but MP4 file not found")
                       end).
Proof.
  intros Hfiles Hsent.
  unfold on_video_exit, bind, date_now, readdirSync. rewrite Hfiles.
  destruct (List.filter (is_final_mp4 t) (readdir d)) as [|f0 rest];
    (eexists; split; [reflexivity|]);
    unfold respond_unless_sent, headersSent, set_timer; simpl; rewrite Hsent; reflexivity.
Qed.

(** X2.  A successful video download answers with the first name in
    listing order that starts with the sanitized title and ends in
    [.mp4], whatever its size.  When that name is a file's and the
    directory (distinct names) holds a larger entry of such a name, the
    final pass run on that listing deletes the file the response named and
    keeps an entry at least as large as the larger one. *)
Theorem reported_file_can_be_swept
    (rt : runtime) (j : job) (t f0 : jsstring) (rest : list jsstring)
    (d : directory) (w : world) (g : file) (out err : jsstring) :
  callback j = VideoDone t ->
  files w !! downloadsDir rt = Some d ->
  List.NoDup (readdir d) ->
  List.filter (is_final_mp4 t) (readdir d) = f0 :: rest ->
  (forall h, In h d -> fname h = f0 -> isDirectory h = false) ->
  In g d -> is_final_mp4 t (fname g) = true -> (size_of f0 d < fsize g)%Z ->
  (exists s, on_child_exit rt j (Exited out err) fresh w = (Return s, w)
             /\ sent s = Some (download_json f0 true))
  /\ ~ In f0 (readdir (finalCleanup t d))
  /\ (exists k, In k (finalCleanup t d) /\ is_final_mp4 t (fname k) = true
                /\ (fsize g <= fsize k)%Z).
Proof.
  intros Hcb Hfiles Hnd Hfilter Hfile Hg Hgfinal Hsize.
  split.
  - unfold on_child_exit, try_catch. rewrite Hcb. simpl exec_error.
    destruct (on_video_exit_success rt t d w (exited (Exited out err) fresh) Hfiles eq_refl)
      as [s [Hrun Hsent]].
    exists s. rewrite Hrun. split; [reflexivity|]. rewrite Hsent, Hfilter. reflexivity.
  - assert (In f0 (List.filter (is_final_mp4 t) (readdir d))) as Hf0
        by (rewrite Hfilter; left; reflexivity).
    destruct (filter_listed _ _ _ Hf0) as [h [Hh [Hhname Hf0final]]].
    assert (fsize h = size_of f0 d) as Hhsize
        by (rewrite <- Hhname; symmetry; apply size_of_listed; assumption).
    assert (fname h <> fname g) as Hdiff.
    { intros E. rewrite <- Hhname, E, (size_of_listed d Hnd g Hg) in Hsize. lia. }
    assert (1 < length (List.filter (is_final_mp4 t) (readdir d)))%nat as Hmany.
    { rewrite Hfilter. destruct rest as [|r rest']; simpl; [|lia]. exfalso.
      assert (In (fname g) (List.filter (is_final_mp4 t) (readdir d))) as Hgin
          by (apply List.filter_In; split; [unfold readdir; apply in_map; exact Hg | exact Hgfinal]).
      rewrite Hfilter in Hgin. destruct Hgin as [E | []]. congruence. }
    destruct (finalCleanup_multi t d Hnd Hmany) as [k (Hk & Hkfinal & _ & Hmax & Heq)].
    pose proof (Hmax g Hg Hgfinal) as Hgk.
    split.
    + intros Hin. unfold readdir in Hin. apply in_map_iff in Hin.
      destruct Hin as [x [Hx Hxin]]. rewrite Heq in Hxin.
      apply List.filter_In in Hxin. destruct Hxin as [Hxd Hkeep].
      rewrite (Hfile x Hxd Hx), Hx, Hf0final in Hkeep. apply has_name_true in Hkeep.
      assert (x = h) as -> by (apply (same_name_same_entry d); congruence).
      assert (fsize h = fsize k).
      { rewrite <- (size_of_listed d Hnd h Hh), <- (size_of_listed d Hnd k Hk), Hkeep.
        reflexivity. }
      lia.
    + exists k. split; [|split; [exact Hkfinal | exact Hgk]].
      rewrite Heq. apply List.filter_In. split; [exact Hk|].
      rewrite Hkfinal. apply orb_true_iff. right. apply has_name_true. reflexivity.
Qed.

(** Downloading 'Song' beside an earlier, larger 'Song_Remix.mp4'. *)
Lemma reported_file_can_be_swept_witness :
  (exists s, on_child_exit rt_ok (video_job (js "Song")) (Exited [] []) fresh
               (with_downloads songs_dir)
             = (Return s, with_downloads songs_dir)
             /\ sent s = Some (download_json (js "Song.mp4") true))
  /\ ~ In (js "Song.mp4") (readdir (finalCleanup (js "Song") songs_dir))
  /\ (exists k, In k (finalCleanup (js "Song") songs_dir)
                /\ is_final_mp4 (js "Song") (fname k) = true
                /\ (1000 <= fsize k)%Z).
Proof.
  apply (reported_file_can_be_swept rt_ok (video_job (js "Song")) (js "Song")
           (js "Song.mp4") [js "Song_Remix.mp4"] songs_dir (with_downloads songs_dir)
           {| fname := js "Song_Remix.mp4"; fsize := 1000; isDirectory := false |}).
  - reflexivity.
  - reflexivity.
  - distinct_names.
  - reflexivity.
  - intros h Hh _. each_entry Hh; reflexivity.
  - simpl. tauto.
  - reflexivity.
  - vm_compute. reflexivity.
Defined.

End ReportedFile.

(** ** Shape of sanitized names *)

Module SanitizerShape.
Import JsStringFacts SanitizerFacts.

Lemma collapse_spaces_length (s : jsstring) :
  forall in_run, (length (collapse_spaces in_run s) <= length s)%nat.
Proof.
  induction s as [|c s IH]; intros in_run; simpl; [lia|].
  destruct (is_space c); [destruct in_run|]; simpl;
    [pose proof (IH true) | pose proof (IH true) | pose proof (IH false)]; lia.
Qed.

Lemma collapse_spaces_In (s : jsstring) (c : N) :
  forall in_run, In c (collapse_spaces in_run s) -> c = underscore \/ In c s.
Proof.
  induction s as [|a s IH]; intros in_run; simpl; [tauto|].
  destruct (is_space a); [destruct in_run|]; simpl; intros H.
  - destruct (IH true H); auto.
  - destruct H as [<- | H]; [auto|]. destruct (IH true H); auto.
  - destruct H as [<- | H]; [auto|]. destruct (IH false H); auto.
Qed.

Lemma collapse_spaces_nil (s : jsstring) (in_run : bool) :
  collapse_spaces in_run s = [] -> Forall (fun c => is_space c = true) s.
Proof.
  revert in_run. induction s as [|a s IH]; intros in_run; simpl; [constructor|].
  destruct (is_space a) eqn:E; [destruct in_run|]; try discriminate.
  intros H. constructor; [exact E | exact (IH true H)].
Qed.

Lemma strip_unsafe_nil (s : jsstring) :
  strip_unsafe s = [] <-> Forall (fun c => keep_char c = false) s.
Proof.
  unfold strip_unsafe. induction s as [|a s IH]; simpl.
  - split; [constructor | reflexivity].
  - destruct (keep_char a) eqn:E; split.
    + discriminate.
    + intros H. apply List.Forall_cons_iff in H. destruct H as [H _]. congruence.
    + intros H. constructor; [exact E | apply IH, H].
    + intros H. apply IH. apply List.Forall_cons_iff in H. tauto.
Qed.

(** X3.  A sanitized name is never longer than the title; each of its
    characters is a character of the title or an underscore; the
    sanitizer leaves a string unchanged exactly when the string consists
    of word characters, dots and hyphens; and it returns the empty string
    exactly when the title has no word character, white space, dot or
    hyphen at all. *)
Theorem sanitizeFilename_shape (s : jsstring) :
  (length (sanitizeFilename s) <= length s)%nat
  /\ (forall c, In c (sanitizeFilename s) -> c = underscore \/ In c s)
  /\ (sanitizeFilename s = s <-> Forall (fun c => safe_char c = true) s)
  /\ (sanitizeFilename s = [] <-> Forall (fun c => keep_char c = false) s).
Proof.
  unfold sanitizeFilename. split; [|split; [|split]].
  - etransitivity; [apply collapse_spaces_length|]. apply List.filter_length_le.
  - intros c Hc. destruct (collapse_spaces_In _ _ _ Hc) as [-> | Hin]; [auto|].
    right. unfold strip_unsafe in Hin. apply List.filter_In in Hin. tauto.
  - split.
    + intros Heq. rewrite <- Heq. apply sanitizeFilename_safe.
    + intros Hsafe. rewrite (strip_unsafe_fixed s Hsafe).
      apply collapse_spaces_fixed, Hsafe.
  - split.
    + intros Hnil. apply strip_unsafe_nil.
      pose proof (collapse_spaces_nil _ _ Hnil) as Hsp.
      destruct (strip_unsafe s) as [|a rest] eqn:E; [reflexivity|].
      simpl in Hnil. apply List.Forall_cons_iff in Hsp. destruct Hsp as [Ha _].
      rewrite Ha in Hnil. discriminate Hnil.
    + intros Hnone. apply strip_unsafe_nil in Hnone. rewrite Hnone. reflexivity.
Qed.

Example sanitizeFilename_kanji : sanitizeFilename kanji_title = [].
Proof. reflexivity. Qed.

End SanitizerShape.

(** ** Titles the passes match too widely *)

Module TitleMatching.
Import JsStringFacts SanitizerFacts FsFacts FinalCleanupFacts SweepFrame SanitizerShape.

Lemma keep_largest_mp4_returns (t : jsstring) (d : directory) :
  exists d1, keep_largest_mp4 (List.filter (is_final_mp4 t) (readdir d)) d = Return d1.
Proof.
  unfold keep_largest_mp4. destruct (1 <? length _)%nat; [|eauto].
  rewrite stat_all_listed; [eauto|].
  intros n Hn. apply List.filter_In in Hn. tauto.
Qed.

(** No regular file the final pass leaves is a leftover. *)
Lemma finalCleanup_no_leftover (t : jsstring) (d : directory) (f : file) :
  In f (finalCleanup t d) -> isDirectory f = false -> is_leftover t (fname f) = false.
Proof.
  rewrite finalCleanup_In. destruct (keep_largest_mp4_returns t d) as [d1 ->].
  intros [_ [Hleft | Hdir]] Hreg; [exact Hleft | congruence].
Qed.

Lemma includes_nil (s : jsstring) : includes s [] = true.
Proof. apply includes_startsWith, startsWith_nil. Qed.

(** X4.  A title without any word character, white space, dot or hyphen
    (a title written in a non-Latin script, say) is sanitized to the empty
    string, which every name contains: the final pass then deletes every
    regular file of the downloads directory that does not end in [.mp4],
    and the temp-file pass every regular file whose name holds one of its
    markers.  The sub-directories stay: unlinking them fails. *)
Theorem unreadable_title_sweeps_directory (title : jsstring) (d : directory) :
  Forall (fun c => keep_char c = false) title ->
  sanitizeFilename title = []
  /\ (forall f, In f (finalCleanup (sanitizeFilename title) d) ->
                isDirectory f = false -> endsWith (fname f) mp4 = true)
  /\ (forall f, In f (cleanupTempFiles (sanitizeFilename title) d) ->
                isDirectory f = false ->
                existsb (includes (fname f)) temp_markers = false)
  /\ (forall f, In f d -> isDirectory f = true ->
                In f (cleanupTempFiles (sanitizeFilename title) d)
                /\ In f (finalCleanup (sanitizeFilename title) d)).
Proof.
  intros Hnone.
  assert (sanitizeFilename title = []) as ->
      by (apply (sanitizeFilename_shape title), Hnone).
  split; [reflexivity|]. split; [|split].
  - intros f Hf Hreg. apply finalCleanup_no_leftover in Hf; [|exact Hreg].
    unfold is_leftover in Hf. rewrite includes_nil in Hf. simpl in Hf.
    apply negb_false_iff, Hf.
  - intros f Hf Hreg. rewrite cleanupTempFiles_filter in Hf. apply List.filter_In in Hf.
    destruct Hf as [_ Hf]. rewrite Hreg, orb_false_r in Hf.
    apply negb_true_iff in Hf. unfold is_temp in Hf.
    rewrite includes_nil in Hf. cbn [andb] in Hf. apply orb_false_iff in Hf. tauto.
  - intros f. apply subdirectory_stays.
Qed.

(** A three-character title in kanji, over the directory of another
    download: the unrelated [notes.txt] and [my title.txt] go as well,
    the folder stays. *)
Lemma unreadable_title_sweeps_directory_witness :
  sanitizeFilename kanji_title = []
  /\ (forall f, In f (finalCleanup (sanitizeFilename kanji_title) titled_dir) ->
                isDirectory f = false -> endsWith (fname f) mp4 = true)
  /\ (forall f, In f (cleanupTempFiles (sanitizeFilename kanji_title) titled_dir) ->
                isDirectory f = false ->
                existsb (includes (fname f)) temp_markers = false)
  /\ (forall f, In f titled_dir -> isDirectory f = true ->
                In f (cleanupTempFiles (sanitizeFilename kanji_title) titled_dir)
                /\ In f (finalCleanup (sanitizeFilename kanji_title) titled_dir)).
Proof.
  apply (unreadable_title_sweeps_directory kanji_title titled_dir).
  repeat constructor.
Defined.

Example kanji_title_final_pass :
  finalCleanup (sanitizeFilename kanji_title) titled_dir
  = [ {| fname := js "old title"; fsize := 4096; isDirectory := true |};
      {| fname := js "title.mp4"; fsize := 1000; isDirectory := false |} ].
Proof. reflexivity. Qed.

Lemma startsWith_app_l (s p x : jsstring) :
  startsWith s p = true -> startsWith (s ++ x) p = true.
Proof.
  revert s. induction p as [|c p IH]; intros s; [intros _; apply startsWith_nil|].
  destruct s as [|a s]; simpl; [discriminate|].
  rewrite !andb_true_iff. intros [Hc Hs]. split; [exact Hc | apply IH, Hs].
Qed.

Lemma includes_app_l (s p x : jsstring) :
  includes s p = true -> includes (s ++ x) p = true.
Proof.
  induction s as [|a s IH]; simpl.
  - rewrite orb_false_r. intros H. destruct p; [apply includes_nil | discriminate H].
  - rewrite !orb_true_iff. intros [H | H].
    + left. apply (startsWith_app_l (a :: s) p x H).
    + right. apply IH, H.
Qed.

Lemma includes_skip_undotted (t s p : jsstring) :
  Forall (fun c => c <> dot) t -> includes (t ++ s) (dot :: p) = includes s (dot :: p).
Proof.
  induction 1 as [|c t Hc _ IH]; [reflexivity|].
  cbn [app includes startsWith]. rewrite IH.
  destruct (N.eqb_spec dot c) as [E|_]; [congruence | reflexivity].
Qed.

Lemma temp_markers_dotted (m : jsstring) :
  In m temp_markers -> exists p, m = dot :: p /\ includes mp4 m = false.
Proof.
  unfold temp_markers. simpl. intros H.
  repeat (destruct H as [<- | H]; [eexists; split; reflexivity|]). destruct H.
Qed.

Lemma undotted_title (title : jsstring) :
  Forall (fun c => c <> dot) title -> Forall (fun c => c <> dot) (sanitizeFilename title).
Proof.
  intros Hno. apply List.Forall_forall. intros c Hc.
  destruct (proj1 (proj2 (sanitizeFilename_shape title)) c Hc) as [-> | Hin].
  - discriminate.
  - rewrite List.Forall_forall in Hno. apply Hno, Hin.
Qed.

(** X5.  For a title without a dot, the temp-file pass never deletes the
    final file [<sanitized title>.mp4].  For a sanitized title that
    contains one of the pass's markers ('.part', '.temp', '.webm', ...),
    the pass deletes that final file whenever it runs: no regular file of
    that name is left. *)
Theorem temp_pass_and_the_final_file (title : jsstring) (d : directory) :
  (Forall (fun c => c <> dot) title ->
   forall f, In f d -> fname f = sanitizeFilename title ++ mp4 ->
             In f (cleanupTempFiles (sanitizeFilename title) d))
  /\ (forall m, In m temp_markers -> includes (sanitizeFilename title) m = true ->
      forall f, In f (cleanupTempFiles (sanitizeFilename title) d) ->
                isDirectory f = false ->
                fname f <> sanitizeFilename title ++ mp4).
Proof.
  set (t := sanitizeFilename title). rewrite cleanupTempFiles_filter. split.
  - intros Hno f Hf Hname. apply List.filter_In. split; [exact Hf|].
    apply orb_true_iff. left.
    apply negb_true_iff. unfold is_temp. rewrite Hname, includes_prefix, endsWith_app.
    cbn [negb andb]. rewrite andb_false_r, orb_false_r.
    destruct (existsb (includes (t ++ mp4)) temp_markers) eqn:E; [|reflexivity].
    apply existsb_exists in E. destruct E as [m [Hm Hinc]].
    destruct (temp_markers_dotted m Hm) as [p [-> Hmp4]].
    rewrite (includes_skip_undotted t mp4 p (undotted_title title Hno)) in Hinc.
    congruence.
  - intros m Hm Hinc f Hf Hreg Hname. apply List.filter_In in Hf. destruct Hf as [_ Hf].
    rewrite Hreg, orb_false_r in Hf.
    apply negb_true_iff in Hf. unfold is_temp in Hf.
    rewrite Hname, includes_prefix in Hf. cbn [andb] in Hf.
    apply orb_false_iff in Hf. destruct Hf as [Hf _].
    assert (existsb (includes (t ++ mp4)) temp_markers = true); [|congruence].
    apply existsb_exists. exists m. split; [exact Hm | apply includes_app_l, Hinc].
Qed.

(** 'Lesson.part 1' is sanitized to 'Lesson.part_1', which holds the
    marker '.part'; 'My video' has no dot. *)
Example temp_pass_deletes_part_title :
  cleanupTempFiles (sanitizeFilename part_title)
    [ {| fname := js "Lesson.part_1.mp4"; fsize := 1000; isDirectory := false |} ] = []
  /\ cleanupTempFiles (sanitizeFilename (js "My video"))
       [ {| fname := js "My_video.mp4"; fsize := 1000; isDirectory := false |} ]
     = [ {| fname := js "My_video.mp4"; fsize := 1000; isDirectory := false |} ].
Proof. split; reflexivity. Qed.

End TitleMatching.

(** ** No exception leaves a handler *)

Module Answers.
Import Watchdog.

Lemma never_throws_try_catch (A : Type) (P : A -> Prop) (m : M A) (h : jsstring -> M A) :
  returns P m -> (forall e, never_throws P (h e)) -> never_throws P (try_catch m h).
Proof.
  intros Hm Hh w. unfold try_catch. destruct (m w) as [[a|e] w1] eqn:E.
  - exists a, w1. split; [reflexivity | exact (Hm _ _ _ E)].
  - apply Hh.
Qed.

Lemma never_throws_ret (A : Type) (P : A -> Prop) (a : A) : P a -> never_throws P (ret a).
Proof. intros Ha w. exists a, w. auto. Qed.

Lemma never_throws_returns (A : Type) (P : A -> Prop) (m : M A) :
  never_throws P m -> returns P m.
Proof.
  intros Hm w a w' Hrun. destruct (Hm w) as (a' & w'' & Hrun' & Ha).
  rewrite Hrun in Hrun'. injection Hrun' as -> _. exact Ha.
Qed.

Lemma error_json_well_formed (message : jsstring) :
  well_formed_response (error_json 500 message)
  /\ well_formed_response (error_json 400 message).
Proof. split; (split; [simpl; auto | intros _; eexists; reflexivity]). Qed.

Lemma json_well_formed (b : list (jsstring * jsval)) : well_formed_response (json b).
Proof. split; [simpl; auto | intros H; exfalso; apply H; reflexivity]. Qed.

Ltac answered_leaf :=
  first [ exact I
        | apply json_well_formed
        | apply (proj1 (error_json_well_formed _))
        | apply (proj2 (error_json_well_formed _)) ].

(** Walks down the body of a handler's [try]. *)
Ltac answered :=
  repeat first
    [ apply returns_ret; solve [answered_leaf]
    | apply returns_throw
    | apply returns_bind; intros ?
    | apply returns_try_catch; [|intros ?]
    | progress cbv zeta
    | match goal with
      | |- returns _ (if ?b then _ else _) => destruct b
      end ].

Ltac caught :=
  apply never_throws_try_catch;
  [|intros ?; apply never_throws_ret; apply (proj1 (error_json_well_formed _))].

Lemma handleVideoDownload_answers rt b : never_throws well_answered (handleVideoDownload rt b).
Proof. unfold handleVideoDownload. caught. answered. Qed.

Lemma handleAudioDownload_answers rt b : never_throws well_answered (handleAudioDownload rt b).
Proof. unfold handleAudioDownload. caught. answered. Qed.

Lemma handlePlaylistDownload_answers rt b :
  never_throws well_answered (handlePlaylistDownload rt b).
Proof. unfold handlePlaylistDownload. caught. answered. Qed.

Lemma handle_answers (rt : runtime) (ep : endpoint) (b : request_body) :
  never_throws well_answered (handle rt ep b).
Proof.
  destruct ep; simpl.
  - unfold api_info. caught. answered.
  - unfold api_download_video. caught. answered.
  - unfold api_download. caught. cbv zeta.
    destruct (missing (url b)); [answered|].
    destruct (quality_is _ "playlist");
      [apply never_throws_returns, handlePlaylistDownload_answers|].
    destruct (quality_is _ "audio");
      [apply never_throws_returns, handleAudioDownload_answers|].
    apply never_throws_returns, handleVideoDownload_answers.
  - unfold api_download_playlist. caught. answered.
  - unfold api_download_audio. caught. answered.
  - unfold api_formats. caught. answered.
Qed.

Ltac responded :=
  repeat first
    [ apply returns_ret; exact I
    | apply returns_throw
    | apply returns_bind; intros ?
    | progress cbv zeta
    | match goal with
      | |- returns _ (if ?b then _ else _) => destruct b
      end ].

Lemma info_and_formats_respond (rt : runtime) (b : request_body) :
  never_throws is_response (api_info rt b) /\ never_throws is_response (api_formats rt b).
Proof.
  split; [unfold api_info | unfold api_formats];
    (apply never_throws_try_catch; [responded | intros ?; apply never_throws_ret; exact I]).
Qed.

(** X6.  No exception leaves a handler: on every request body and in
    every world each of the six handlers returns, either with a response
    or with a download started.  A response has status 200, 400 or 500,
    and every response that is not 200 has the body [{ error: message }].
    [/api/info] and [/api/formats] always answer within the handler. *)
Theorem handlers_always_answer
    (rt : runtime) (ep : endpoint) (b : request_body) (w : world) :
  exists h w', handle rt ep b w = (Return h, w')
    /\ well_answered h
    /\ (ep = ApiInfo \/ ep = ApiFormats -> is_response h).
Proof.
  destruct (handle_answers rt ep b w) as (h & w' & Hrun & Hok).
  exists h, w'. split; [exact Hrun|]. split; [exact Hok|].
  intros [-> | ->]; simpl in Hrun.
  - destruct (proj1 (info_and_formats_respond rt b) w) as (h' & w'' & Hrun' & Hr).
    rewrite Hrun in Hrun'. injection Hrun' as -> _. exact Hr.
  - destruct (proj2 (info_and_formats_respond rt b) w) as (h' & w'' & Hrun' & Hr).
    rewrite Hrun in Hrun'. injection Hrun' as -> _. exact Hr.
Qed.

End Answers.

(** ** A supervised download is answered once *)

Module Supervision.
Import Answers Watchdog Overflow.

(** What a completion callback does for a request not yet answered: the
    child is gone and either a response is sent, or [readdirSync] throws
    on a missing directory, the exception is uncaught and nothing is
    sent.  The world is as it was. *)
Lemma on_child_exit_spec (rt : runtime) (j : job) (o : exec_outcome)
    (s : supervised) (w : world) :
  sent s = None -> uncaught s = None ->
  exists s', on_child_exit rt j o s w = (Return s', w)
    /\ child_state s' = Gone
    /\ killed s' = killed s || overflowed o
    /\ ((exists r, well_formed_response r /\ sent s' = Some r /\ uncaught s' = None)
        \/ (sent s' = None /\ (exists m, uncaught s' = Some m)
            /\ callback_throws rt j o w)).
Proof.
  intros Hsent Hun.
  unfold callback_throws, on_child_exit, try_catch, on_video_exit, on_audio_exit,
    on_playlist_exit, on_playlistRoute_exit, bind, date_now, readdirSync, ret.
  destruct (callback j); destruct (exec_error _ o); simpl listed_by;
    repeat match goal with
           | |- context [files w !! ?dir] => destruct (files w !! dir) as [d|] eqn:?
           | |- context [match List.filter ?p ?l with _ => _ end] =>
               destruct (List.filter p l)
           end;
    (eexists; split; [reflexivity|]);
    unfold respond_unless_sent, headersSent, set_timer, exited, crashed; simpl;
    rewrite ?Hsent; simpl;
    (split; [reflexivity|]); (split; [reflexivity|]);
    first [ left; eexists; split; [|split; [reflexivity | exact Hun]];
            first [ apply json_well_formed | apply (proj1 (error_json_well_formed _)) ]
          | right; split; [reflexivity|]; split; [eauto|]; split; [reflexivity|]; eauto ].
Qed.

(** The timer finds the child gone: nothing happens. *)
Lemma on_timeout_gone (message : jsstring) (s : supervised) (r : response) :
  child_state s = Gone -> sent s = Some r -> on_timeout message s = s.
Proof.
  intros Hgone Hsent. unfold on_timeout, kill, respond_unless_sent, headersSent.
  rewrite Hgone, Hsent. destruct (negb (killed s)); reflexivity.
Qed.

(** The child exits first: the callback answers or throws, and the timer,
    if there is one and the server still runs, changes nothing. *)
Lemma exit_then_timeout_spec (rt : runtime) (j : job) (cb : child_behaviour)
    (lifetime : Z) (w : world) :
  exists s w',
    exit_then_timeout rt j cb lifetime w = (Return s, w')
    /\ files w' = exit_writes cb (files w)
    /\ (exists w0, on_child_exit rt j (exit_outcome cb) fresh w0 = (Return s, w0))
    /\ child_state s = Gone
    /\ killed s = overflowed (exit_outcome cb)
    /\ ((exists r, well_formed_response r /\ sent s = Some r)
        \/ (sent s = None /\ (exists m, uncaught s = Some m)
            /\ callback_throws rt j (exit_outcome cb) w')).
Proof.
  unfold exit_then_timeout, bind, pass.
  edestruct (on_child_exit_spec rt j (exit_outcome cb) fresh)
    as (s & Hcb & Hgone & Hk & Hans); [reflexivity | reflexivity |].
  rewrite Hcb. simpl in Hk.
  destruct Hans as [(r & Hr & Hsent & Hun) | (Hsent & [m Hm] & Hthrows)].
  - destruct (watchdog j) as [[after message]|]; rewrite ?Hun;
      unfold bind, pass, ret; rewrite ?(on_timeout_gone message s r Hgone Hsent);
      (eexists; eexists; split; [reflexivity|]); simpl;
      (split; [reflexivity|]); (split; [eauto|]); eauto 10.
  - rewrite Hm.
    assert (match watchdog j with
            | Some (after, message) => ret s
            | None => ret s
            end = @ret supervised s) as -> by (destruct (watchdog j) as [[? ?]|]; reflexivity).
    unfold ret. eexists. eexists. split; [reflexivity|]. simpl.
    split; [reflexivity|]. split; [eauto|]. split; [exact Hgone|]. split; [exact Hk|].
    right. eauto.
Qed.

(** X7.  The events of a started download always end in a state: no
    exception leaves them.  With a child that exits or a timer that
    watches it, the caller is answered with a well-formed response,
    through the guards on [res.headersSent] by the first event that
    answers, with one exception: when the child exits without error and
    the directory its callback lists is missing, [readdirSync] throws in
    the callback, outside every [try], nothing is sent and the exception
    is uncaught.  The child is gone once its exit has reached the callback;
    after a timer's [kill()] that need not happen.  When the child exits by
    itself no later than the timer is due, the timer changes nothing: the
    final state is the one the callback left, with [killed] set only if
    the output overflowed.  With no timer and a child that never exits (the
    audio handlers and the playlist route), nothing is ever sent. *)
Theorem supervised_download_answered_once
    (rt : runtime) (j : job) (cb : child_behaviour) (w : world) :
  exists s w',
    supervise rt j cb w = (Return s, w')
    /\ (watchdog j = None -> exits_after cb = None -> s = fresh /\ w' = w)
    /\ (watchdog j <> None \/ exits_after cb <> None ->
        (exists r, well_formed_response r /\ sent s = Some r)
        \/ (sent s = None /\ (exists m, uncaught s = Some m)
            /\ exits_after cb <> None
            /\ callback_throws rt j (exit_outcome cb) w'))
    /\ (child_state s = Gone \/ s = fresh
        \/ (child_state s = Signalled /\ killed s = true /\ killed_exit cb = None))
    /\ (forall lifetime,
          exits_after cb = Some lifetime ->
          (forall after message, watchdog j = Some (after, message) ->
                                 (lifetime <= after)%Z) ->
          killed s = overflowed (exit_outcome cb)
          /\ child_state s = Gone
          /\ exists w0, on_child_exit rt j (exit_outcome cb) fresh w0 = (Return s, w0)).
Proof.
  assert (forall after message,
            exists s w', timeout_then_exit rt j cb after message w = (Return s, w')
              /\ (exists r, well_formed_response r /\ sent s = Some r)
              /\ (child_state s = Gone
                  \/ (child_state s = Signalled /\ killed s = true
                      /\ killed_exit cb = None))) as Htimer.
  { intros after message.
    destruct (timeout_then_exit_spec rt j cb after message w) as (s & Hrun & Hk & Hsent & Hst).
    exists s. eexists. split; [exact Hrun|]. split.
    - eexists. split; [|exact Hsent]. apply (proj1 (error_json_well_formed _)).
    - destruct (killed_exit cb); auto. }
  unfold supervise.
  destruct (watchdog j) as [[after message]|] eqn:Hwatch;
    destruct (exits_after cb) as [lifetime|] eqn:Hexit.
  - destruct (Z.ltb_spec after lifetime) as [Hlt | Hle].
    + destruct (Htimer after message) as (s & w' & Hrun & Hsent & Hst).
      exists s, w'. split; [exact Hrun|]. split; [discriminate|].
      split; [auto|]. split; [tauto|].
      intros l [= <-] Hlate. specialize (Hlate after message eq_refl). lia.
    + destruct (exit_then_timeout_spec rt j cb lifetime w)
        as (s & w' & Hrun & _ & Hcb & Hgone & Hk & Hans).
      exists s, w'. split; [exact Hrun|]. split; [discriminate|].
      split; [intros _; destruct Hans as [Hans | (Hs & Hm & Ht)];
              [left; exact Hans | right; do 2 (split; [assumption|]); split;
                                  [discriminate | exact Ht]]|].
      split; [auto|]. intros l _ _. auto.
  - destruct (Htimer after message) as (s & w' & Hrun & Hsent & Hst).
    exists s, w'. split; [exact Hrun|]. split; [discriminate|].
    split; [auto|]. split; [tauto|]. discriminate.
  - destruct (exit_then_timeout_spec rt j cb lifetime w)
      as (s & w' & Hrun & _ & Hcb & Hgone & Hk & Hans).
    exists s, w'. split; [exact Hrun|]. split; [discriminate|].
    split; [intros _; destruct Hans as [Hans | (Hs & Hm & Ht)];
            [left; exact Hans | right; do 2 (split; [assumption|]); split;
                                [discriminate | exact Ht]]|].
    split; [auto|]. intros l _ _. auto.
  - exists fresh, w. split; [reflexivity|]. split; [auto|].
    split; [intros [H | H]; congruence|]. split; [auto|]. discriminate.
Qed.

(** A video download that exits after 42 seconds, well before its timer,
    and the same download when the downloads directory is gone: the
    callback throws and the caller is never answered. *)
Example supervised_video_downloads :
  (exists s w', supervise rt_ok (video_job (js "My_video")) child_downloads (server_started 0)
                = (Return s, w')
     /\ sent s = Some (download_json (js "My_video.mp4") true)
     /\ child_state s = Gone /\ killed s = false /\ uncaught s = None)
  /\ (exists s w', supervise rt_ok (video_job (js "My_video")) child_exits_quietly (boot 0)
                   = (Return s, w')
        /\ sent s = None
        /\ uncaught s = Some (enoent (js "scandir") (downloadsDir rt_ok))).
Proof. split; eexists; eexists; repeat split; vm_compute; reflexivity. Qed.

End Supervision.

(** ** The line of output that is parsed *)

Module LineReading.

Lemma dropWhile_nil (f : N -> bool) (l : jsstring) :
  dropWhile f l = [] -> forall c, In c l -> f c = true.
Proof.
  induction l as [|a l IH]; simpl; [tauto|].
  destruct (f a) eqn:E; [|discriminate].
  intros H c [<- | Hc]; [exact E | apply IH; assumption].
Qed.

Lemma dropWhile_head (f : N -> bool) (l : jsstring) (a : N) (x : jsstring) :
  dropWhile f l = a :: x -> f a = false.
Proof.
  induction l as [|b l IH]; simpl; [discriminate|].
  destruct (f b) eqn:E; [exact IH|]. intros [= -> _]. exact E.
Qed.

Lemma dropWhile_snoc (f : N -> bool) (l : jsstring) (a : N) :
  f a = false -> exists x, dropWhile f (l ++ [a]) = x ++ [a].
Proof.
  intros Ha. induction l as [|b l IH]; simpl.
  - rewrite Ha. exists []. reflexivity.
  - destruct (f b); [exact IH|]. exists (b :: l). reflexivity.
Qed.

(** A trimmed string is empty or begins and ends with a character that is
    not white space. *)
Lemma trim_tight (s : jsstring) :
  trim s = [] \/
  exists a x y z, trim s = a :: x /\ is_space a = false
                  /\ trim s = y ++ [z] /\ is_space z = false.
Proof.
  unfold trim.
  destruct (dropWhile is_space s) as [|a u] eqn:Hu; [left; reflexivity|].
  pose proof (dropWhile_head _ _ _ _ Hu) as Ha.
  destruct (dropWhile_snoc is_space (rev u) a Ha) as [x Hx].
  simpl rev. rewrite Hx.
  destruct x as [|z x'].
  - right. exists a, [], [], a. simpl. auto.
  - right. pose proof (dropWhile_head _ _ _ _ Hx) as Hz.
    exists a, (rev (z :: x')), (rev (x' ++ [a])), z.
    rewrite rev_app_distr. simpl. rewrite rev_app_distr. simpl. auto.
Qed.

Lemma trim_nonblank (l : jsstring) (c : N) :
  In c l -> is_space c = false -> nonempty (trim l) = true.
Proof.
  intros Hc Hsp. unfold trim.
  destruct (dropWhile is_space l) as [|a u] eqn:Hu.
  - rewrite (dropWhile_nil _ _ Hu c Hc) in Hsp. discriminate.
  - pose proof (dropWhile_head _ _ _ _ Hu) as Ha.
    destruct (dropWhile_snoc is_space (rev u) a Ha) as [x Hx].
    simpl rev. rewrite Hx, rev_app_distr. reflexivity.
Qed.

Lemma split_lines_cons (c : N) (s : jsstring) :
  exists l ls, split_lines s = l :: ls
    /\ split_lines (c :: s) = if c =? newline then [] :: l :: ls else (c :: l) :: ls.
Proof.
  simpl. destruct (split_lines s) as [|l ls] eqn:E.
  - exfalso. destruct s; simpl in E; [discriminate|].
    destruct (split_lines s); [discriminate|]. destruct (_ =? _); discriminate.
  - eauto.
Qed.

(** One line only: the string has no line feed and is that line. *)
Lemma split_lines_single (s l : jsstring) : split_lines s = [l] -> l = s.
Proof.
  revert l. induction s as [|c s IH]; intros l; [intros [= <-]; reflexivity|].
  destruct (split_lines_cons c s) as (l' & ls & Hs & ->).
  destruct (c =? newline); [discriminate|].
  intros [= <- ->]. rewrite (IH l' Hs). reflexivity.
Qed.


(** The last line of a string that ends in a character that is not white
    space holds such a character. *)
Lemma split_lines_last (s : jsstring) (z : N) :
  is_space z = false ->
  exists ls l, split_lines (s ++ [z]) = ls ++ [l] /\ has_ink l.
Proof.
  intros Hz. induction s as [|c s IH].
  - exists [], [z]. split; [|exists z; simpl; auto].
    simpl. destruct (N.eqb_spec z newline) as [->|]; [discriminate Hz | reflexivity].
  - destruct IH as (ls & l & Hs & Hl).
    change ((c :: s) ++ [z]) with (c :: (s ++ [z])).
    destruct (split_lines_cons c (s ++ [z])) as (l0 & ls0 & Hs0 & ->).
    rewrite Hs in Hs0. destruct (c =? newline).
    + exists ([] :: ls), l. split; [|exact Hl]. rewrite <- Hs0. reflexivity.
    + destruct ls as [|h ls']; simpl in Hs0; injection Hs0 as <- <-.
      * exists [], (c :: l). split; [reflexivity|].
        destruct Hl as (x & Hx & Hsp). exists x. simpl. auto.
      * exists ((c :: h) :: ls'), l. split; [reflexivity | exact Hl].
Qed.

Lemma split_lines_first (a : N) (s : jsstring) :
  is_space a = false ->
  exists l ls, split_lines (a :: s) = (a :: l) :: ls.
Proof.
  intros Ha. destruct (split_lines_cons a s) as (l & ls & _ & ->).
  destruct (N.eqb_spec a newline) as [->|]; [discriminate Ha | eauto].
Qed.

Lemma nonblank_ink (l : jsstring) : has_ink l -> nonempty (trim l) = true.
Proof. intros (c & Hc & Hsp). exact (trim_nonblank l c Hc Hsp). Qed.

(** The non-blank lines of an output that is not blank: the first line of
    the trimmed output is one of them, and when it is the only one it is
    the whole trimmed output. *)
Lemma nonblank_lines_first (stdout : jsstring) :
  no_output stdout = false ->
  exists l rest, nonblank_lines stdout = l :: rest
    /\ hd [] (split_lines (trim stdout)) = l
    /\ (rest = [] -> trim stdout = l).
Proof.
  unfold no_output, nonblank_lines, jsstring_eqb. intros Hout.
  apply orb_false_iff in Hout. destruct Hout as [_ Hout].
  apply bool_decide_eq_false in Hout.
  destruct (trim_tight stdout) as [E | (a & x & y & z & Hhead & Ha & Hlast & Hz)];
    [contradiction|].
  destruct (split_lines_first a x Ha) as (l & ls & Hfirst).
  destruct (split_lines_last y z Hz) as (ls' & l' & Hsplit & Hink).
  rewrite <- Hlast in Hsplit.
  assert (nonempty (trim (a :: l)) = true) as Hl
      by (apply (trim_nonblank _ a); [left; reflexivity | exact Ha]).
  rewrite Hhead, Hfirst. simpl List.filter. rewrite Hl.
  eexists. eexists. split; [reflexivity|]. split; [reflexivity|].
  intros Hrest. symmetry. apply split_lines_single.
  rewrite Hhead in Hsplit. rewrite Hfirst in Hsplit. rewrite Hfirst. f_equal.
  destruct ls' as [|h ls'']; simpl in Hsplit; injection Hsplit as Hh Htl.
  - exact Htl.
  - exfalso. rewrite Htl, List.filter_app in Hrest. simpl in Hrest.
    rewrite (nonblank_ink l' Hink) in Hrest.
    destruct (List.filter _ ls''); discriminate Hrest.
Qed.

(** X8.  Once the output of yt-dlp is not blank, [getVideoInfo] hands
    [JSON.parse] the first line of the trimmed output in both branches of
    its test [lines.length > 1]: the list of non-blank lines is never
    empty, its first element is that first line, and when there is one
    non-blank line only, the trimmed output is that line. *)
Theorem parsed_text_is_first_line (rt : runtime) (stdout : jsstring) :
  no_output stdout = false ->
  nonblank_lines stdout <> []
  /\ nth 0 (nonblank_lines stdout) [] = hd [] (split_lines (trim stdout))
  /\ (if (1 <? length (nonblank_lines stdout))%nat
      then JSON_parse rt (nth 0 (nonblank_lines stdout) [])
      else JSON_parse rt (trim stdout))
     = JSON_parse rt (hd [] (split_lines (trim stdout))).
Proof.
  intros Hout.
  destruct (nonblank_lines_first stdout Hout) as (l & rest & -> & Hhd & Hone).
  split; [discriminate|]. split; [simpl; congruence|].
  rewrite Hhd. destruct rest as [|l2 rest]; simpl.
  - rewrite (Hone eq_refl). reflexivity.
  - reflexivity.
Qed.

(** Two JSON lines between blank lines, and a single line with a
    trailing line feed. *)
Lemma parsed_text_is_first_line_witness :
  nth 0 (nonblank_lines ([newline] ++ sample_json ++ js " " ++ [newline; newline]
                         ++ js "{}" ++ [newline])) []
  = hd [] (split_lines (trim ([newline] ++ sample_json ++ js " " ++ [newline; newline]
                              ++ js "{}" ++ [newline])))
  /\ (if (1 <? length (nonblank_lines (sample_json ++ [newline])))%nat
      then JSON_parse rt_ok (nth 0 (nonblank_lines (sample_json ++ [newline])) [])
      else JSON_parse rt_ok (trim (sample_json ++ [newline])))
     = JSON_parse rt_ok (hd [] (split_lines (trim (sample_json ++ [newline])))).
Proof.
  split.
  - apply (parsed_text_is_first_line rt_ok). reflexivity.
  - apply (parsed_text_is_first_line rt_ok). reflexivity.
Defined.

End LineReading.

(** ** Playlist lookups *)

Module PlaylistLookup.
Import LineReading.

(** [getPlaylistInfo] in one piece. *)
Lemma getPlaylistInfo_eq (rt : runtime) (url : jsstring) (w : world) :
  getPlaylistInfo rt url w
  = let w1 := after_command rt (playlistInfo_invocation url) w in
    match outcome (run_command rt (length (spawned w)) (playlistInfo_invocation url)) with
    | Exited stdout _ =>
        if no_output stdout then (Throw msg_playlist_no_output, w1)
        else if (length (nonblank_lines stdout) =? 0)%nat
             then (Throw msg_playlist_empty, w1)
        else if (length (parse_entries rt (nonblank_lines stdout)) =? 0)%nat
             then (Throw msg_playlist_invalid, w1)
        else
          let w2 := after_command rt (playlistTitle_invocation url) w1 in
          match outcome (run_command rt (length (spawned w1)) (playlistTitle_invocation url)) with
          | Exited tout _ =>
              (Return {| title := playlist_title_of tout;
                         entries := parse_entries rt (nonblank_lines stdout) |}, w2)
          | failure =>
              (Throw (playlistInfo_error
                        (default [] (exec_error (playlistTitle_command url) failure))), w2)
          end
    | failure =>
        (Throw (playlistInfo_error
                  (default [] (exec_error (playlistInfo_command url) failure))), w1)
    end.
Proof.
  unfold getPlaylistInfo, try_catch, bind at 1, execPromise, bind at 1, start.
  fold (playlistInfo_invocation url). cbv zeta.
  fold (after_command rt (playlistInfo_invocation url) w).
  destruct (outcome (run_command rt (length (spawned w)) (playlistInfo_invocation url)))
    as [stdout stderr | which | stderr]; try reflexivity.
  unfold ret at 1. cbn [fst].
  destruct (no_output stdout); [reflexivity|].
  destruct (length (nonblank_lines stdout) =? 0)%nat; [reflexivity|].
  destruct (length (parse_entries rt (nonblank_lines stdout)) =? 0)%nat; [reflexivity|].
  unfold bind, start. fold (playlistTitle_invocation url).
  fold (after_command rt (playlistTitle_invocation url)
          (after_command rt (playlistInfo_invocation url) w)).
  destruct (outcome (run_command rt _ (playlistTitle_invocation url)))
    as [tout terr | which | terr]; reflexivity.
Qed.

Lemma parse_entries_not_null (rt : runtime) (lines : list jsstring) :
  Forall (fun e => e <> JNull) (parse_entries rt lines).
Proof.
  apply List.Forall_forall. intros e He. unfold parse_entries in He.
  apply List.filter_In in He. destruct He as [_ He]. intros ->. discriminate He.
Qed.

Lemma playlist_title_of_nonempty (tout : jsstring) : playlist_title_of tout <> [].
Proof.
  unfold playlist_title_of. cbv zeta.
  destruct (nth 0 (split_lines (trim tout)) []) eqn:E; simpl; discriminate.
Qed.

(** X9.  [getPlaylistInfo] never reads or writes the metadata cache: every
    call starts one command, or two when the listing was usable, so that
    a playlist is fetched anew each time.  What it returns has at least
    one entry, no [null] entry and a non-empty title.  When both commands
    exit with code 0, it returns or throws one of the two messages for a
    blank and for an unparsable listing: the branch that throws 'No
    playlist entries found' is never taken. *)
Theorem getPlaylistInfo_outcomes
    (rt : runtime) (url : jsstring) (w w' : world) (r : result playlistInfo) :
  getPlaylistInfo rt url w = (r, w') ->
  videoInfoCache w' = videoInfoCache w
  /\ (started_between w w' = 1 \/ started_between w w' = 2)%nat
  /\ (forall p, r = Return p ->
        started_between w w' = 2%nat /\ entries p <> []
        /\ Forall (fun e => e <> JNull) (entries p) /\ title p <> [])
  /\ (forall out1 err1 out2 err2,
        outcome (run_command rt (length (spawned w)) (playlistInfo_invocation url))
        = Exited out1 err1 ->
        outcome (run_command rt (S (length (spawned w))) (playlistTitle_invocation url))
        = Exited out2 err2 ->
        (exists p, r = Return p) \/ r = Throw msg_playlist_no_output
        \/ r = Throw msg_playlist_invalid).
Proof.
  rewrite getPlaylistInfo_eq. cbv zeta. unfold started_between.
  destruct (outcome (run_command rt (length (spawned w)) (playlistInfo_invocation url)))
    as [stdout stderr | which | stderr] eqn:Hfirst.
  2,3: intros [= <- <-]; simpl;
       (split; [reflexivity|]); (split; [left; lia|]); split; [discriminate | discriminate].
  destruct (no_output stdout) eqn:Hout.
  { intros [= <- <-]. simpl. split; [reflexivity|]. split; [left; lia|].
    split; [discriminate|]. auto. }
  destruct (parsed_text_is_first_line rt stdout Hout) as [Hlines _].
  destruct (Nat.eqb_spec (length (nonblank_lines stdout)) 0) as [Hzero | _].
  { destruct (nonblank_lines stdout); [contradiction | discriminate Hzero]. }
  destruct (Nat.eqb_spec (length (parse_entries rt (nonblank_lines stdout))) 0)
    as [_ | Hentries].
  { intros [= <- <-]. simpl. split; [reflexivity|]. split; [left; lia|].
    split; [discriminate|]. auto. }
  simpl spawned. simpl length.
  destruct (outcome (run_command rt (S (length (spawned w))) (playlistTitle_invocation url)))
    as [tout terr | which | terr] eqn:Hsecond;
    intros [= <- <-]; simpl; (split; [reflexivity|]); (split; [right; lia|]).
  - split.
    + intros p [= <-]. simpl. split; [lia|]. split.
      * intros E. rewrite E in Hentries. apply Hentries. reflexivity.
      * split; [apply parse_entries_not_null | apply playlist_title_of_nonempty].
    + intros. left. eauto.
  - split; [discriminate | discriminate].
  - split; [discriminate | discriminate].
Qed.

(** A listing of two entries and a title line, looked up twice in a
    row. *)
Lemma getPlaylistInfo_outcomes_witness :
  let first := getPlaylistInfo rt_playlist collection_url (boot 0) in
  videoInfoCache (snd first) = videoInfoCache (boot 0)
  /\ (started_between (boot 0) (snd first) = 1
      \/ started_between (boot 0) (snd first) = 2)%nat
  /\ (forall p, fst first = Return p ->
        started_between (boot 0) (snd first) = 2%nat /\ entries p <> []
        /\ Forall (fun e => e <> JNull) (entries p) /\ title p <> [])
  /\ fst first = Return {| title := js "My mix"; entries := [sample_info; sample_info] |}.
Proof.
  cbv zeta.
  destruct (getPlaylistInfo_outcomes rt_playlist collection_url (boot 0) _ _
              (surjective_pairing _)) as (Hcache & Hcount & Hreturn & _).
  split; [exact Hcache|]. split; [exact Hcount|]. split; [exact Hreturn|].
  vm_compute. reflexivity.
Defined.

End PlaylistLookup.

(** ** The unified endpoint and the dedicated routes *)

Module UnifiedEndpoint.

Lemma try_catch_twice (A : Type) (m : M A) (f : jsstring -> A) (h : jsstring -> M A)
    (w : world) :
  try_catch (try_catch m (fun e => ret (f e))) h w = try_catch m (fun e => ret (f e)) w.
Proof.
  unfold try_catch, ret. destruct (m w) as [[a|e] w1]; reflexivity.
Qed.

Lemma unified_audio (rt : runtime) (b : request_body) (w : world) :
  type b = Some (js "audio") -> api_download rt b w = api_download_audio rt b w.
Proof.
  intros Htype. unfold api_download, api_download_audio. cbv zeta. rewrite Htype.
  change (quality_is (quality_or_default (Some (js "audio")) "video") "playlist") with false.
  change (quality_is (quality_or_default (Some (js "audio")) "video") "audio") with true.
  destruct (missing (url b)); [reflexivity|].
  unfold handleAudioDownload. cbv zeta.
  apply (try_catch_twice _ _ (fun message => Responded (error_json 500 message))).
Qed.

Lemma unified_video (rt : runtime) (b : request_body) (w : world) :
  quality_is (quality_or_default (type b) "video") "playlist" = false ->
  quality_is (quality_or_default (type b) "video") "audio" = false ->
  same_up_to_maxBuffer (api_download rt b w) (api_download_video rt b w).
Proof.
  intros Hp Ha. unfold api_download, api_download_video. cbv zeta. rewrite Hp, Ha.
  destruct (missing (url b)); [repeat split|].
  unfold handleVideoDownload. cbv zeta.
  rewrite (try_catch_twice _ _ (fun message => Responded (error_json 500 message))).
  unfold try_catch, bind.
  destruct (getVideoInfo rt (default [] (url b)) w) as [[info|e] w1]; [|repeat split].
  destruct (sanitized_title_of info w1) as [[t|e] w2]; repeat split.
Qed.

(** X10.  [POST /api/download] with type 'audio' behaves exactly as
    [POST /api/download/audio].  With any type other than 'playlist' and
    'audio' (an absent or unknown type included) it behaves as
    [POST /api/download/video]: the same response, or the same command,
    completion callback and timeout timer, the same cache, clock and
    files; the only difference is the [maxBuffer] of the child, 10 MiB
    instead of 100 MiB. *)
Theorem unified_endpoint_agrees (rt : runtime) (b : request_body) (w : world) :
  (type b = Some (js "audio") -> api_download rt b w = api_download_audio rt b w)
  /\ (type b <> Some (js "playlist") -> type b <> Some (js "audio") ->
      same_up_to_maxBuffer (api_download rt b w) (api_download_video rt b w)).
Proof.
  split; [apply unified_audio|].
  intros Hp Ha. apply unified_video.
  - unfold quality_is, jsstring_eqb. apply bool_decide_eq_false.
    destruct (type b) as [t|]; simpl; [congruence | discriminate].
  - unfold quality_is, jsstring_eqb. apply bool_decide_eq_false.
    destruct (type b) as [t|]; simpl; [congruence | discriminate].
Qed.

(** An audio request and a request of the unknown type 'clip'. *)
Lemma unified_endpoint_agrees_witness :
  api_download rt_ok {| url := Some video_url; quality := None; type := Some (js "audio") |}
    (boot 0)
  = api_download_audio rt_ok
      {| url := Some video_url; quality := None; type := Some (js "audio") |} (boot 0)
  /\ same_up_to_maxBuffer
       (api_download rt_ok
          {| url := Some video_url; quality := None; type := Some (js "clip") |} (boot 0))
       (api_download_video rt_ok
          {| url := Some video_url; quality := None; type := Some (js "clip") |} (boot 0)).
Proof.
  split.
  - apply (unified_endpoint_agrees rt_ok). reflexivity.
  - apply (unified_endpoint_agrees rt_ok); discriminate.
Defined.

End UnifiedEndpoint.

(** ** Invariants of the cache, in general *)

Module CacheInvariant.
Import CacheFacts PlaylistGuard.

Section Invariant.

Variable rt : runtime.
Variable Inv : world -> Prop.

(** [Inv] looks at the cache only, and a metadata lookup keeps it. *)
Hypothesis Inv_cache :
  forall w w', videoInfoCache w' = videoInfoCache w -> Inv w -> Inv w'.
Hypothesis Inv_lookup : forall url, keeps Inv (getVideoInfo rt url).

Lemma keeps_untouched (A : Type) (m : M A) : cache_untouched m -> keeps Inv m.
Proof. intros Hm w r w' Hw Hrun. exact (Inv_cache w w' (Hm _ _ _ Hrun) Hw). Qed.

Lemma keeps_bind' (A B : Type) (m : M A) (k : A -> M B) :
  keeps Inv m -> (forall a, keeps Inv (k a)) -> keeps Inv (bind m k).
Proof.
  intros Hm Hk w r w' Hw. unfold bind.
  destruct (m w) as [[a|e] w1] eqn:E.
  - apply (Hk a). exact (Hm _ _ _ Hw E).
  - intros [= _ <-]. exact (Hm _ _ _ Hw E).
Qed.

Lemma keeps_try_catch' (A : Type) (m : M A) (h : jsstring -> M A) :
  keeps Inv m -> (forall e, keeps Inv (h e)) -> keeps Inv (try_catch m h).
Proof.
  intros Hm Hh w r w' Hw. unfold try_catch.
  destruct (m w) as [[a|e] w1] eqn:E.
  - intros [= _ <-]. exact (Hm _ _ _ Hw E).
  - apply (Hh e). exact (Hm _ _ _ Hw E).
Qed.

Ltac leaf :=
  first [ apply Inv_lookup
        | apply keeps_untouched;
          first [ apply untouched_ret | apply untouched_throw | apply untouched_lift
                | apply untouched_date_now | apply untouched_start | apply untouched_spawn
                | apply untouched_pass | apply untouched_ensure_dir
                | apply untouched_readdirSync | apply untouched_in_directory ] ].

Ltac step :=
  repeat first
    [ leaf
    | match goal with H : _ |- keeps Inv _ => solve [apply H] end
    | apply keeps_bind'; [|intros ?]
    | apply keeps_try_catch'; [|intros ?]
    | progress cbv zeta
    | match goal with
      | |- keeps Inv (if ?b then _ else _) => destruct b
      | |- keeps Inv (match ?x with _ => _ end) => destruct x
      end ].

Lemma keeps_execPromise' cmd o : keeps Inv (execPromise rt cmd o).
Proof. unfold execPromise. step. Qed.

Lemma keeps_getPlaylistInfo' url : keeps Inv (getPlaylistInfo rt url).
Proof. pose proof keeps_execPromise'. unfold getPlaylistInfo. step. Qed.

Lemma keeps_sanitized_title_of' info : keeps Inv (sanitized_title_of info).
Proof. unfold sanitized_title_of. step. Qed.

Lemma keeps_handle' (ep : endpoint) (b : request_body) : keeps Inv (handle rt ep b).
Proof.
  pose proof keeps_execPromise'. pose proof keeps_getPlaylistInfo'.
  pose proof keeps_sanitized_title_of'.
  destruct ep; simpl;
    unfold api_info, api_download_video, api_download, api_download_playlist,
      api_download_audio, api_formats, handleVideoDownload, handleAudioDownload,
      handlePlaylistDownload; step.
Qed.

Lemma keeps_supervise' j cb : keeps Inv (supervise rt j cb).
Proof.
  unfold supervise, timeout_then_exit, exit_then_timeout, on_child_exit, on_video_exit,
    on_audio_exit, on_playlist_exit, on_playlistRoute_exit. step.
Qed.

Lemma keeps_serve' ep b cb : keeps Inv (serve rt ep b cb).
Proof. pose proof keeps_handle'. pose proof keeps_supervise'. unfold serve. step. Qed.

Lemma keeps_run_task' t : keeps Inv (run_task rt t).
Proof. unfold run_task. step. Qed.

(** What holds at boot and is kept by lookups holds in every world the
    server reaches. *)
Lemma reachable_invariant (w : world) :
  (forall t fs, Inv {| videoInfoCache := ∅; clock := t; spawned := []; files := fs |}) ->
  reachable rt w -> Inv w.
Proof.
  intros Hboot.
  induction 1 as [t fs | w w' url r _ IH Hrun | w w' ep b cb r _ IH Hrun
                 | w w' t r _ IH Hrun | w t fs _ IH].
  - apply Hboot.
  - exact (Inv_lookup url w r w' IH Hrun).
  - exact (keeps_serve' ep b cb w r w' IH Hrun).
  - exact (keeps_run_task' t w r w' IH Hrun).
  - apply (Inv_cache w); [reflexivity | exact IH].
Qed.

End Invariant.

End CacheInvariant.

(** ** The payloads the cache holds *)

Module CachePayload.
Import CacheFacts PlaylistGuard CacheInvariant.

(** What the fetch builds from the output of yt-dlp has the five fields and
    a truthy title. *)
Lemma videoInfo_of_shape (rt : runtime) (stdout : jsstring) (v : jsval) :
  videoInfo_of rt stdout = Return v -> payload_ok v.
Proof.
  unfold videoInfo_of. destruct (no_output stdout); [discriminate|]. cbv zeta.
  destruct (if (1 <? length (nonblank_lines stdout))%nat then _ else _) as [info|m];
    [|discriminate].
  destruct (get_prop info (js "title")) as [t|m]; [|discriminate].
  destruct (truthy t) eqn:Ht; simpl; [|discriminate].
  intros [= <-]. unfold payload_ok. eauto 10.
Qed.

Lemma getVideoInfo_payload (rt : runtime) (url : jsstring) (w w' : world) (v : jsval) :
  payloads_ok w -> getVideoInfo rt url w = (Return v, w') -> payload_ok v.
Proof.
  intros Hw. rewrite getVideoInfo_eq. destruct (cached w url) as [p|] eqn:Hc.
  - intros [= <- <-]. apply cached_some in Hc as (e & Hl & <- & _). exact (Hw _ _ Hl).
  - rewrite fetchVideoInfo_eq. destruct (is_playlist_url url); [discriminate|]. cbv zeta.
    destruct (outcome _) as [stdout terr | which | terr]; try discriminate.
    destruct (videoInfo_of rt stdout) as [v'|m] eqn:Hv; [|discriminate].
    intros [= <- _]. exact (videoInfo_of_shape _ _ _ Hv).
Qed.

Lemma getVideoInfo_keeps_payloads (rt : runtime) (url : jsstring) :
  keeps payloads_ok (getVideoInfo rt url).
Proof.
  intros w r w' Hw Hrun. destruct r as [v|m].
  - pose proof (getVideoInfo_payload _ _ _ _ _ Hw Hrun) as Hv.
    apply getVideoInfo_return in Hrun as [[_ ->] | (_ & _ & _ & Hcache)]; [exact Hw|].
    intros k e. rewrite Hcache. destruct (decide (k = url)) as [->|Hne].
    + rewrite lookup_insert_eq. intros [= <-]. exact Hv.
    + rewrite lookup_insert_ne by congruence. apply Hw.
  - apply getVideoInfo_throw in Hrun as (_ & Hcache & _).
    intros k e. rewrite Hcache. apply Hw.
Qed.

Lemma reachable_payloads_ok (rt : runtime) (w : world) : reachable rt w -> payloads_ok w.
Proof.
  apply (reachable_invariant rt payloads_ok).
  - intros w0 w1 Hc Hw0 k e. rewrite Hc. apply Hw0.
  - apply getVideoInfo_keeps_payloads.
  - intros t fs k e. simpl. rewrite lookup_empty. discriminate.
Qed.

(** X11. In every world the server reaches (boot, lookups, served requests,
    cleanup timers, changes of clock and files), each entry of
    [videoInfoCache] holds an object with exactly the fields title,
    duration, thumbnail, uploader and view_count, in this order, whose title
    is truthy; and whatever [getVideoInfo] returns there, fetched or taken
    from the cache, has this shape, so that a 200 answer of [/api/info] for
    a video carries it under [data]. *)
Theorem lookup_payload_shape (rt : runtime) (w : world) :
  reachable rt w ->
  payloads_ok w
  /\ (forall url v w', getVideoInfo rt url w = (Return v, w') -> payload_ok v)
  /\ (forall b r w',
        is_playlist_url (default [] (url b)) = false ->
        api_info rt b w = (Return (Responded r), w') -> status r = 200%Z ->
        exists v, payload_ok v
                  /\ body r = JObj [(js "type", JStr (js "video")); (js "data", v)]).
Proof.
  intros Hreach. pose proof (reachable_payloads_ok rt w Hreach) as Hw.
  split; [exact Hw|]. split.
  - intros url v w'. apply getVideoInfo_payload. exact Hw.
  - intros b r w' Hpl. unfold api_info, try_catch.
    destruct (missing (url b)).
    + simpl. intros [= <- _]. discriminate.
    + cbv zeta. rewrite Hpl. unfold bind.
      destruct (getVideoInfo rt (default [] (url b)) w) as [[v|m] w1] eqn:Hrun.
      * simpl. intros [= <- _] _. exists v. split; [|reflexivity].
        exact (getVideoInfo_payload _ _ _ _ _ Hw Hrun).
      * simpl. intros [= <- _]. discriminate.
Qed.

Lemma lookup_payload_shape_witness :
  payloads_ok (snd (getVideoInfo rt_ok video_url (boot 0)))
  /\ (forall url v w',
        getVideoInfo rt_ok url (snd (getVideoInfo rt_ok video_url (boot 0))) = (Return v, w') ->
        payload_ok v)
  /\ (forall b r w',
        is_playlist_url (default [] (url b)) = false ->
        api_info rt_ok b (snd (getVideoInfo rt_ok video_url (boot 0))) = (Return (Responded r), w') ->
        status r = 200%Z ->
        exists v, payload_ok v
                  /\ body r = JObj [(js "type", JStr (js "video")); (js "data", v)]).
Proof.
  apply (lookup_payload_shape rt_ok).
  apply (reach_lookup rt_ok (boot 0) _ video_url (fst (getVideoInfo rt_ok video_url (boot 0)))).
  - apply reach_boot.
  - apply surjective_pairing.
Defined.

(** X12. The retention window is measured from the timestamp stored with
    the entry and is open at its end: a lookup answers from the cache, and
    starts nothing, as long as [Date.now() - timestamp] is below 300000,
    also when the clock has been set back behind the timestamp; from 300000
    on it goes through the fetch like a miss, starting one command for a
    URL that is no playlist URL, and the old entry stays when that fetch
    fails. *)
Theorem cache_window_boundary (rt : runtime) (url : jsstring) (w : world) (e : cache_entry) :
  videoInfoCache w !! url = Some e ->
  ((clock w - timestamp e <= 299999)%Z -> getVideoInfo rt url w = (Return (data e), w))
  /\ ((300000 <= clock w - timestamp e)%Z ->
      is_playlist_url url = false ->
      spawned (snd (getVideoInfo rt url w)) = videoInfo_invocation url :: spawned w
      /\ forall m, fst (getVideoInfo rt url w) = Throw m ->
                   videoInfoCache (snd (getVideoInfo rt url w)) !! url = Some e).
Proof.
  intros Hl. split.
  - intros Hage. rewrite getVideoInfo_eq, (cached_fresh w url e Hl); [reflexivity|].
    unfold CACHE_DURATION. lia.
  - intros Hage Hpl.
    assert (Hc : cached w url = None).
    { unfold cached. rewrite Hl.
      destruct (Z.ltb_spec (clock w - timestamp e) CACHE_DURATION) as [Hlt|_]; [|reflexivity].
      unfold CACHE_DURATION in Hlt. lia. }
    destruct (getVideoInfo rt url w) as [r w1] eqn:Hrun. simpl. destruct r as [v|m].
    + apply getVideoInfo_return in Hrun as [[Hc' _] | (_ & _ & Hsp & _)]; [congruence|].
      split; [exact Hsp | discriminate].
    + apply getVideoInfo_throw in Hrun as (_ & Hcache & [[Hpl' _] | [_ Hsp]]); [congruence|].
      split; [exact Hsp|]. intros _ _. rewrite Hcache. exact Hl.
Qed.

(** An entry stored at time 0, looked up at 299999 ms and at 300000 ms
    while yt-dlp fails. *)
Lemma cache_window_boundary_witness :
  (((clock (with_old_entry 299999) - 0 <= 299999)%Z ->
    getVideoInfo rt_fail video_url (with_old_entry 299999)
    = (Return (JObj [(js "title", JStr (js "Old title"))]), with_old_entry 299999))
   /\ ((300000 <= clock (with_old_entry 299999) - 0)%Z ->
       is_playlist_url video_url = false ->
       spawned (snd (getVideoInfo rt_fail video_url (with_old_entry 299999)))
       = videoInfo_invocation video_url :: spawned (with_old_entry 299999)
       /\ forall m, fst (getVideoInfo rt_fail video_url (with_old_entry 299999)) = Throw m ->
                    videoInfoCache (snd (getVideoInfo rt_fail video_url (with_old_entry 299999)))
                    !! video_url
                    = Some {| data := JObj [(js "title", JStr (js "Old title"))];
                              timestamp := 0 |}))
  /\ (((clock (with_old_entry 300000) - 0 <= 299999)%Z ->
       getVideoInfo rt_fail video_url (with_old_entry 300000)
       = (Return (JObj [(js "title", JStr (js "Old title"))]), with_old_entry 300000))
      /\ ((300000 <= clock (with_old_entry 300000) - 0)%Z ->
          is_playlist_url video_url = false ->
          spawned (snd (getVideoInfo rt_fail video_url (with_old_entry 300000)))
          = videoInfo_invocation video_url :: spawned (with_old_entry 300000)
          /\ forall m, fst (getVideoInfo rt_fail video_url (with_old_entry 300000)) = Throw m ->
                       videoInfoCache (snd (getVideoInfo rt_fail video_url (with_old_entry 300000)))
                       !! video_url
                       = Some {| data := JObj [(js "title", JStr (js "Old title"))];
                                 timestamp := 0 |})).
Proof.
  split.
  - apply (cache_window_boundary rt_fail video_url (with_old_entry 299999)
             {| data := JObj [(js "title", JStr (js "Old title"))]; timestamp := 0 |}).
    reflexivity.
  - apply (cache_window_boundary rt_fail video_url (with_old_entry 300000)
             {| data := JObj [(js "title", JStr (js "Old title"))]; timestamp := 0 |}).
    reflexivity.
Defined.

End CachePayload.

(** ** The table of available formats *)

Module FormatsParsing.

Lemma dropWhile_split (f : N -> bool) (v : jsstring) :
  exists tr, v = tr ++ dropWhile f v /\ List.Forall (fun c => f c = true) tr.
Proof.
  induction v as [|c v (tr & Hv & Htr)]; simpl.
  - exists []. split; [reflexivity | constructor].
  - destruct (f c) eqn:E.
    + exists (c :: tr). split; [simpl; congruence | constructor; assumption].
    + exists []. split; [reflexivity | constructor].
Qed.

(** A line that begins with a character that is not white space is its
    trimmed form followed by white space. *)
Lemma trim_prefix (d : N) (l : jsstring) :
  is_space d = false ->
  exists x tr, trim (d :: l) = d :: x /\ d :: l = trim (d :: l) ++ tr
               /\ List.Forall (fun c => is_space c = true) tr.
Proof.
  intros Hd.
  assert (Hdw : dropWhile is_space (d :: l) = d :: l) by (simpl; rewrite Hd; reflexivity).
  unfold trim. rewrite !Hdw.
  destruct (dropWhile_split is_space (rev (d :: l))) as (tr & Hv & Htr).
  assert (Hline : d :: l = rev (dropWhile is_space (rev (d :: l))) ++ rev tr).
  { rewrite <- rev_app_distr, <- Hv, rev_involutive. reflexivity. }
  destruct (rev (dropWhile is_space (rev (d :: l)))) as [|d' x] eqn:E.
  - exfalso. simpl in Hline. destruct (rev tr) as [|c tr'] eqn:Er; [discriminate|].
    injection Hline as <- _.
    assert (Hin : In d tr) by (apply in_rev; rewrite Er; left; reflexivity).
    rewrite List.Forall_forall in Htr. rewrite (Htr d Hin) in Hd. discriminate.
  - injection Hline as <- Hl. exists x, (rev tr). split; [reflexivity|].
    split; [simpl; congruence|]. apply List.Forall_rev. exact Htr.
Qed.

(** The first piece of [split(/\s+/)] is the run of characters before the
    first white space. *)
Lemma split_ws_head (s : jsstring) :
  exists t ts rest,
    split_ws s = t :: ts /\ s = t ++ rest
    /\ List.Forall (fun c => is_space c = false) t
    /\ match rest with [] => True | c :: _ => is_space c = true end.
Proof.
  induction s as [|c s (t & ts & rest & Hs & Hcat & Ht & Hrest)].
  - exists [], [], []. simpl. auto.
  - simpl. rewrite Hs. destruct (is_space c) eqn:Hc.
    + destruct t as [|a t].
      * exists [], ts, (c :: s). simpl. auto.
      * exists [], ((a :: t) :: ts), (c :: s). simpl. auto.
    + exists (c :: t), ts, rest. simpl. rewrite Hcat.
      repeat split; [constructor; assumption | assumption].
Qed.

Lemma is_digit_not_space (d : N) : is_digit d = true -> is_space d = false.
Proof.
  unfold is_digit. rewrite andb_true_iff, !N.leb_le. intros Hd.
  destruct (is_space d) eqn:E; [|reflexivity].
  apply JsStringFacts.is_space_range in E. lia.
Qed.

Lemma resolution_column (o : option jsstring) :
  exists r, js_or (opt_str o) (JStr (js "audio only")) = JStr r /\ r <> []
            /\ (o = None -> r = js "audio only").
Proof.
  destruct o as [[|c s]|]; unfold js_or; simpl; eexists; (split; [reflexivity|]);
    split; try discriminate; auto.
Qed.

(** X13. Every line of the output of [yt-dlp -F] that [/api/formats] takes
    for a format line (it begins with a digit and mentions mp4, webm or
    m4a) yields an element of [availableFormats] whose [formatId] is the
    first column of the line as printed: it begins with that digit, holds no
    white space and is followed in the line by white space or nothing; whose
    [resolution] is a non-empty string, 'audio only' when the line has a
    single column, so that [ext] is undefined; and whose [fullLine] is the
    trimmed line. *)
Theorem format_line_first_column (line : jsstring) :
  is_format_line line = true -> format_entry_ok line (parse_format line).
Proof.
  unfold is_format_line. destruct line as [|d l]; [discriminate|].
  intros H. apply andb_true_iff in H as [Hd _].
  pose proof (is_digit_not_space d Hd) as Hsp.
  destruct (trim_prefix d l Hsp) as (x & tr & Htrim & Hline & Htr).
  destruct (split_ws_head (trim (d :: l))) as (t & ts & rest & Hs & Hcat & Ht & Hrest).
  unfold parse_format, format_entry_ok. cbv zeta. rewrite Hs.
  destruct (resolution_column ((t :: ts) !! 2%nat)) as (r & Hr & Hne & Hnone).
  rewrite Hr.
  exists t, (rest ++ tr), (opt_str ((t :: ts) !! 1%nat)), r,
    (includes (d :: l) (js "audio only") || negb (includes (d :: l) (js "video only"))).
  split; [reflexivity|].
  split; [rewrite Hline at 1; rewrite Hcat at 1; rewrite app_assoc; reflexivity|].
  split.
  { destruct t as [|d' t'].
    - simpl in Hcat. rewrite Htrim in Hcat. subst rest. simpl in Hrest. congruence.
    - rewrite Htrim in Hcat. injection Hcat as <- _. exact Hd. }
  split; [exact Ht|]. split.
  { destruct rest as [|c rest']; [|exact Hrest]. simpl.
    destruct tr as [|c tr']; [exact I|]. inversion Htr; assumption. }
  split; [|exact Hne].
  intros Hext. apply Hnone. simpl in Hext |- *.
  destruct ts as [|t1 ts']; [reflexivity|]. discriminate Hext.
Qed.

Lemma format_line_first_column_witness :
  format_entry_ok format_line_137 (parse_format format_line_137).
Proof. apply (format_line_first_column format_line_137). reflexivity. Defined.

End FormatsParsing.

(** ** The cleanup timers of a video download, one after the other *)

Module TimerSequence.
Import FsFacts FinalCleanupFacts SweepFacts SweepFrame TitleMatching.

(** A pass that fires at the time [c]. *)
Lemma in_directory_differs (dir : jsstring) (f : directory -> directory)
    (d : directory) (c : Z) (w0 w : world) :
  only_directory_differs dir d w0 w ->
  only_directory_differs dir (f d) w0 (snd (in_directory dir f (at_time c w)))
  /\ clock (snd (in_directory dir f (at_time c w))) = c.
Proof.
  intros (Hd & Hother & Hc & Hs). unfold in_directory, at_time. simpl. rewrite Hd.
  unfold only_directory_differs. simpl.
  split; [|reflexivity]. split; [apply lookup_insert_eq|]. split; [|auto].
  intros dir' Hne. rewrite lookup_insert_ne by congruence. apply Hother, Hne.
Qed.

Lemma finalCleanup_In_sub (t : jsstring) (d : directory) (f : file) :
  In f (finalCleanup t d) -> In f d.
Proof.
  rewrite finalCleanup_In. destruct (keep_largest_mp4_returns t d) as [d1 Hk]. rewrite Hk.
  intros [Hf _]. exact (proj1 (keep_largest_mp4_In t d d1 f Hk) Hf).
Qed.

(** X14.  A video download that exits without error sets four timers: the
    temp-file pass 3, 5 and 8 seconds and the final pass 10 seconds after the
    exit.  When they fire at these times over a downloads directory with
    distinct names that nothing else changes in between, the second and
    third temp-file pass delete nothing, and after the final pass, ten
    seconds after the exit, every entry that is left was there before and
    every sub-directory is still there; the regular files left meet none
    of the temp-file criteria and end in [.mp4] if their name contains the
    title, and at most one of them starts with the title and ends in
    [.mp4]; other directories, the cache and the list of started commands
    are as before. *)
Theorem video_timers_settle (rt : runtime) (t : jsstring) (d : directory) (w : world) :
  files w !! downloadsDir rt = Some d ->
  List.NoDup (readdir d) ->
  exists s,
    on_video_exit rt t None fresh w = (Return s, w)
    /\ timers s = [((clock w + 3000)%Z, CleanupTempFiles t);
                   ((clock w + 5000)%Z, CleanupTempFiles t);
                   ((clock w + 8000)%Z, CleanupTempFiles t);
                   ((clock w + 10000)%Z, FinalCleanup t)]
    /\ files (run_tasks rt (firstn 2 (timers s)) w)
       = files (run_tasks rt (firstn 1 (timers s)) w)
    /\ files (run_tasks rt (firstn 3 (timers s)) w)
       = files (run_tasks rt (firstn 1 (timers s)) w)
    /\ exists d',
        only_directory_differs (downloadsDir rt) d' w (run_tasks rt (timers s) w)
        /\ clock (run_tasks rt (timers s) w) = (clock w + 10000)%Z
        /\ d' = finalCleanup t (cleanupTempFiles t d)
        /\ (forall f, In f d' ->
              In f d
              /\ (isDirectory f = false ->
                  is_temp t (fname f) = false
                  /\ (includes (fname f) t = true -> endsWith (fname f) mp4 = true)))
        /\ (forall f, In f d -> isDirectory f = true -> In f d')
        /\ (length (List.filter (fun f => is_final_mp4 t (fname f) && negb (isDirectory f))
                                d') <= 1)%nat.
Proof.
  intros Hfiles Hnd.
  assert (Hrun : exists s, on_video_exit rt t None fresh w = (Return s, w)
                           /\ timers s = [((clock w + 3000)%Z, CleanupTempFiles t);
                                          ((clock w + 5000)%Z, CleanupTempFiles t);
                                          ((clock w + 8000)%Z, CleanupTempFiles t);
                                          ((clock w + 10000)%Z, FinalCleanup t)]).
  { unfold on_video_exit, bind, date_now, readdirSync. rewrite Hfiles.
    destruct (List.filter (is_final_mp4 t) (readdir d)); eexists; split; reflexivity. }
  destruct Hrun as (s & Hexit & Htimers). exists s.
  split; [exact Hexit|]. split; [exact Htimers|]. rewrite Htimers. simpl firstn.
  assert (H0 : only_directory_differs (downloadsDir rt) d w w)
    by (unfold only_directory_differs; auto).
  assert (Hidem : cleanupTempFiles t (cleanupTempFiles t d) = cleanupTempFiles t d).
  { rewrite !cleanupTempFiles_filter. apply filter_idempotent. }
  simpl run_tasks. unfold run_task.
  destruct (in_directory_differs _ (cleanupTempFiles t) _
              (Z.max (clock w) (clock w + 3000)) _ _ H0) as [H1 C1].
  set (w1 := snd (in_directory _ _ (at_time (Z.max (clock w) (clock w + 3000)) w))) in *.
  destruct (in_directory_differs _ (cleanupTempFiles t) _
              (Z.max (clock w1) (clock w + 5000)) _ _ H1) as [H2 C2].
  rewrite Hidem in H2.
  set (w2 := snd (in_directory _ _ (at_time (Z.max (clock w1) (clock w + 5000)) w1))) in *.
  destruct (in_directory_differs _ (cleanupTempFiles t) _
              (Z.max (clock w2) (clock w + 8000)) _ _ H2) as [H3 C3].
  rewrite Hidem in H3.
  set (w3 := snd (in_directory _ _ (at_time (Z.max (clock w2) (clock w + 8000)) w2))) in *.
  destruct (in_directory_differs _ (finalCleanup t) _
              (Z.max (clock w3) (clock w + 10000)) _ _ H3) as [H4 C4].
  set (w4 := snd (in_directory _ _ (at_time (Z.max (clock w3) (clock w + 10000)) w3))) in *.
  assert (Hsame : forall wa wb d1,
            only_directory_differs (downloadsDir rt) d1 w wa ->
            only_directory_differs (downloadsDir rt) d1 w wb -> files wa = files wb).
  { intros wa wb d1 (Ha & Hb & _) (Ha' & Hb' & _). apply map_eq. intros dir.
    destruct (decide (dir = downloadsDir rt)) as [->|Hne]; [congruence|].
    rewrite Hb, Hb' by exact Hne. reflexivity. }
  split; [exact (Hsame _ _ _ H2 H1)|]. split; [exact (Hsame _ _ _ H3 H1)|].
  exists (finalCleanup t (cleanupTempFiles t d)).
  split; [exact H4|]. split; [lia|]. split; [reflexivity|].
  assert (Hnd1 : List.NoDup (readdir (cleanupTempFiles t d))).
  { rewrite cleanupTempFiles_filter. apply readdir_filter_NoDup, Hnd. }
  split; [|split].
  - intros f Hf. pose proof (finalCleanup_no_leftover _ _ _ Hf) as Hleft.
    apply finalCleanup_In_sub in Hf. rewrite cleanupTempFiles_filter in Hf.
    apply List.filter_In in Hf as [Hf Htemp].
    split; [exact Hf|]. intros Hreg. rewrite Hreg, orb_false_r in Htemp.
    apply negb_true_iff in Htemp. split; [exact Htemp|].
    intros Hinc. specialize (Hleft Hreg). unfold is_leftover in Hleft.
    rewrite Hinc in Hleft.
    destruct (endsWith (fname f) mp4); [reflexivity | discriminate Hleft].
  - intros f Hf Hdir.
    apply (subdirectory_stays t (cleanupTempFiles t d) f); [|exact Hdir].
    apply (subdirectory_stays t d f Hf Hdir).
  - exact (proj2 (proj2 (finalCleanup_settled t _ Hnd1))).
Qed.

(** The timers of a download of 'My_mix' beside the folder of a playlist
    of that name. *)
Lemma video_timers_settle_witness :
  exists s,
    on_video_exit rt_ok (js "My_mix") None fresh (with_downloads mix_dir)
    = (Return s, with_downloads mix_dir)
    /\ timers s = [((clock (with_downloads mix_dir) + 3000)%Z, CleanupTempFiles (js "My_mix"));
                   ((clock (with_downloads mix_dir) + 5000)%Z, CleanupTempFiles (js "My_mix"));
                   ((clock (with_downloads mix_dir) + 8000)%Z, CleanupTempFiles (js "My_mix"));
                   ((clock (with_downloads mix_dir) + 10000)%Z, FinalCleanup (js "My_mix"))]
    /\ files (run_tasks rt_ok (firstn 2 (timers s)) (with_downloads mix_dir))
       = files (run_tasks rt_ok (firstn 1 (timers s)) (with_downloads mix_dir))
    /\ files (run_tasks rt_ok (firstn 3 (timers s)) (with_downloads mix_dir))
       = files (run_tasks rt_ok (firstn 1 (timers s)) (with_downloads mix_dir))
    /\ exists d',
        only_directory_differs (downloadsDir rt_ok) d' (with_downloads mix_dir)
          (run_tasks rt_ok (timers s) (with_downloads mix_dir))
        /\ clock (run_tasks rt_ok (timers s) (with_downloads mix_dir))
           = (clock (with_downloads mix_dir) + 10000)%Z
        /\ d' = finalCleanup (js "My_mix") (cleanupTempFiles (js "My_mix") mix_dir)
        /\ (forall f, In f d' ->
              In f mix_dir
              /\ (isDirectory f = false ->
                  is_temp (js "My_mix") (fname f) = false
                  /\ (includes (fname f) (js "My_mix") = true ->
                      endsWith (fname f) mp4 = true)))
        /\ (forall f, In f mix_dir -> isDirectory f = true -> In f d')
        /\ (length (List.filter (fun f => is_final_mp4 (js "My_mix") (fname f)
                                          && negb (isDirectory f)) d') <= 1)%nat.
Proof.
  apply (video_timers_settle rt_ok (js "My_mix") mix_dir (with_downloads mix_dir)).
  - reflexivity.
  - distinct_names.
Defined.

End TimerSequence.
